(** * BLELog: connection lifecycle and data pipeline

    A shallow embedding of [blelog/ActiveConnection.py], [blelog/Scanner.py]
    and [blelog/consumers/log2csv.py].

    Every coroutine is embedded as a computation in a state-and-exception
    monad.  Whatever a coroutine cannot decide by itself (the result of an
    awaited call, the callbacks and clock progress that happen while it is
    suspended) is read from an environment, indexed by the number of
    suspensions so far.  Every log record, every awaited call and every
    assignment to [state] is appended to a chronological list of effects.

    Conventions:
    - [time.monotonic_ns()] is an integer number of nanoseconds ([Z]);
    - durations in seconds are Python floats (binary64).  The health check
      and the ageing of seen devices are modelled on exact rationals ([Q]):
      a configured duration is the decimal value of the configuration, an
      elapsed time is the exact quotient of the nanoseconds by [1e9]
      ([seconds_since]).  Rounding to binary64 is monotone, so an exact
      [<=] is also a [<=] of the code, and an exact [>] between an elapsed
      time and one configured duration is a [>] of the code as long as the
      two differ by more than the spacing of binary64 at their size (a
      nanosecond is more than that spacing below [2^23] seconds).  The sum
      of two durations is exact here and rounded in the code: statements
      that need the sum to the last digit are not made.  The time
      [active_time_str] prints is modelled with the rounding of the code
      ([binary64]);
    - a character of a string is a code point below 256;
    - a [while] loop takes a bound on its number of iterations, and the
      result [Unfinished] marks a loop that is still running at that bound. *)

From Stdlib Require Import Ascii QArith Qround Qabs Lqa.
From stdpp Require Import gmap strings list fin_maps pretty.

Open Scope string_scope.
Open Scope Z_scope.
Open Scope list_scope.

(** ** Python exceptions, results and the coroutine monad *)

Module Py.

(** The exception classes the three modules raise or catch.  All of them
    derive from [Exception]; [OtherException] stands for any class that no
    [except] clause of the sources names.  [BleakDBusError] derives from
    [BleakError] and [FileNotFoundError] from [OSError]: an [except] clause
    for the base class is a pattern with both constructors.  Exceptions
    outside [Exception] (cancellation, keyboard interrupt) are left out.
    The text a constructor carries is what [str(e)] returns, except for
    [KeyError], which carries the key a lookup raised it for, a [str]; no
    [except] clause names [KeyError], and one raised with anything else is
    an [OtherException] with its text. *)
Inductive Exception : Type :=
  | ActiveConnectionException
  | BleakDBusError (msg : string)
  | BleakError (msg : string)
  | TimeoutError
  | OSError (msg : string)
  | FileNotFoundError (msg : string)
  | QueueFull
  | KeyError (key : string)
  | OtherException (msg : string).

Definition double_quote : ascii := Ascii.ascii_of_nat 34.
Definition backslash : ascii := Ascii.ascii_of_nat 92.

(** [c in s] for a character [c]. *)
Fixpoint occurs (c : ascii) (s : string) : bool :=
  match s with
  | EmptyString => false
  | String c' rest => Ascii.eqb c' c || occurs c rest
  end.

(** The hexadecimal digit of [n < 16], in lower case. *)
Definition hexdigit (n : nat) : ascii :=
  Ascii.ascii_of_nat (if (n <? 10)%nat then 48 + n else 87 + n).

(** [c.isprintable()] for a code point below 256: everything but the
    control characters, the no-break space and the soft hyphen. *)
Definition isprintable (c : ascii) : bool :=
  let n := Ascii.nat_of_ascii c in
  ((32 <=? n)%nat && (n <? 127)%nat) || ((161 <=? n)%nat && negb (n =? 173)%nat).

(** What [repr] writes for one character of a [str] quoted with [quote]. *)
Definition repr_char (quote c : ascii) : string :=
  let n := Ascii.nat_of_ascii c in
  if Ascii.eqb c quote || Ascii.eqb c backslash then String backslash (String c EmptyString)
  else if (n =? 9)%nat then String backslash "t"
  else if (n =? 10)%nat then String backslash "n"
  else if (n =? 13)%nat then String backslash "r"
  else if isprintable c then String c EmptyString
  else String backslash
         (String "x" (String (hexdigit (n / 16)) (String (hexdigit (n mod 16)) EmptyString))).

Fixpoint repr_chars (quote : ascii) (s : string) : string :=
  match s with
  | EmptyString => EmptyString
  | String c rest => repr_char quote c +:+ repr_chars quote rest
  end.

(** [repr(s)] for a [str]: in single quotes, or in double quotes when [s]
    holds a single quote and no double quote. *)
Definition repr (s : string) : string :=
  let quote := if occurs "'" s && negb (occurs double_quote s) then double_quote else "'"%char in
  String quote (repr_chars quote s +:+ String quote EmptyString).

(** [str(e)]; [str(KeyError(key))] is [repr(key)]. *)
Definition str (e : Exception) : string :=
  match e with
  | ActiveConnectionException | TimeoutError | QueueFull => EmptyString
  | BleakDBusError msg | BleakError msg | OSError msg
  | FileNotFoundError msg | OtherException msg => msg
  | KeyError key => repr key
  end.

Inductive Level : Type := INFO | WARNING | ERROR.

(** Calls that suspend the calling coroutine. *)
Inductive Op : Type :=
  | con_connect
  | con_start_notify (uuid : string)
  | con_disconnect
  | asyncio_sleep (seconds : Q)
  | BleakScanner_discover
  | aiofiles_open (path mode : string)
  | f_write (path text : string)
  | f_flush (path : string)
  | f_close (path : string)
  | input_q_get
  | asyncio_gather.

Inductive Effect (St : Type) : Type :=
  | Log (lvl : Level) (msg : string)
  | LogException (e : Exception)
  | Print (msg : string)
  | Await (op : Op)
  | Assign (s : St).
Arguments Log {St} lvl msg.
Arguments LogException {St} e.
Arguments Print {St} msg.
Arguments Await {St} op.
Arguments Assign {St} s.

Inductive Result (A : Type) : Type :=
  | Ret (a : A)
  | Raise (e : Exception)
  | Unfinished.
Arguments Ret {A} a.
Arguments Raise {A} e.
Arguments Unfinished {A}.

Definition M (S A : Type) : Type := S -> Result A * S.

Definition ret {S A} (a : A) : M S A := fun s => (Ret a, s).

Definition bind {S A B} (m : M S A) (k : A -> M S B) : M S B :=
  fun s =>
    match m s with
    | (Ret a, s') => k a s'
    | (Raise e, s') => (Raise e, s')
    | (Unfinished, s') => (Unfinished, s')
    end.

#[global] Instance M_ret {S} : MRet (M S) := @ret S.
#[global] Instance M_bind {S} : MBind (M S) := fun A B k m => bind m k.

Definition raise {S A} (e : Exception) : M S A := fun s => (Raise e, s).
Definition unfinished {S A} : M S A := fun s => (Unfinished, s).
Definition gets {S A} (f : S -> A) : M S A := fun s => (Ret (f s), s).
Definition modify {S} (f : S -> S) : M S unit := fun s => (Ret tt, f s).
Definition pass {S} : M S unit := ret tt.

(** [try: body / except Exception as e: handler e].  A handler that does not
    name the class of [e] re-raises it. *)
Definition try_except {S A} (body : M S A) (handler : Exception -> M S A) : M S A :=
  fun s =>
    match body s with
    | (Raise e, s') => handler e s'
    | r => r
    end.

(** [try: body / finally: final].  An exception of [final] replaces the
    outcome of [body]. *)
Definition try_finally {S A} (body : M S A) (final : M S unit) : M S A :=
  fun s =>
    match body s with
    | (Unfinished, s') => (Unfinished, s')
    | (r, s') =>
        match final s' with
        | (Ret _, s'') => (r, s'')
        | (Raise e, s'') => (Raise e, s'')
        | (Unfinished, s'') => (Unfinished, s'')
        end
    end.

(** [for x in xs: body x] *)
Fixpoint for_each {S A} (xs : list A) (body : A -> M S unit) : M S unit :=
  match xs with
  | [] => ret tt
  | x :: xs' => body x ;; for_each xs' body
  end.

(** [a > b] on seconds. *)
Definition Qgtb (a b : Q) : bool := negb (Qle_bool a b).

(** [(now - then) / 1e9]: nanoseconds elapsed, in seconds. *)
Definition seconds_since (now then_ : Z) : Q := (inject_Z (now - then_) / 1e9)%Q.

(** The integer nearest to [q], the even one of two that are equally
    near. *)
Definition round_half_even (q : Q) : Z :=
  let f := Qfloor q in
  match (q - inject_Z f ?= 1 # 2)%Q with
  | Lt => f
  | Gt => f + 1
  | Eq => if Z.even f then f else f + 1
  end.

(** [q * 2**e] *)
Definition ldexp (q : Q) (e : Z) : Q :=
  if 0 <=? e then (q * inject_Z (2 ^ e))%Q else (q / inject_Z (2 ^ (- e)))%Q.

(** The exponent [e] of the spacing of binary64 at [q]:
    [2^(e+52) <= |q| < 2^(e+53)], for [q] other than 0. *)
Definition spacing_exponent (q : Q) : Z :=
  let e0 := Z.log2 (Z.abs (Qnum q)) - Z.log2 (Zpos (Qden q)) - 52 in
  if Qle_bool (ldexp 1 (e0 + 52)) (Qabs q) then e0 else e0 - 1.

(** The float nearest to [q]: 53 significant bits, ties to even.  The
    range of the exponent is not modelled: no overflow and no subnormal
    numbers. *)
Definition binary64 (q : Q) : Q :=
  if Qeq_bool q 0 then 0%Q
  else
    let e := spacing_exponent q in
    ldexp (inject_Z (round_half_even (ldexp q (- e)))) e.

(** [float(n)], the conversion of an [int] an arithmetic operator makes. *)
Definition float_of_int (n : Z) : Q := binary64 (inject_Z n).

(** [a / b] on floats. *)
Definition truediv (a b : Q) : Q := binary64 (a / b).

(** [x // d] on floats, for a positive [d]: the floor of the exact quotient
    (it is a float when [x] is not negative and below [2^53]). *)
Definition floordiv (x d : Q) : Q := inject_Z (Qfloor (x / d)).

(** [x % d] on floats, for a positive [d]: the remainder is exact. *)
Definition fmod (x d : Q) : Q := (x - d * floordiv x d)%Q.

(** [int(x)]: the integer towards zero. *)
Definition int (x : Q) : Z := if Qle_bool 0 x then Qfloor x else Qceiling x.

(** ["%02i" % x]: at least two characters, padded with a zero. *)
Definition format_02i (x : Q) : string :=
  let digits := pretty (int x) in
  if bool_decide (String.length digits < 2)%nat then "0" +:+ digits else digits.

End Py.
Import Py.

(** ** asyncio.Queue *)

Module Queue.

Record Queue (A : Type) : Type := mkQueue { maxsize : Z; items : list A }.
Arguments mkQueue {A} maxsize items.
Arguments maxsize {A} q.
Arguments items {A} q.

Definition qsize {A} (q : Queue A) : Z := Z.of_nat (length (items q)).

Definition empty {A} (q : Queue A) : bool :=
  match items q with [] => true | _ => false end.

(** A queue with [maxsize <= 0] is never full. *)
Definition full {A} (q : Queue A) : bool :=
  if bool_decide (maxsize q <= 0) then false
  else bool_decide (maxsize q <= qsize q).

(** [put_nowait]: [None] stands for [QueueFull]. *)
Definition put_nowait {A} (x : A) (q : Queue A) : option (Queue A) :=
  if full q then None else Some (mkQueue (maxsize q) (items q ++ [x])).

(** [get_nowait]: [None] stands for [QueueEmpty]. *)
Definition get_nowait {A} (q : Queue A) : option (A * Queue A) :=
  match items q with
  | [] => None
  | x :: rest => Some (x, mkQueue (maxsize q) rest)
  end.

End Queue.

(** ** Declarations of blelog.Configuration and blelog.ConsumerMgr *)

Module Configuration.

(** A decoded row, its cells held as the text [csv.writer] prints. *)
Definition Row : Type := list string.

(** What a call of a characteristic's [data_decoder] does. *)
Inductive Decoded : Type :=
  | Rows (rows : list Row)
  | DecoderRaises (e : Exception).

(** Modelled from the spec: the class [Characteristic] of
    blelog/Configuration.py is not among the sources; its fields are the
    ones of the spec's CharacteristicSpec, under the names the sources and
    config.py use. *)
Record Characteristic : Type := mkCharacteristic {
  name : string;
  uuid : string;
  timeout : option Q;
  column_headers : list string;
  data_decoder : list Byte.byte -> Decoded
}.

(** Modelled from the spec: the class [Configuration] of
    blelog/Configuration.py is not among the sources; these are the
    settings the three modules read. *)
Record Configuration : Type := mkConfiguration {
  scan_duration : Q;
  scan_cooldown : Q;
  seen_timeout : Q;
  connection_timeout_hard : Q;
  connection_timeout_scan : Q;
  connect_device_name_regexes : list string;
  connect_device_adrs : list string;
  device_aliases : gmap string string;
  characteristics : list Characteristic;
  initial_characteristic_timeout : option Q;
  log2csv_folder_name : string
}.

(** Modelled from the spec: the class [NotifData] of blelog/ConsumerMgr.py
    is not among the sources; its fields are those of the spec's
    NotificationRecord, in the order of the constructor call in
    [_notif_callback]. *)
Record NotifData : Type := mkNotifData {
  device_adr : string;
  device_name : string;
  characteristic : Characteristic;
  data : list Row;
  raw_data : list Byte.byte
}.

End Configuration.

(** ** blelog/ActiveConnection.py *)

Module ActiveConnection.
Import Configuration.

Inductive ConnectionState : Type := CONNECTING | CONNECTED | DISCONNECTED.

#[global] Instance ConnectionState_eq_dec : EqDecision ConnectionState.
Proof. solve_decision. Defined.

(** [ConnectionState.__str__]: the name of the member, after the dot. *)
Definition ConnectionState_str (s : ConnectionState) : string :=
  match s with
  | CONNECTING => "CONNECTING"
  | CONNECTED => "CONNECTED"
  | DISCONNECTED => "DISCONNECTED"
  end.

(** The [BleakClient] object built by [run]. *)
Record BleakClient : Type := mkBleakClient {
  client_address : string;
  client_timeout : Q
}.

Record ActiveConnection : Type := mkActiveConnection {
  adr : string;
  name : string;
  config : Configuration;
  state : ConnectionState;
  disconnected_callback_flag : bool;
  did_disconnect : bool;
  con : option BleakClient;
  initial_connection_time : option Z;
  last_notif : gmap string (option Z)
}.

(** [ActiveConnection.__init__]; the [output] queue is shared with the
    consumer manager and lives in the [Machine] below. *)
Definition __init__ (adr name : string) (config : Configuration) : ActiveConnection :=
  {| adr := adr;
     name := name;
     config := config;
     state := CONNECTING;
     disconnected_callback_flag := false;
     did_disconnect := false;
     con := None;
     initial_connection_time := None;
     last_notif :=
       foldl (fun d c => <[Configuration.uuid c := None]> d) ∅ (characteristics config) |}.

(** The object together with everything else the coroutine touches. *)
Record Machine : Type := mkMachine {
  self : ActiveConnection;
  clock : Z;                      (* what time.monotonic_ns() returns now *)
  halt : bool;                    (* the process-wide halt Event *)
  awaits : nat;                   (* suspensions so far *)
  output : Queue.Queue NotifData; (* self.output *)
  effects : list (Effect ConnectionState)
}.

Definition with_self (f : ActiveConnection -> ActiveConnection) (m : Machine) : Machine :=
  mkMachine (f (self m)) (clock m) (halt m) (awaits m) (output m) (effects m).

Definition with_state (s : ConnectionState) (a : ActiveConnection) : ActiveConnection :=
  mkActiveConnection (adr a) (name a) (config a) s (disconnected_callback_flag a)
    (did_disconnect a) (con a) (initial_connection_time a) (last_notif a).

Definition with_did_disconnect (b : bool) (a : ActiveConnection) : ActiveConnection :=
  mkActiveConnection (adr a) (name a) (config a) (state a) (disconnected_callback_flag a)
    b (con a) (initial_connection_time a) (last_notif a).

Definition with_con (c : option BleakClient) (a : ActiveConnection) : ActiveConnection :=
  mkActiveConnection (adr a) (name a) (config a) (state a) (disconnected_callback_flag a)
    (did_disconnect a) c (initial_connection_time a) (last_notif a).

Definition with_initial_connection_time (t : option Z) (a : ActiveConnection) : ActiveConnection :=
  mkActiveConnection (adr a) (name a) (config a) (state a) (disconnected_callback_flag a)
    (did_disconnect a) (con a) t (last_notif a).

Definition with_last_notif (d : gmap string (option Z)) (a : ActiveConnection) : ActiveConnection :=
  mkActiveConnection (adr a) (name a) (config a) (state a) (disconnected_callback_flag a)
    (did_disconnect a) (con a) (initial_connection_time a) d.

Definition with_clock (t : Z) (m : Machine) : Machine :=
  mkMachine (self m) t (halt m) (awaits m) (output m) (effects m).

Definition with_halt (h : bool) (m : Machine) : Machine :=
  mkMachine (self m) (clock m) h (awaits m) (output m) (effects m).

Definition with_awaits (n : nat) (m : Machine) : Machine :=
  mkMachine (self m) (clock m) (halt m) n (output m) (effects m).

Definition with_output (q : Queue.Queue NotifData) (m : Machine) : Machine :=
  mkMachine (self m) (clock m) (halt m) (awaits m) q (effects m).

Definition with_effects (l : list (Effect ConnectionState)) (m : Machine) : Machine :=
  mkMachine (self m) (clock m) (halt m) (awaits m) (output m) l.

Definition emit (ev : Effect ConnectionState) : M Machine unit :=
  modify (fun m => with_effects (effects m ++ [ev]) m).

Definition log_info (msg : string) : M Machine unit := emit (Log INFO msg).
Definition log_warning (msg : string) : M Machine unit := emit (Log WARNING msg).
Definition log_error (msg : string) : M Machine unit := emit (Log ERROR msg).
Definition log_exception (e : Exception) : M Machine unit := emit (LogException e).
Definition print (msg : string) : M Machine unit := emit (Print msg).

Definition field {A} (f : ActiveConnection -> A) : M Machine A :=
  gets (fun m => f (self m)).

(** [self.state = s] *)
Definition set_state (s : ConnectionState) : M Machine unit :=
  modify (with_self (with_state s)) ;; emit (Assign s).

Definition monotonic_ns : M Machine Z := gets clock.
Definition halt_is_set : M Machine bool := gets halt.

(** [self.output.put_nowait(result)] *)
Definition output_put_nowait (result : NotifData) : M Machine unit :=
  q ← gets output;
  match Queue.put_nowait result q with
  | Some q' => modify (with_output q')
  | None => raise QueueFull
  end.

(** [self.last_notif[uuid]] *)
Definition last_notif_getitem (uuid : string) : M Machine (option Z) :=
  d ← field last_notif;
  match d !! uuid with
  | Some v => mret v
  | None => raise (KeyError uuid)
  end.

Definition _disconnected_callback : M Machine unit :=
  modify (with_self (with_did_disconnect true)).

Definition _notif_callback (data : list Byte.byte) (char : Characteristic) : M Machine unit :=
  now ← monotonic_ns;
  modify (with_self (fun a => with_last_notif (<[uuid char := Some now]> (last_notif a)) a)) ;;
  (* Decode and package data: *)
  try_except
    (decoded_data ← match data_decoder char data with
                    | Rows rows => mret rows
                    | DecoderRaises e => raise e
                    end;
     if bool_decide (length decoded_data = 0%nat) then mret tt
     else
       adr ← field adr;
       name ← field name;
       let result := mkNotifData adr name char decoded_data data in
       try_except
         (output_put_nowait result)
         (fun e => match e with
                   | QueueFull => log_error (name +:+ " failed to put data into queue!")
                   | _ => raise e
                   end))
    (fun e =>
       log_error ("Decoder for " +:+ Configuration.name char +:+ " raised an exception: " +:+ str e) ;;
       log_exception e).

Definition active_time_str : M Machine string :=
  initial_connection_time ← field initial_connection_time;
  match initial_connection_time with
  | None => mret "xx:xx:xx"
  | Some initial_connection_time =>
      now ← monotonic_ns;
      let active_s := truediv (float_of_int (now - initial_connection_time)) 1e9 in
      let h := floordiv active_s 3600 in
      let active_s := fmod active_s 3600 in
      let min := floordiv active_s 60 in
      let active_s := fmod active_s 60 in
      let s := floordiv active_s 1 in
      mret (format_02i h +:+ ":" +:+ format_02i min +:+ ":" +:+ format_02i s)
  end.

(** What happens while the coroutine is suspended. *)
Inductive Arrival : Type :=
  | Elapse (ns : N)                                        (* the clock advances *)
  | Notify (char : Characteristic) (data : list Byte.byte) (* the transport calls the notification callback *)
  | Disconnected                                           (* the transport calls the disconnected callback *)
  | HaltSet.                                               (* another task sets the halt Event *)

Inductive Outcome : Type :=
  | Returns (b : bool)
  | Raises (e : Exception).

Record Suspension : Type := mkSuspension {
  arrivals : list Arrival;
  outcome : Outcome
}.

Definition deliver (m : Machine) (a : Arrival) : Machine :=
  match a with
  | Elapse ns => with_clock (clock m + Z.of_N ns) m
  | Notify char data => snd (_notif_callback data char m)
  | Disconnected => snd (_disconnected_callback m)
  | HaltSet => with_halt true m
  end.

Section Coroutine.

(** [env k]: what the [k]-th suspension of this coroutine meets. *)
Variable env : nat -> Suspension.

(** [await op] *)
Definition await (op : Op) : M Machine bool :=
  fun m =>
    let s := env (awaits m) in
    let m1 := with_awaits (S (awaits m)) (with_effects (effects m ++ [Await op]) m) in
    let m2 := foldl deliver m1 (arrivals s) in
    match outcome s with
    | Returns b => (Ret b, m2)
    | Raises e => (Raise e, m2)
    end.

Definition _do_disconnect : M Machine unit :=
  con ← field con;
  match con with
  | Some _ =>
      try_finally
        (try_except
           (did_disconnect ← await con_disconnect;  (* wait_for(self.con.disconnect(), timeout=20) *)
            name ← field name;
            if did_disconnect : bool then log_warning ("Disconnected from " +:+ name +:+ ".")
            else log_warning ("Failed to disconnect from " +:+ name +:+ ": Bleak Error."))
           (fun e =>
              name ← field name;
              match e with
              | BleakDBusError _ => log_warning ("Failed to disconnect from " +:+ name +:+ ": DBus Error.")
              | BleakError msg => log_warning ("Failed to disconnect from " +:+ name +:+ ": " +:+ msg)
              | TimeoutError => log_warning ("Failed to disconnect from " +:+ name +:+ ": Timeout")
              | OSError _ | FileNotFoundError _ =>
                  log_warning ("Failed to disconnect from " +:+ name +:+ ": OSError")
              | _ => raise e
              end))
        (modify (with_self (with_did_disconnect true)))
  | None => mret tt
  end.

Definition _connect : M Machine unit :=
  name ← field name;
  try_except
    (ok ← await con_connect;  (* wait_for(con.connect(), connection_timeout_hard) *)
     if negb ok then
       log_warning ("Failed to connect to " +:+ name +:+ "!") ;;
       raise ActiveConnectionException
     else mret tt)
    (fun e =>
       match e with
       | BleakDBusError _ =>
           log_warning ("Failed to connect to " +:+ name +:+ ": DBus Error.") ;;
           log_exception e ;;
           raise ActiveConnectionException
       | BleakError msg =>
           log_warning ("Failed to connect to " +:+ name +:+ ": " +:+ msg) ;;
           log_exception e ;;
           raise ActiveConnectionException
       | TimeoutError =>
           log_warning ("Failed to connect to " +:+ name +:+ ": Timeout") ;;
           raise ActiveConnectionException
       | OSError _ | FileNotFoundError _ =>
           log_warning ("Failed to connect to " +:+ name +:+ ": OSError") ;;
           log_exception e ;;
           raise ActiveConnectionException
       | _ => raise e
       end) ;;
  log_info ("Established connection to " +:+ name +:+ "!") ;;
  (* Enable notifications for all characteristics: *)
  config ← field config;
  for_each (characteristics config)
    (fun char => await (con_start_notify (uuid char)) ;; mret tt) ;;
  log_info ("Enabled notifications for all characteristic for " +:+ name +:+ "!") ;;
  set_state CONNECTED.

(** The body of the [for] loop of [_check_for_timeout]. *)
Definition check_characteristic (char : Characteristic) : M Machine unit :=
  match Configuration.timeout char with
  | Some char_timeout =>
      last_notif ← last_notif_getitem (uuid char);
      match last_notif with
      | Some last_notif =>
          (* Check if normal timeout expired *)
          let timeout := char_timeout in
          now ← monotonic_ns;
          let has_been := seconds_since now last_notif in
          if Qgtb has_been timeout then
            name ← field name;
            log_warning (name +:+ ": Timeout for characteristic " +:+ Configuration.name char
                         +:+ " expired, disconnecting..") ;;
            _do_disconnect ;;
            raise ActiveConnectionException
          else mret tt
      | None =>
          config ← field config;
          match initial_characteristic_timeout config with
          | Some initial_timeout =>
              initial_connection_time ← field initial_connection_time;
              match initial_connection_time with
              | None => raise (OtherException "Implementation error")
              | Some initial_connection_time =>
                  (* Check if initial timeout expired *)
                  let timeout := (char_timeout + initial_timeout)%Q in
                  now ← monotonic_ns;
                  let has_been := seconds_since now initial_connection_time in
                  if Qgtb has_been timeout then
                    name ← field name;
                    log_warning (name +:+ ": Never received a notification for "
                                 +:+ Configuration.name char +:+ ", disconnecting...") ;;
                    _do_disconnect
                  else mret tt
              end
          | None => mret tt
          end
      end
  | None => mret tt
  end.

Definition _check_for_timeout : M Machine unit :=
  config ← field config;
  for_each (characteristics config) check_characteristic.

(** The [while not halt.is_set()] loop of [run], for at most [fuel]
    evaluations of its condition. *)
Fixpoint run_loop (fuel : nat) : M Machine unit :=
  match fuel with
  | O => unfinished
  | S fuel' =>
      halted ← halt_is_set;
      if halted : bool then mret tt
      else
        (* Check for disconnection *)
        did_disconnect ← field did_disconnect;
        (if did_disconnect : bool then
           name ← field name;
           log_warning ("Connection to " +:+ name +:+ " lost!") ;;
           raise ActiveConnectionException
         else mret tt) ;;
        _check_for_timeout ;;
        await (asyncio_sleep 0.05) ;;
        run_loop fuel'
  end.

(** [run], lines 73-96: the statements of the inner [try]. *)
Definition connect_and_poll (fuel : nat) : M Machine unit :=
  (* Ensure there was no disconnect before this connection got a chance to run: *)
  did_disconnect ← field did_disconnect;
  (if did_disconnect : bool then raise ActiveConnectionException else mret tt) ;;
  (* Connect: *)
  _connect ;;
  now ← monotonic_ns;
  modify (with_self (with_initial_connection_time (Some now))) ;;
  run_loop fuel.

(** [run], lines 73-96: [try: body / except ActiveConnectionException: pass /
    finally: await self._do_disconnect()]. *)
Definition inner_try (body : M Machine unit) : M Machine unit :=
  try_finally
    (try_except body
       (fun e =>
          match e with
          | ActiveConnectionException => pass
          | _ => raise e
          end))
    _do_disconnect.

(** [run], lines 64-105: [try: body / except Exception as e: ... /
    finally: self.state = DISCONNECTED ...]. *)
Definition outer_try (body : M Machine unit) : M Machine unit :=
  name ← field name;
  try_finally
    (try_except body
       (fun e =>
          log_error ("Connection " +:+ name +:+ " encountered an exception: " +:+ str e) ;;
          log_exception e ;;
          modify (with_self (with_did_disconnect true))))
    (set_state DISCONNECTED ;;
     halted ← halt_is_set;
     if halted : bool then print ("Connection " +:+ name +:+ " shut down...") else mret tt).

Definition run (fuel : nat) : M Machine unit :=
  outer_try
    (adr ← field adr;
     config ← field config;
     let con := mkBleakClient adr (connection_timeout_scan config) in
     modify (with_self (with_con (Some con))) ;;
     inner_try (connect_and_poll fuel)).

End Coroutine.

End ActiveConnection.

(** ** blelog/Scanner.py *)

Module Scanner.
Import Configuration.

Inductive SeenDeviceState : Type := NOT_SEEN | RECENTLY_SEEN.

(** [SeenDeviceState.__str__]: the name of the member, [_] replaced by a
    space. *)
Definition SeenDeviceState_str (s : SeenDeviceState) : string :=
  match s with
  | NOT_SEEN => "NOT SEEN"
  | RECENTLY_SEEN => "RECENTLY SEEN"
  end.

Record SeenDevice : Type := mkSeenDevice {
  adr : string;
  alias : option string;
  state : SeenDeviceState;
  name : option string;
  last_seen : option Z;
  rssi : option Z
}.

Definition get_name_repr (dev : SeenDevice) : string :=
  match alias dev with
  | Some a => a
  | None => match name dev with
            | Some n => n
            | None => adr dev
            end
  end.

(** What bleak reports of a scanned device: the fields the scanner reads of
    its [BLEDevice] and [AdvertisementData]. *)
Record BLEDevice : Type := mkBLEDevice {
  address : string;
  device_name : option string
}.

Record AdvertisementData : Type := mkAdvertisementData {
  adv_rssi : Z
}.

Record Scanner : Type := mkScanner {
  config : Configuration;
  name_regexes : list string;
  seen_devices : gmap string SeenDevice
}.

(** [Scanner.__init__] *)
Definition __init__ (config : Configuration) : Scanner :=
  {| config := config;
     name_regexes := connect_device_name_regexes config;
     seen_devices :=
       (* Pre-populate with all devices with fixed/pre-specified address: *)
       foldl (fun seen adr =>
                <[adr := {| adr := adr;
                            alias := device_aliases config !! adr;
                            state := NOT_SEEN;
                            name := None;
                            last_seen := None;
                            rssi := None |}]> seen)
             ∅ (connect_device_adrs config) |}.

Section Util.

(** [blelog.Util.normalise_adr] is not among the sources: it is a parameter
    of [_update_seen_devices]. *)
Variable normalise_adr : string -> string.

(** [re.compile(r).match(s)] as a truth value. *)
Variable re_match : string -> string -> bool.

(** The body of the first [for] loop of [_update_seen_devices]. *)
Definition update_scanned (self : Scanner) (t : Z)
    (seen : gmap string SeenDevice) (d : BLEDevice * AdvertisementData)
    : gmap string SeenDevice :=
  let '(scanned_dev, adv_data) := d in
  let adr := normalise_adr (address scanned_dev) in
  match seen !! adr with
  | Some dev =>
      (* Known device, update information: *)
      <[adr := {| adr := Scanner.adr dev;
                  alias := alias dev;
                  state := RECENTLY_SEEN;
                  name := device_name scanned_dev;
                  last_seen := Some t;
                  rssi := Some (adv_rssi adv_data) |}]> seen
  | None =>
      (* Unknown device, check if name matches: *)
      foldl (fun seen r =>
               match device_name scanned_dev with
               | None => seen
               | Some n =>
                   if re_match r n then
                     (* It does, add the new device: *)
                     <[adr := {| adr := adr;
                                 alias := device_aliases (config self) !! adr;
                                 state := RECENTLY_SEEN;
                                 name := Some n;
                                 last_seen := Some t;
                                 rssi := Some (adv_rssi adv_data) |}]> seen
                   else seen
               end)
            seen (name_regexes self)
  end.

(** The body of the second [for] loop: seen-recently timeouts. *)
Definition age (self : Scanner) (now : Z) (dev : SeenDevice) : SeenDevice :=
  match state dev, last_seen dev with
  | RECENTLY_SEEN, Some seen_at =>
      if Qgtb (seconds_since now seen_at) (seen_timeout (config self)) then
        {| adr := adr dev; alias := alias dev; state := NOT_SEEN;
           name := name dev; last_seen := last_seen dev; rssi := rssi dev |}
      else dev
  | _, _ => dev
  end.

(** [_update_seen_devices(devices, t)], where [now] is what
    [time.monotonic_ns()] returns during the call. *)
Definition _update_seen_devices (self : Scanner)
    (devices : list (BLEDevice * AdvertisementData)) (t now : Z) : Scanner :=
  let seen := foldl (update_scanned self t) (seen_devices self) devices in
  {| config := config self;
     name_regexes := name_regexes self;
     seen_devices := age self now <$> seen |}.

Record Machine : Type := mkMachine {
  self : Scanner;
  clock : Z;
  halt : bool;
  awaits : nat;
  effects : list (Effect unit)
}.

Definition emit (ev : Effect unit) : M Machine unit :=
  modify (fun m => mkMachine (self m) (clock m) (halt m) (awaits m) (effects m ++ [ev])).

Definition log_warning (msg : string) : M Machine unit := emit (Log WARNING msg).
Definition log_error (msg : string) : M Machine unit := emit (Log ERROR msg).
Definition log_exception (e : Exception) : M Machine unit := emit (LogException e).
Definition print (msg : string) : M Machine unit := emit (Print msg).

Definition monotonic_ns : M Machine Z := gets clock.
Definition halt_is_set : M Machine bool := gets halt.
Definition halt_set : M Machine unit :=
  modify (fun m => mkMachine (self m) (clock m) true (awaits m) (effects m)).

Inductive Arrival : Type :=
  | Elapse (ns : N)
  | HaltSet.

Inductive Outcome : Type :=
  | Returns (devices : list (BLEDevice * AdvertisementData))
  | Raises (e : Exception).

Record Suspension : Type := mkSuspension {
  arrivals : list Arrival;
  outcome : Outcome
}.

Definition deliver (m : Machine) (a : Arrival) : Machine :=
  match a with
  | Elapse ns => mkMachine (self m) (clock m + Z.of_N ns) (halt m) (awaits m) (effects m)
  | HaltSet => mkMachine (self m) (clock m) true (awaits m) (effects m)
  end.

Variable env : nat -> Suspension.

Definition await (op : Op) : M Machine (list (BLEDevice * AdvertisementData)) :=
  fun m =>
    let s := env (awaits m) in
    let m1 := mkMachine (self m) (clock m) (halt m) (S (awaits m)) (effects m ++ [Await op]) in
    let m2 := foldl deliver m1 (arrivals s) in
    match outcome s with
    | Returns devices => (Ret devices, m2)
    | Raises e => (Raise e, m2)
    end.

(** The statements of the inner [try] of [run]: one scan, the update of the
    table, the cooldown. *)
Definition scan_cycle : M Machine unit :=
  (* Scan *)
  devices ← await BleakScanner_discover;  (* wait_for(BleakScanner.discover(...), timeout=15) *)
  t ← monotonic_ns;
  (* Update list of seen devices: *)
  modify (fun m => mkMachine (_update_seen_devices (self m) devices t (clock m))
                     (clock m) (halt m) (awaits m) (effects m)) ;;
  (* Cooldown *)
  cooldown ← gets (fun m => scan_cooldown (config (self m)));
  await (asyncio_sleep cooldown) ;;
  mret tt.

(** The [while not halt.is_set()] loop of [run]. *)
Fixpoint run_loop (fuel : nat) : M Machine unit :=
  match fuel with
  | O => unfinished
  | S fuel' =>
      halted ← halt_is_set;
      if halted : bool then mret tt
      else
        try_except scan_cycle
          (fun e =>
             match e with
             | TimeoutError => log_warning "Scanner time out..."
             | _ => raise e
             end) ;;
        run_loop fuel'
  end.

Definition run (fuel : nat) : M Machine unit :=
  try_finally
    (try_except (run_loop fuel)
       (fun e =>
          log_error ("Scanner encountered an exception: " +:+ str e) ;;
          log_exception e ;;
          halt_set))
    (print "Scanner shut down...").

End Util.

End Scanner.

(** ** blelog/consumers/log2csv.py *)

Module log2csv.
Import Configuration.

(** *** Library functions the module calls *)

(** [s.replace(old, new)] for one-character [old] and [new]. *)
Fixpoint replace (old new : ascii) (s : string) : string :=
  match s with
  | EmptyString => EmptyString
  | String c rest => String (if Ascii.eqb c old then new else c) (replace old new rest)
  end.

Definition startswith (c : ascii) (s : string) : bool :=
  match s with
  | String c' _ => Ascii.eqb c' c
  | EmptyString => false
  end.

Fixpoint endswith (c : ascii) (s : string) : bool :=
  match s with
  | EmptyString => false
  | String c' EmptyString => Ascii.eqb c' c
  | String _ rest => endswith c rest
  end.

(** [os.path.join(a, b)] of posixpath. *)
Definition os_path_join (a b : string) : string :=
  if startswith "/"%char b then b
  else if bool_decide (a = EmptyString) || endswith "/"%char a then a +:+ b
  else a +:+ "/" +:+ b.

Definition quotechar : ascii := Ascii.ascii_of_nat 34.
Definition CR : ascii := Ascii.ascii_of_nat 13.
Definition LF : ascii := Ascii.ascii_of_nat 10.
Definition lineterminator : string := String CR (String LF EmptyString).

(** [csv.writer] with the default dialect: a field is quoted when it holds
    the delimiter, the quote character or a character of the line
    terminator; quote characters inside it are doubled. *)
Fixpoint special (s : string) : bool :=
  match s with
  | EmptyString => false
  | String c rest =>
      Ascii.eqb c ","%char || Ascii.eqb c quotechar || Ascii.eqb c CR || Ascii.eqb c LF
      || special rest
  end.

Fixpoint doubled (s : string) : string :=
  match s with
  | EmptyString => EmptyString
  | String c rest =>
      if Ascii.eqb c quotechar then String c (String c (doubled rest))
      else String c (doubled rest)
  end.

Definition csv_field (s : string) : string :=
  if special s then String quotechar (doubled s +:+ String quotechar EmptyString) else s.

(** What [csv_writer.writerow(row)] appends to its [StringIO]. *)
Definition writerow (row : list string) : string :=
  match row with
  | [EmptyString] => String quotechar (String quotechar lineterminator)
  | _ => String.concat "," (map csv_field row) +:+ lineterminator
  end.

(** The files of the host: path to content. *)
Abbreviation FileSystem := (gmap string string).

(** What a successful [open(path, mode)] leaves on disk. *)
Definition opened (path mode : string) (fs : FileSystem) : FileSystem :=
  if bool_decide (mode = "w") then <[path := EmptyString]> fs
  else match fs !! path with
       | Some _ => fs
       | None => <[path := EmptyString]> fs
       end.

(** What a successful [f.write(text)] leaves on disk. *)
Definition written (path text : string) (fs : FileSystem) : FileSystem :=
  <[path := default EmptyString (fs !! path) +:+ text]> fs.

(** *** class CSVLogger *)

Module CSVLogger.

Record CSVLogger : Type := mkCSVLogger {
  file_path : string;
  input_q : Queue.Queue NotifData;
  column_headers : list string;
  active : bool
}.

Definition __init__ (file_path : string) (column_headers : list string) : CSVLogger :=
  {| file_path := file_path;
     input_q := Queue.mkQueue 0 [];
     column_headers := column_headers;
     active := true |}.

Record Machine : Type := mkMachine {
  self : CSVLogger;
  f : option string;   (* the local variable f of run: the path of the open file *)
  fs : FileSystem;
  halt : bool;
  awaits : nat;
  effects : list (Effect unit)
}.

Definition with_input_q (q : Queue.Queue NotifData) (m : Machine) : Machine :=
  mkMachine (mkCSVLogger (file_path (self m)) q (column_headers (self m)) (active (self m)))
    (f m) (fs m) (halt m) (awaits m) (effects m).

Definition with_active (b : bool) (m : Machine) : Machine :=
  mkMachine (mkCSVLogger (file_path (self m)) (input_q (self m)) (column_headers (self m)) b)
    (f m) (fs m) (halt m) (awaits m) (effects m).

Definition with_f (h : option string) (m : Machine) : Machine :=
  mkMachine (self m) h (fs m) (halt m) (awaits m) (effects m).

Definition with_fs (d : FileSystem) (m : Machine) : Machine :=
  mkMachine (self m) (f m) d (halt m) (awaits m) (effects m).

Definition with_halt (h : bool) (m : Machine) : Machine :=
  mkMachine (self m) (f m) (fs m) h (awaits m) (effects m).

Definition emit (ev : Effect unit) : M Machine unit :=
  modify (fun m => mkMachine (self m) (f m) (fs m) (halt m) (awaits m) (effects m ++ [ev])).

Definition log_error (msg : string) : M Machine unit := emit (Log ERROR msg).
Definition log_exception (e : Exception) : M Machine unit := emit (LogException e).

Definition halt_is_set : M Machine bool := gets halt.
Definition halt_set : M Machine unit := modify (with_halt true).

(** [os.path.exists(path)] *)
Definition os_path_exists (path : string) : M Machine bool :=
  gets (fun m => bool_decide (is_Some (fs m !! path))).

Inductive Arrival : Type :=
  | Put (item : NotifData)   (* the consumer puts a record in input_q *)
  | HaltSet.

Inductive Outcome : Type :=
  | Returns
  | Raises (e : Exception).

Record Suspension : Type := mkSuspension {
  arrivals : list Arrival;
  outcome : Outcome
}.

Definition deliver (m : Machine) (a : Arrival) : Machine :=
  match a with
  | Put item =>
      with_input_q (Queue.mkQueue (Queue.maxsize (input_q (self m)))
                      (Queue.items (input_q (self m)) ++ [item])) m
  | HaltSet => with_halt true m
  end.

Section Coroutine.

Variable env : nat -> Suspension.

Definition await (op : Op) : M Machine unit :=
  fun m =>
    let s := env (awaits m) in
    let m1 := mkMachine (self m) (f m) (fs m) (halt m) (S (awaits m)) (effects m ++ [Await op]) in
    let m2 := foldl deliver m1 (arrivals s) in
    match outcome s with
    | Returns => (Ret tt, m2)
    | Raises e => (Raise e, m2)
    end.

(** [f = await aiofiles.open(path, mode, newline='')] *)
Definition aiofiles_open_ (path mode : string) : M Machine unit :=
  await (aiofiles_open path mode) ;;
  modify (fun m => with_f (Some path) (with_fs (opened path mode (fs m)) m)).

(** [await f.write(text)] *)
Definition f_write_ (text : string) : M Machine unit :=
  h ← gets f;
  match h with
  | Some path =>
      await (f_write path text) ;;
      modify (fun m => with_fs (written path text (fs m)) m)
  | None => raise (OtherException "'NoneType' object has no attribute 'write'")
  end.

(** [await f.flush()] *)
Definition f_flush_ : M Machine unit :=
  h ← gets f;
  match h with
  | Some path => await (f_flush path)
  | None => raise (OtherException "'NoneType' object has no attribute 'flush'")
  end.

Definition write_row (row : list string) : M Machine unit :=
  f_write_ (writerow row).

Definition write_rows (rows : list Row) : M Machine unit :=
  f_write_ (String.concat EmptyString (map writerow rows)).

(** [await asyncio.wait_for(self.input_q.get(), timeout=0.5)] *)
Definition input_q_get_ : M Machine NotifData :=
  await input_q_get ;;
  q ← gets (fun m => input_q (self m));
  match Queue.get_nowait q with
  | Some (item, q') => modify (with_input_q q') ;; mret item
  | None => raise TimeoutError
  end.

(** The [while not (halt.is_set() and self.input_q.empty())] loop of [run]. *)
Fixpoint run_loop (fuel : nat) : M Machine unit :=
  match fuel with
  | O => unfinished
  | S fuel' =>
      halted ← halt_is_set;
      q ← gets (fun m => input_q (self m));
      if halted && Queue.empty q then mret tt
      else
        try_except
          (next_data ← input_q_get_;
           write_rows (data next_data) ;;
           f_flush_)
           (* self.input_q.task_done() only counts the finished items *)
          (fun e =>
             match e with
             | TimeoutError => pass
             | _ => raise e
             end) ;;
        run_loop fuel'
  end.

(** The statements of [run] that open the file. *)
Definition open_file : M Machine unit :=
  path ← gets (fun m => file_path (self m));
  exists_ ← os_path_exists path;
  if exists_ : bool then
    aiofiles_open_ path "a"
  else
    aiofiles_open_ path "w" ;;
    headers ← gets (fun m => column_headers (self m));
    write_row headers.

Definition run (fuel : nat) : M Machine unit :=
  modify (with_f None) ;;
  path ← gets (fun m => file_path (self m));
  try_finally
    (try_except
       (open_file ;;
        run_loop fuel)
       (fun e =>
          match e with
          | FileNotFoundError _ =>
              log_error ("CSVLogger " +:+ path +:+ " encountered an exception: " +:+ str e) ;;
              log_exception e
          | _ =>
              log_error ("CSVLogger " +:+ path +:+ " encountered an exception: " +:+ str e) ;;
              log_exception e ;;
              halt_set
          end))
    (modify (with_active false) ;;
     h ← gets f;
     match h with
     | Some path => await (f_close path)
     | None => mret tt
     end).

End Coroutine.

End CSVLogger.

(** *** class Consumer_log2csv *)

Module Consumer_log2csv.

Record Consumer_log2csv : Type := mkConsumer {
  config : Configuration;
  file_outputs : gmap string CSVLogger.CSVLogger;
  tasks : list string;              (* the writer tasks, named by their file path *)
  input_q : Queue.Queue NotifData   (* created by the base class Consumer *)
}.

Definition __init__ (config : Configuration) (input_q : Queue.Queue NotifData) : Consumer_log2csv :=
  {| config := config; file_outputs := ∅; tasks := []; input_q := input_q |}.

Definition file_path (self : Consumer_log2csv) (device_adr : string) (char : Characteristic) : string :=
  let name :=
    match device_aliases (config self) !! device_adr with
    | Some alias => alias
    | None => replace ":"%char "_"%char device_adr
    end in
  let n := name +:+ "_" +:+ Configuration.name char +:+ ".csv" in
  let n := replace " "%char "_"%char n in
  os_path_join (log2csv_folder_name (config self)) n.

Record Machine : Type := mkMachine {
  self : Consumer_log2csv;
  halt : bool;
  awaits : nat;
  effects : list (Effect unit)
}.

Definition with_self (c : Consumer_log2csv) (m : Machine) : Machine :=
  mkMachine c (halt m) (awaits m) (effects m).

Definition with_file_outputs (d : gmap string CSVLogger.CSVLogger) (c : Consumer_log2csv)
    : Consumer_log2csv :=
  mkConsumer (config c) d (tasks c) (input_q c).

Definition with_tasks (l : list string) (c : Consumer_log2csv) : Consumer_log2csv :=
  mkConsumer (config c) (file_outputs c) l (input_q c).

Definition with_input_q (q : Queue.Queue NotifData) (c : Consumer_log2csv) : Consumer_log2csv :=
  mkConsumer (config c) (file_outputs c) (tasks c) q.

Definition with_logger_q (q : Queue.Queue NotifData) (l : CSVLogger.CSVLogger) : CSVLogger.CSVLogger :=
  CSVLogger.mkCSVLogger (CSVLogger.file_path l) q (CSVLogger.column_headers l) (CSVLogger.active l).

Definition with_logger_active (b : bool) (l : CSVLogger.CSVLogger) : CSVLogger.CSVLogger :=
  CSVLogger.mkCSVLogger (CSVLogger.file_path l) (CSVLogger.input_q l) (CSVLogger.column_headers l) b.

Definition emit (ev : Effect unit) : M Machine unit :=
  modify (fun m => mkMachine (self m) (halt m) (awaits m) (effects m ++ [ev])).

Definition log_error (msg : string) : M Machine unit := emit (Log ERROR msg).
Definition log_exception (e : Exception) : M Machine unit := emit (LogException e).
Definition print (msg : string) : M Machine unit := emit (Print msg).

Definition halt_is_set : M Machine bool := gets halt.
Definition halt_set : M Machine unit :=
  modify (fun m => mkMachine (self m) true (awaits m) (effects m)).

(** [self.file_outputs[file_path]] *)
Definition file_outputs_getitem (file_path : string) : M Machine CSVLogger.CSVLogger :=
  d ← gets (fun m => file_outputs (self m));
  match d !! file_path with
  | Some l => mret l
  | None => raise (KeyError file_path)
  end.

(** [await logger.input_q.put(item)]: suspends only while the queue is full. *)
Definition logger_put (file_path : string) (item : NotifData) : M Machine unit :=
  l ← file_outputs_getitem file_path;
  match Queue.put_nowait item (CSVLogger.input_q l) with
  | Some q' =>
      modify (fun m => with_self
                (with_file_outputs (<[file_path := with_logger_q q' l]> (file_outputs (self m)))
                   (self m)) m)
  | None => unfinished
  end.

Definition _log_to_file (next_data : NotifData) : M Machine unit :=
  (* determine file path: *)
  file_path ← gets (fun m => file_path (self m) (device_adr next_data) (characteristic next_data));
  outputs ← gets (fun m => file_outputs (self m));
  (if bool_decide (outputs !! file_path = None) then
     (* File not yet opened, open: *)
     let file_output :=
       CSVLogger.__init__ file_path (Configuration.column_headers (characteristic next_data)) in
     modify (fun m => with_self
               (with_file_outputs (<[file_path := file_output]> (file_outputs (self m)))
                  (self m)) m) ;;
     (* asyncio.create_task(self.file_outputs[file_path].run(halt)) *)
     modify (fun m => with_self (with_tasks (tasks (self m) ++ [file_path]) (self m)) m)
   else mret tt) ;;
  l ← file_outputs_getitem file_path;
  if CSVLogger.active l then
    (* Open, write: *)
    logger_put file_path next_data
  else mret tt.

(** What the other tasks do while the consumer is suspended. *)
Inductive Arrival : Type :=
  | Put (item : NotifData)          (* the consumer manager puts a record in input_q *)
  | WriterTook (file_path : string) (* the writer of that file takes an item off its queue *)
  | WriterEnded (file_path : string)(* the writer of that file reaches its finally clause *)
  | HaltSet.

Inductive Outcome : Type :=
  | Returns
  | Raises (e : Exception).

Record Suspension : Type := mkSuspension {
  arrivals : list Arrival;
  outcome : Outcome
}.

Definition deliver (m : Machine) (a : Arrival) : Machine :=
  match a with
  | Put item =>
      with_self (with_input_q (Queue.mkQueue (Queue.maxsize (input_q (self m)))
                                 (Queue.items (input_q (self m)) ++ [item])) (self m)) m
  | WriterTook file_path =>
      with_self
        (with_file_outputs
           (alter (fun l => with_logger_q
                              (Queue.mkQueue (Queue.maxsize (CSVLogger.input_q l))
                                 (tail (Queue.items (CSVLogger.input_q l)))) l)
              file_path (file_outputs (self m)))
           (self m)) m
  | WriterEnded file_path =>
      with_self
        (with_file_outputs (alter (with_logger_active false) file_path (file_outputs (self m)))
           (self m)) m
  | HaltSet => mkMachine (self m) true (awaits m) (effects m)
  end.

Section Coroutine.

Variable env : nat -> Suspension.

Definition await (op : Op) : M Machine unit :=
  fun m =>
    let s := env (awaits m) in
    let m1 := mkMachine (self m) (halt m) (S (awaits m)) (effects m ++ [Await op]) in
    let m2 := foldl deliver m1 (arrivals s) in
    match outcome s with
    | Returns => (Ret tt, m2)
    | Raises e => (Raise e, m2)
    end.

(** [await asyncio.wait_for(self.input_q.get(), timeout=0.5)] *)
Definition input_q_get_ : M Machine NotifData :=
  await input_q_get ;;
  q ← gets (fun m => input_q (self m));
  match Queue.get_nowait q with
  | Some (item, q') => modify (fun m => with_self (with_input_q q' (self m)) m) ;; mret item
  | None => raise TimeoutError
  end.

(** The [while not (halt.is_set() and self.input_q.empty())] loop of [run]. *)
Fixpoint run_loop (fuel : nat) : M Machine unit :=
  match fuel with
  | O => unfinished
  | S fuel' =>
      halted ← halt_is_set;
      q ← gets (fun m => input_q (self m));
      if halted && Queue.empty q then mret tt
      else
        try_except
          (next_data ← input_q_get_;
           _log_to_file next_data)
          (fun e =>
             match e with
             | TimeoutError => pass
             | _ => raise e
             end) ;;
        run_loop fuel'
  end.

Definition run (fuel : nat) : M Machine unit :=
  try_finally
    (try_except (run_loop fuel)
       (fun e =>
          log_error ("Consumer log2csv encountered an exception: " +:+ str e) ;;
          log_exception e ;;
          halt_set))
    (total_output_q ← gets (fun m =>
         map_fold (fun _ c acc => acc + Queue.qsize (CSVLogger.input_q c)) 0
                  (file_outputs (self m)));
     (if bool_decide (total_output_q > 0) then
        print ("Consumer log2csv ready to shut down. Waiting for " +:+ pretty total_output_q
               +:+ " items in output queues...")
      else mret tt) ;;
     await asyncio_gather ;;
     print "Consumer log2csv shut down...").

End Coroutine.

End Consumer_log2csv.

End log2csv.

(** * Observations and predicates

    The vocabulary of the statements below: what is read off the effects of
    a run, the relations the statements of a coroutine preserve, and the
    configurations, machines and environments of the examples. *)

Module AC := ActiveConnection.
Module SC := Scanner.
Module LG := log2csv.CSVLogger.
Module CS := log2csv.Consumer_log2csv.
Import Configuration.

(** ** Reasoning about coroutines *)

(** [c] takes every state to an [R]-related one, whatever its result. *)
Definition preserves {S A} (R : relation S) (c : M S A) : Prop := ∀ s, R s (snd (c s)).

(** [c] never stops at a loop bound. *)
Definition finishes {S A} (c : M S A) : Prop := ∀ s, fst (c s) ≠ Unfinished.

(** ** ActiveConnection *)

(** The states assigned to [self.state], in order. *)
Fixpoint assigned {St} (l : list (Effect St)) : list St :=
  match l with
  | [] => []
  | Assign s :: l' => s :: assigned l'
  | _ :: l' => assigned l'
  end.

(** The calls awaited, in order. *)
Fixpoint awaited {St} (l : list (Effect St)) : list Op :=
  match l with
  | [] => []
  | Await op :: l' => op :: awaited l'
  | _ :: l' => awaited l'
  end.

Definition is_disconnect (op : Op) : bool :=
  match op with con_disconnect => true | _ => false end.

(** How often [con.disconnect()] was called. *)
Definition disconnect_calls (m : AC.Machine) : nat :=
  length (filter (fun op => is_disconnect op = true) (awaited (AC.effects m))).

(** What no statement but the assignments of [run] and [_connect] changes. *)
Record stable (m m' : AC.Machine) : Prop := mkStable {
  st_adr : AC.adr (AC.self m') = AC.adr (AC.self m);
  st_name : AC.name (AC.self m') = AC.name (AC.self m);
  st_config : AC.config (AC.self m') = AC.config (AC.self m);
  st_con : AC.con (AC.self m') = AC.con (AC.self m);
  st_state : AC.state (AC.self m') = AC.state (AC.self m);
  st_ict : AC.initial_connection_time (AC.self m') = AC.initial_connection_time (AC.self m);
  st_assigned : assigned (AC.effects m') = assigned (AC.effects m);
  st_halt : AC.halt m = true → AC.halt m' = true;
  st_did : AC.did_disconnect (AC.self m) = true → AC.did_disconnect (AC.self m') = true;
  st_clock : AC.clock m ≤ AC.clock m';
  st_awaits : (AC.awaits m ≤ AC.awaits m')%nat;
  st_calls : (disconnect_calls m ≤ disconnect_calls m')%nat;
  st_dom : ∀ u, is_Some (AC.last_notif (AC.self m) !! u) → is_Some (AC.last_notif (AC.self m') !! u);
  st_effects : AC.effects m `prefix_of` AC.effects m'
}.

(** **** Callbacks await nothing *)

Definition quiet (m m' : AC.Machine) : Prop :=
  awaited (AC.effects m') = awaited (AC.effects m) ∧ AC.awaits m' = AC.awaits m.

(** After a forced disconnect: one more call of [con.disconnect()], and the
    flag is set. *)
Definition torn (m m' : AC.Machine) : Prop :=
  AC.did_disconnect (AC.self m') = true
  ∧ awaited (AC.effects m') = awaited (AC.effects m) ++ [con_disconnect]
  ∧ stable m m'.

(** The warning of the branch "normal timeout expired". *)
Definition timeout_warning (m : AC.Machine) (char : Characteristic) : Effect AC.ConnectionState :=
  Log WARNING (AC.name (AC.self m) +:+ ": Timeout for characteristic " +:+ name char
               +:+ " expired, disconnecting..").

(** The warning of the branch "initial timeout expired". *)
Definition never_received_warning (m : AC.Machine) (char : Characteristic) : Effect AC.ConnectionState :=
  Log WARNING (AC.name (AC.self m) +:+ ": Never received a notification for "
               +:+ name char +:+ ", disconnecting...").

(** **** The order of the connection states *)

(** State and assignments so far are as before. *)
Definition same_phase (m m' : AC.Machine) : Prop :=
  AC.state (AC.self m') = AC.state (AC.self m)
  ∧ assigned (AC.effects m') = assigned (AC.effects m).

(** What [_connect] leaves: [CONNECTED] as its last statement, or an
    exception and the state it found. *)
Definition connected_or_raised (r : Result unit) (m m' : AC.Machine) : Prop :=
  match r with
  | Ret _ =>
      AC.state (AC.self m') = AC.CONNECTED
      ∧ assigned (AC.effects m') = assigned (AC.effects m) ++ [AC.CONNECTED]
  | Raise _ => same_phase m m'
  | Unfinished => False
  end.

(** What the statements of the inner [try] leave: nothing assigned and an
    exception, or [CONNECTED] assigned once. *)
Definition connect_phase (r : Result unit) (m m' : AC.Machine) : Prop :=
  ((∃ e, r = Raise e) ∧ same_phase m m')
  ∨ (AC.state (AC.self m') = AC.CONNECTED
     ∧ assigned (AC.effects m') = assigned (AC.effects m) ++ [AC.CONNECTED]).

(** **** The polling loop ends once the halt Event is set *)

(** Past suspension [k] the halt Event is set. *)
Definition halted_past (k : nat) (m : AC.Machine) : Prop :=
  (k < AC.awaits m)%nat → AC.halt m = true.

(** The suspensions go on, and the halt Event stays set past suspension [k]. *)
Definition keeps_halt (k : nat) (m m' : AC.Machine) : Prop :=
  (AC.awaits m ≤ AC.awaits m')%nat ∧ (halted_past k m → halted_past k m').

(** The machine in which [run] enters its inner [try]: [self.con] is set. *)
Definition with_client (m : AC.Machine) : AC.Machine :=
  AC.with_self
    (AC.with_con (Some (AC.mkBleakClient (AC.adr (AC.self m))
                          (connection_timeout_scan (AC.config (AC.self m)))))) m.

(** The states a connection has had: the one it was created with, then
    every state assigned to [self.state]. *)
Definition state_history (m0 m' : AC.Machine) : list AC.ConnectionState :=
  AC.state (AC.self m0) :: assigned (AC.effects m').

(** **** Sleeps of the polling loop *)

Definition is_sleep (op : Op) : bool :=
  match op with asyncio_sleep _ => true | _ => false end.

(** How often the coroutine has slept. *)
Definition sleeps (m : AC.Machine) : nat :=
  length (filter (fun op => is_sleep op = true) (awaited (AC.effects m))).

Definition no_sleep (m m' : AC.Machine) : Prop := sleeps m' = sleeps m.

(** **** [run] from its polling loop on *)

(** [run] resumed at its polling loop: the loop, the cleanup of the inner
    [try] and the handlers of the outer one. *)
Definition run_from_loop (env : nat → AC.Suspension) (fuel : nat) : M AC.Machine unit :=
  AC.outer_try (AC.inner_try env (AC.run_loop env fuel)).

Definition same_name (m m' : AC.Machine) : Prop :=
  AC.name (AC.self m') = AC.name (AC.self m).

(** The machine in which [run] enters its polling loop: the connection time
    is recorded. *)
Definition with_connection_time (m : AC.Machine) : AC.Machine :=
  AC.with_self (AC.with_initial_connection_time (Some (AC.clock m))) m.

(** *** Example configuration (after config.py) *)

Definition ppg_red : Characteristic :=
  mkCharacteristic "ppg_red" "182281a8-153a-11ec-82a8-0242ac130001" (Some 1.5%Q)
    ["index"; "ppg red"] (fun _ => Rows [["1"; "2"]]).

Definition temp : Characteristic :=
  mkCharacteristic "temp" "18095c47-81d2-44e5-a350-aef131810001" None
    ["index"; "temp"] (fun _ => Rows [["1"; "23.5"]]).

Definition example_config : Configuration :=
  {| scan_duration := 1.5; scan_cooldown := 0.1; seen_timeout := 20;
     connection_timeout_hard := 30; connection_timeout_scan := 20;
     connect_device_name_regexes := [];
     connect_device_adrs := ["EB:E5:31:BF:2E:B5"];
     device_aliases := {[ "EB:E5:31:BF:2E:B5" := "SP-Case"; "E3:11:20:62:5D:3F" := "SP-Naked" ]};
     characteristics := [ppg_red; temp];
     initial_characteristic_timeout := Some 10%Q;
     log2csv_folder_name := "log" |}.

(** A fresh connection, an empty output queue of capacity 16, the clock at 0. *)
Definition fresh_connection : AC.Machine :=
  AC.mkMachine (AC.__init__ "EB:E5:31:BF:2E:B5" "SP-Case" example_config)
    0 false 0 (Queue.mkQueue 16 []) [].

(** Every awaited call returns [True]; every suspension lasts 50 ms. *)
Definition silent_env (k : nat) : AC.Suspension :=
  AC.mkSuspension [AC.Elapse 50000000] (AC.Returns true).

(** A connection 12 s after its connection time, nothing received. *)
Definition overdue : AC.Machine :=
  AC.mkMachine
    (AC.mkActiveConnection "EB:E5:31:BF:2E:B5" "SP-Case" example_config AC.CONNECTED
       false false (Some (AC.mkBleakClient "EB:E5:31:BF:2E:B5" 20)) (Some 0)
       (AC.last_notif (AC.__init__ "EB:E5:31:BF:2E:B5" "SP-Case" example_config)))
    12000000000 false 3 (Queue.mkQueue 16 []) [].

(** [connect()] and both [start_notify()] return at once; [ppg_red] notifies
    while the subscriptions are set up, at clock 0; sleep number 30, from
    1.50 s to 1.55 s, sees the next notification at 1.54 s; every other
    sleep lasts 50 ms and sees nothing. *)
Definition late_env (k : nat) : AC.Suspension :=
  match k with
  | 0%nat => AC.mkSuspension [] (AC.Returns true)
  | 1%nat => AC.mkSuspension [AC.Notify ppg_red []] (AC.Returns true)
  | 2%nat => AC.mkSuspension [] (AC.Returns true)
  | _ =>
      if bool_decide (k = 33%nat) then
        AC.mkSuspension [AC.Elapse 40000000; AC.Notify ppg_red []; AC.Elapse 10000000]
          (AC.Returns true)
      else AC.mkSuspension [AC.Elapse 50000000] (AC.Returns true)
  end.

(** A connection whose last [ppg_red] notification is 2 s old. *)
Definition expired : AC.Machine :=
  AC.mkMachine
    (AC.mkActiveConnection "EB:E5:31:BF:2E:B5" "SP-Case" example_config AC.CONNECTED
       false false (Some (AC.mkBleakClient "EB:E5:31:BF:2E:B5" 20)) (Some 0)
       (<[uuid ppg_red := Some 0]>
          (AC.last_notif (AC.__init__ "EB:E5:31:BF:2E:B5" "SP-Case" example_config))))
    2000000000 false 3 (Queue.mkQueue 16 []) [].

(** [ppg_red] notifies once, at clock 0, while the subscriptions are set up;
    then nothing arrives; every sleep lasts 50 ms. *)
Definition one_notification_env (k : nat) : AC.Suspension :=
  match k with
  | 0%nat => AC.mkSuspension [] (AC.Returns true)
  | 1%nat => AC.mkSuspension [AC.Notify ppg_red []] (AC.Returns true)
  | 2%nat => AC.mkSuspension [] (AC.Returns true)
  | _ => AC.mkSuspension [AC.Elapse 50000000] (AC.Returns true)
  end.

(** A decoder that raises on every payload. *)
Definition broken : Characteristic :=
  mkCharacteristic "ppg_ir" "182281a8-153a-11ec-82a8-0242ac130002" (Some 1.5%Q)
    ["index"; "ppg ir"] (fun _ => DecoderRaises (OtherException "unpack requires a buffer")).

(** ** Scanner *)

(** One scan: the devices found, the time [t] read after it and the time
    read while the table is aged. *)
Definition Batch : Type := list (SC.BLEDevice * SC.AdvertisementData) * Z * Z.

(** The table after [__init__] and one [_update_seen_devices] per scan. *)
Definition updates (normalise_adr : string → string) (re_match : string → string → bool)
    (self : SC.Scanner) (batches : list Batch) : SC.Scanner :=
  foldl (fun s '(devices, t, now) => SC._update_seen_devices normalise_adr re_match s devices t now)
        self batches.

(** Where a key of the table comes from: the allow-list, taken as it is, or
    a scanned address, normalised. *)
Definition key_origin (normalise_adr : string → string) (config : Configuration)
    (batches : list Batch) (k : string) : Prop :=
  k ∈ connect_device_adrs config
  ∨ ∃ devices t now d, (devices, t, now) ∈ batches ∧ d ∈ devices
                       ∧ k = normalise_adr (SC.address (fst d)).

(** An address normaliser for the examples: upper case. *)
Definition upper_char (c : ascii) : ascii :=
  let n := nat_of_ascii c in
  if bool_decide (97 ≤ n ≤ 122)%nat then ascii_of_nat (n - 32) else c.

Fixpoint upper (s : string) : string :=
  match s with
  | EmptyString => EmptyString
  | String c rest => String (upper_char c) (upper rest)
  end.

(** Every record is filed under its own [adr]. *)
Definition keyed (seen : gmap string SC.SeenDevice) : Prop :=
  ∀ k dev, seen !! k = Some dev → SC.adr dev = k.

(** The allow-list of config.py, written in lower case. *)
Definition lower_case_config : Configuration :=
  {| scan_duration := 1.5; scan_cooldown := 0.1; seen_timeout := 20;
     connection_timeout_hard := 30; connection_timeout_scan := 20;
     connect_device_name_regexes := [];
     connect_device_adrs := ["eb:e5:31:bf:2e:b5"];
     device_aliases := {[ "eb:e5:31:bf:2e:b5" := "SP-Case" ]};
     characteristics := [ppg_red; temp];
     initial_characteristic_timeout := Some 10%Q;
     log2csv_folder_name := "log" |}.

(** One scan that finds the device of the allow-list, at 1 s. *)
Definition one_scan : list Batch :=
  [([(SC.mkBLEDevice "EB:E5:31:BF:2E:B5" (Some "SmartPatch"), SC.mkAdvertisementData (-60))],
    1000000000, 1000000000)].

(** ** log2csv *)

(** *** CSVLogger *)

Definition is_close (op : Op) : bool :=
  match op with f_close _ => true | _ => false end.

(** How often a file handle was closed. *)
Definition closes (m : LG.Machine) : nat :=
  length (filter (fun op => is_close op = true) (awaited (LG.effects m))).

(** What the awaited calls and the callbacks of a writer leave alone. *)
Record writer_stable (m m' : LG.Machine) : Prop := mkWriterStable {
  ws_path : LG.file_path (LG.self m') = LG.file_path (LG.self m);
  ws_headers : LG.column_headers (LG.self m') = LG.column_headers (LG.self m);
  ws_halt : LG.halt m = true → LG.halt m' = true;
  ws_effects : LG.effects m `prefix_of` LG.effects m'
}.

Definition no_close (m m' : LG.Machine) : Prop :=
  closes m' = closes m ∧ LG.active (LG.self m') = LG.active (LG.self m).

(** The statements guarded by the [try] of [CSVLogger.run]. *)
Definition writer_body (env : nat → LG.Suspension) (fuel : nat) : M LG.Machine unit :=
  LG.open_file env ;; LG.run_loop env fuel.

(** The machine in which [CSVLogger.run] enters its [try]: [f = None]. *)
Definition writer_start (m : LG.Machine) : LG.Machine := LG.with_f None m.

Definition is_FileNotFoundError (e : Exception) : bool :=
  match e with FileNotFoundError _ => true | _ => false end.

(** The error record of [CSVLogger.run]. *)
Definition writer_error (m : LG.Machine) (e : Exception) : Effect unit :=
  Log ERROR ("CSVLogger " +:+ LG.file_path (LG.self m) +:+ " encountered an exception: " +:+ str e).

(** The machine the handlers of [CSVLogger.run] leave. *)
Definition writer_handled (m : LG.Machine) (e : Exception) (m1 : LG.Machine) : LG.Machine :=
  LG.mkMachine (LG.self m1) (LG.f m1) (LG.fs m1)
    (if is_FileNotFoundError e then LG.halt m1 else true) (LG.awaits m1)
    (LG.effects m1 ++ [writer_error m e; LogException e]).

(** The [finally] clause of [CSVLogger.run]. *)
Definition writer_finally (env : nat → LG.Suspension) : M LG.Machine unit :=
  modify (LG.with_active false) ;;
  h ← gets LG.f;
  match h with
  | Some path => LG.await env (f_close path)
  | None => mret tt
  end.

(** The [except] clauses of [CSVLogger.run]. *)
Definition writer_handler (path : string) (e : Exception) : M LG.Machine unit :=
  match e with
  | FileNotFoundError _ =>
      LG.log_error ("CSVLogger " +:+ path +:+ " encountered an exception: " +:+ str e) ;;
      LG.log_exception e
  | _ =>
      LG.log_error ("CSVLogger " +:+ path +:+ " encountered an exception: " +:+ str e) ;;
      LG.log_exception e ;;
      LG.halt_set
  end.

(** What is in the file [path] stays at its start. *)
Definition keeps_prefix (path : string) (m m' : LG.Machine) : Prop :=
  ∀ pre c, LG.fs m !! path = Some (pre +:+ c) → ∃ c', LG.fs m' !! path = Some (pre +:+ c').

(** *** Consumer_log2csv *)

(** The writer filed under [file_path] has ended: it is in the table and
    not active. *)
Definition ended_writer (file_path : string) (m : CS.Machine) (l : LG.CSVLogger) : Prop :=
  CS.file_outputs (CS.self m) !! file_path = Some l ∧ LG.active l = false.

(** An ended writer stays in the table, stays inactive, and its queue does
    not grow. *)
Definition stays_ended (file_path : string) (m m' : CS.Machine) : Prop :=
  ∀ l, ended_writer file_path m l →
       ∃ l', ended_writer file_path m' l'
             ∧ (length (Queue.items (LG.input_q l')) ≤ length (Queue.items (LG.input_q l)))%nat.

(** **** Exceptions in the consumer loop *)

Record consumer_stable (m m' : CS.Machine) : Prop := mkConsumerStable {
  cs_halt : CS.halt m = true → CS.halt m' = true;
  cs_effects : CS.effects m `prefix_of` CS.effects m'
}.

(** The error record of [Consumer_log2csv.run]. *)
Definition consumer_error (e : Exception) : Effect unit :=
  Log ERROR ("Consumer log2csv encountered an exception: " +:+ str e).

(** The [finally] clause of [Consumer_log2csv.run]. *)
Definition consumer_finally (env : nat → CS.Suspension) : M CS.Machine unit :=
  total_output_q ← gets (fun m =>
      map_fold (fun _ c acc => acc + Queue.qsize (LG.input_q c)) 0 (CS.file_outputs (CS.self m)));
  (if bool_decide (total_output_q > 0) then
     CS.print ("Consumer log2csv ready to shut down. Waiting for " +:+ pretty total_output_q
               +:+ " items in output queues...")
   else mret tt) ;;
  CS.await env asyncio_gather ;;
  CS.print "Consumer log2csv shut down...".

(** The statements of the inner [try] of [Consumer_log2csv.run]. *)
Definition consumer_cycle (env : nat → CS.Suspension) : M CS.Machine unit :=
  next_data ← CS.input_q_get_ env;
  CS._log_to_file next_data.

(** The statements of the inner [try] of [CSVLogger.run]. *)
Definition writer_cycle (env : nat → LG.Suspension) : M LG.Machine unit :=
  next_data ← LG.input_q_get_ env;
  LG.write_rows env (data next_data) ;;
  LG.f_flush_ env.

(** [c in s] *)
Fixpoint contains (c : ascii) (s : string) : bool :=
  match s with
  | EmptyString => false
  | String c' rest => Ascii.eqb c' c || contains c rest
  end.

(** The characters of [s], every [sep] among them turned into an
    underscore. *)
Definition underscored (sep : ascii) (s : string) : list ascii :=
  map (fun c => if Ascii.eqb c sep then "_"%char else c) (String.list_ascii_of_string s).

(** ** Exceptions in the shared loops *)

(** A writer for a file in a folder that does not exist. *)
Definition lost_writer : LG.Machine :=
  LG.mkMachine (LG.__init__ "log/SP-Case_ppg_red.csv" ["index"; "ppg red"]) None ∅ false 0 [].

(** Opening the file raises [FileNotFoundError]. *)
Definition no_folder_env (k : nat) : LG.Suspension :=
  LG.mkSuspension [] (LG.Raises (FileNotFoundError "No such file or directory")).

(** The scan raises [BleakError]. *)
Definition broken_scan_env (k : nat) : SC.Suspension :=
  SC.mkSuspension [] (SC.Raises (BleakError "adapter not found")).

Definition scanner_start : SC.Machine :=
  SC.mkMachine (SC.__init__ example_config) 0 false 0 [].

(** Opening the file raises [asyncio.TimeoutError]. *)
Definition stalled_open_env (k : nat) : LG.Suspension :=
  LG.mkSuspension [] (LG.Raises TimeoutError).

(** A consumer of the example configuration. *)
Definition example_consumer : CS.Consumer_log2csv :=
  CS.__init__ example_config (Queue.mkQueue 0 []).

(** The characteristic [ppg red]: its name differs from the name of
    [ppg_red] by a space for the underscore, its columns are its own. *)
Definition ppg_red_spaced : Characteristic :=
  mkCharacteristic "ppg red" "182281a8-153a-11ec-82a8-0242ac130003" (Some 1.5%Q)
    ["sample"; "red"] (fun _ => Rows [["7"; "8"]]).

(** A record of [ppg_red] and a record of [ppg red], both of SP-Case. *)
Definition first_record : NotifData :=
  mkNotifData "EB:E5:31:BF:2E:B5" "SP-Case" ppg_red [["1"; "2"]] [].

Definition second_record : NotifData :=
  mkNotifData "EB:E5:31:BF:2E:B5" "SP-Case" ppg_red_spaced [["7"; "8"]] [].

(** The consumer of the example configuration after these two records. *)
Definition after_two_records : CS.Machine :=
  snd (CS._log_to_file second_record
         (snd (CS._log_to_file first_record (CS.mkMachine example_consumer false 0 [])))).

(** The writer the two records have been queued to, as the halt Event is
    set, on an empty disk. *)
Definition shared_writer : LG.Machine :=
  LG.mkMachine
    (LG.mkCSVLogger "log/SP-Case_ppg_red.csv" (Queue.mkQueue 0 [first_record; second_record])
       ["index"; "ppg red"] true)
    None ∅ true 0 [].

(** Every awaited call returns and nothing arrives. *)
Definition returning_env (k : nat) : LG.Suspension := LG.mkSuspension [] LG.Returns.

(** The writer of [ppg_red] of the device SP-Case, on an empty disk. *)
Definition ppg_writer : LG.Machine :=
  LG.mkMachine (LG.__init__ "log/SP-Case_ppg_red.csv" ["index"; "ppg red"]) None ∅ false 0 [].

(** The writer of [ppg red] of a device without an alias, on an empty
    disk. *)
Definition unaliased_writer : LG.Machine :=
  LG.mkMachine (LG.__init__ "log/AA_BB_CC_DD_EE_FF_ppg_red.csv" ["sample"; "red"])
    None ∅ false 0 [].

(** Every awaited call returns; one record arrives while the file is opened. *)
Definition one_record_env (k : nat) : LG.Suspension :=
  match k with
  | 0%nat => LG.mkSuspension
               [LG.Put (mkNotifData "EB:E5:31:BF:2E:B5" "SP-Case" ppg_red [["1"; "2"]] []);
                LG.HaltSet] LG.Returns
  | _ => LG.mkSuspension [] LG.Returns
  end.

(** A consumer whose writer for [ppg_red] of SP-Case has ended. *)
Definition consumer_after_failure : CS.Machine :=
  CS.mkMachine
    (CS.mkConsumer example_config
       {[ "log/SP-Case_ppg_red.csv" :=
            LG.mkCSVLogger "log/SP-Case_ppg_red.csv" (Queue.mkQueue 0 [])
              ["index"; "ppg red"] false ]}
       ["log/SP-Case_ppg_red.csv"] (Queue.mkQueue 0 []))
    false 0 [].

(** ** Further properties of the three modules: construction, error paths,
    the ends of the loops, and invariants of the tables and queues *)

(** *** ActiveConnection: construction, callbacks and teardown *)

(** The exception classes the [except] clauses of [_connect] and
    [_do_disconnect] name. *)
Definition transport_error (e : Exception) : bool :=
  match e with
  | BleakDBusError _ | BleakError _ | TimeoutError | OSError _ | FileNotFoundError _ => true
  | _ => false
  end.

(** The subscriptions of [_connect], in the order of the configuration. *)
Definition subscriptions (config : Configuration) : list Op :=
  map (fun char => con_start_notify (uuid char)) (characteristics config).

(** The message [run] prints when it ends with the halt Event set. *)
Definition shut_down_message (m : AC.Machine) : Effect AC.ConnectionState :=
  Print ("Connection " +:+ AC.name (AC.self m) +:+ " shut down...").

(** The health check compares the time of [char] with one configured
    duration, not with the sum of two: [char] has no timeout, it has
    notified, or no initial timeout is configured. *)
Definition single_timeout (m : AC.Machine) (char : Characteristic) : bool :=
  match timeout char, AC.last_notif (AC.self m) !! uuid char,
        initial_characteristic_timeout (AC.config (AC.self m)) with
  | Some _, Some None, Some _ => false
  | _, _, _ => true
  end.

(** The health check has nothing to report for a [char] of a single
    timeout: no timeout is configured, no notification has arrived yet, or
    the time since the last notification does not exceed the timeout. *)
Definition on_time (m : AC.Machine) (char : Characteristic) : bool :=
  match timeout char with
  | None => true
  | Some T =>
      match AC.last_notif (AC.self m) !! uuid char with
      | Some (Some t) => Qle_bool (seconds_since (AC.clock m) t) T
      | Some None => true
      | None => false
      end
  end.

(** The connection [expired], read 1.5 s after its last notification. *)
Definition at_the_timeout : AC.Machine := AC.with_clock 1500000000 expired.

(** A characteristic whose decoder looks up a key that is missing. *)
Definition misindexing : Characteristic :=
  mkCharacteristic "ppg_ir" "182281a8-153a-11ec-82a8-0242ac130002" (Some 1.5%Q)
    ["index"; "ppg ir"] (fun _ => DecoderRaises (KeyError "ppg")).

(** [connect()] raises [BleakError]. *)
Definition refusing_env (k : nat) : AC.Suspension :=
  AC.mkSuspension [] (AC.Raises (BleakError "device not found")).

(** [connect()] returns; the first [start_notify()] raises [BleakError]. *)
Definition unsubscribable_env (k : nat) : AC.Suspension :=
  match k with
  | 0%nat => AC.mkSuspension [] (AC.Returns true)
  | _ => AC.mkSuspension [] (AC.Raises (BleakError "characteristic not found"))
  end.

(** A connection whose disconnected callback ran before [run]. *)
Definition dropped_early : AC.Machine :=
  AC.with_self (AC.with_did_disconnect true) fresh_connection.

(** *** ActiveConnection: connecting *)

(** [_connect] after [connect()] has returned [True]. *)
Definition subscribe_all (env : nat → AC.Suspension) (name : string) : M AC.Machine unit :=
  AC.log_info ("Established connection to " +:+ name +:+ "!") ;;
  config ← AC.field AC.config;
  for_each (characteristics config)
    (fun char => AC.await env (con_start_notify (uuid char)) ;; mret tt) ;;
  AC.log_info ("Enabled notifications for all characteristic for " +:+ name +:+ "!") ;;
  AC.set_state AC.CONNECTED.

(** The body of the [for] loop of [_connect]. *)
Definition subscribe (env : nat → AC.Suspension) (char : Characteristic) : M AC.Machine unit :=
  AC.await env (con_start_notify (uuid char)) ;; mret tt.

(** *** ActiveConnection: how a run ends *)

(** The client, the name and the calls of [disconnect()] so far are kept. *)
Definition same_client (m m' : AC.Machine) : Prop :=
  AC.con (AC.self m') = AC.con (AC.self m)
  ∧ AC.name (AC.self m') = AC.name (AC.self m)
  ∧ (disconnect_calls m ≤ disconnect_calls m')%nat.

(** *** ActiveConnection: the recorded times *)

(** No recorded notification time is ahead of the clock. *)
Definition timely (m : AC.Machine) : Prop :=
  ∀ u t, AC.last_notif (AC.self m) !! u = Some (Some t) → t ≤ AC.clock m.

(** The clock does not go back; recorded notification times stay behind the
    clock, are never cleared and never move back. *)
Definition advances (m m' : AC.Machine) : Prop :=
  AC.clock m ≤ AC.clock m'
  ∧ (timely m →
     timely m'
     ∧ ∀ u t, AC.last_notif (AC.self m) !! u = Some (Some t) →
              ∃ t', AC.last_notif (AC.self m') !! u = Some (Some t') ∧ t ≤ t').

(** The first statement of [_notif_callback]: the time of the notification
    is recorded. *)
Definition stamped (char : Characteristic) (m : AC.Machine) : AC.Machine :=
  AC.with_self (fun a => AC.with_last_notif
                           (<[uuid char := Some (AC.clock m)]> (AC.last_notif a)) a) m.

(** [_notif_callback] from its [try] statement on. *)
Definition decode_and_package (data : list Byte.byte) (char : Characteristic) : M AC.Machine unit :=
  try_except
    (decoded_data ← match data_decoder char data with
                    | Rows rows => mret rows
                    | DecoderRaises e => raise e
                    end;
     if bool_decide (length decoded_data = 0%nat) then mret tt
     else
       adr ← AC.field AC.adr;
       name ← AC.field AC.name;
       let result := mkNotifData adr name char decoded_data data in
       try_except
         (AC.output_put_nowait result)
         (fun e => match e with
                   | QueueFull => AC.log_error (name +:+ " failed to put data into queue!")
                   | _ => raise e
                   end))
    (fun e =>
       AC.log_error ("Decoder for " +:+ name char +:+ " raised an exception: " +:+ str e) ;;
       AC.log_exception e).

(** *** ActiveConnection: the time a connection has been active *)

(** Hours, minutes and seconds as [active_time_str] prints them. *)
Definition hms (h min s : Z) : string :=
  format_02i (inject_Z h) +:+ ":" +:+ format_02i (inject_Z min) +:+ ":" +:+ format_02i (inject_Z s).

(** A connection made at clock 0, read one hour, two minutes and 5.9
    seconds later. *)
Definition after_an_hour : AC.Machine :=
  AC.with_clock 3725900000000 expired.

(** *** Scanner: the table of seen devices *)

(** The record [__init__] files for an address of the allow-list. *)
Definition not_yet_seen (config : Configuration) (adr : string) : SC.SeenDevice :=
  {| SC.adr := adr; SC.alias := device_aliases config !! adr; SC.state := SC.NOT_SEEN;
     SC.name := None; SC.last_seen := None; SC.rssi := None |}.

(** The record [_update_seen_devices] files for an unknown device whose name
    matches. *)
Definition newly_seen (config : Configuration) (adr name : string) (t rssi : Z) : SC.SeenDevice :=
  {| SC.adr := adr; SC.alias := device_aliases config !! adr; SC.state := SC.RECENTLY_SEEN;
     SC.name := Some name; SC.last_seen := Some t; SC.rssi := Some rssi |}.

(** Every record that is RECENTLY_SEEN has a time at which it was seen. *)
Definition seen_has_time (seen : gmap string SC.SeenDevice) : Prop :=
  ∀ k dev, seen !! k = Some dev → SC.state dev = SC.RECENTLY_SEEN → is_Some (SC.last_seen dev).

(** A scanner that accepts devices whose name starts with a given text. *)
Definition prefix_match (r n : string) : bool := String.prefix r n.

Definition by_name_config : Configuration :=
  {| scan_duration := 1.5; scan_cooldown := 0.1; seen_timeout := 20;
     connection_timeout_hard := 30; connection_timeout_scan := 20;
     connect_device_name_regexes := ["SmartPatch"];
     connect_device_adrs := [];
     device_aliases := ∅;
     characteristics := [ppg_red; temp];
     initial_characteristic_timeout := Some 10%Q;
     log2csv_folder_name := "log" |}.

(** The scan times out. *)
Definition scan_timeout_env (k : nat) : SC.Suspension :=
  SC.mkSuspension [SC.Elapse 15000000000] (SC.Raises TimeoutError).

(** The halt Event is set during the first scan. *)
Definition halting_scan_env (k : nat) : SC.Suspension :=
  SC.mkSuspension [SC.HaltSet] (SC.Returns []).

(** *** log2csv: how the loops end *)

(** The writer of [ppg_red] with its file open, one record queued and the
    halt Event set. *)
Definition draining_writer : LG.Machine :=
  LG.mkMachine
    (LG.mkCSVLogger "log/SP-Case_ppg_red.csv"
       (Queue.mkQueue 0 [mkNotifData "EB:E5:31:BF:2E:B5" "SP-Case" ppg_red [["1"; "2"]] []])
       ["index"; "ppg red"] true)
    (Some "log/SP-Case_ppg_red.csv") {[ "log/SP-Case_ppg_red.csv" := "index,ppg red" ]} true 0 [].

(** Every awaited call of the writer returns and nothing arrives. *)
Definition calm_env (k : nat) : LG.Suspension := LG.mkSuspension [] LG.Returns.

(** Every awaited call of the consumer returns and nothing arrives. *)
Definition calm_consumer_env (k : nat) : CS.Suspension := CS.mkSuspension [] CS.Returns.

(** A consumer with one record of [ppg_red] queued and the halt Event set. *)
Definition draining_consumer : CS.Machine :=
  CS.mkMachine
    (CS.__init__ example_config
       (Queue.mkQueue 0 [mkNotifData "EB:E5:31:BF:2E:B5" "SP-Case" ppg_red [["1"; "2"]] []]))
    true 0 [].

(** Closing the file raises [OSError]. *)
Definition failing_close_env (k : nat) : LG.Suspension :=
  match k with
  | 0%nat => LG.mkSuspension [LG.HaltSet] LG.Returns
  | 1%nat => LG.mkSuspension [] LG.Returns
  | _ => LG.mkSuspension [] (LG.Raises (OSError "No space left on device"))
  end.

(** *** log2csv: from the queue of a writer to its file *)

(** The records the consumer puts into the queue of a writer. *)
Definition puts (l : list LG.Arrival) : list NotifData :=
  omap (fun a => match a with LG.Put item => Some item | LG.HaltSet => None end) l.

(** The records put during the [n] suspensions from number [k] on. *)
Fixpoint arrived (env : nat → LG.Suspension) (k n : nat) : list NotifData :=
  match n with
  | O => []
  | S n' => puts (LG.arrivals (env k)) ++ arrived env (S k) n'
  end.

(** What [write_rows] writes for the records [items], one after the other. *)
Definition rows_text (items : list NotifData) : string :=
  foldr (fun item text =>
           String.concat EmptyString (map log2csv.writerow (data item)) +:+ text)
        EmptyString items.

(** What the file [path] holds. *)
Definition content (path : string) (m : LG.Machine) : string :=
  default EmptyString (LG.fs m !! path).

(** From [m] to [m']: the records taken off the queue are those written to
    the file [path], in the same order, and no record has left the queue in
    another way. *)
Definition logged (env : nat → LG.Suspension) (path : string) (m m' : LG.Machine) : Prop :=
  (LG.awaits m ≤ LG.awaits m')%nat
  ∧ LG.f m' = LG.f m
  ∧ ∃ taken,
      content path m' = content path m +:+ rows_text taken
      ∧ Queue.items (LG.input_q (LG.self m))
        ++ arrived env (LG.awaits m) (LG.awaits m' - LG.awaits m)
        = taken ++ Queue.items (LG.input_q (LG.self m')).

(** Two records arrive while the writer waits for its queue, the halt Event
    is set while it flushes the first. *)
Definition two_records_env (k : nat) : LG.Suspension :=
  match k with
  | 0%nat => LG.mkSuspension
               [LG.Put (mkNotifData "EB:E5:31:BF:2E:B5" "SP-Case" ppg_red [["1"; "2"]] []);
                LG.Put (mkNotifData "EB:E5:31:BF:2E:B5" "SP-Case" ppg_red [["3"; "4"]; ["5"; "6"]] [])]
               LG.Returns
  | 2%nat => LG.mkSuspension [LG.HaltSet] LG.Returns
  | _ => LG.mkSuspension [] LG.Returns
  end.

(** The writer of [ppg_red] with its file open and an empty queue. *)
Definition idle_writer : LG.Machine :=
  LG.mkMachine (LG.__init__ "log/SP-Case_ppg_red.csv" ["index"; "ppg red"])
    (Some "log/SP-Case_ppg_red.csv") {[ "log/SP-Case_ppg_red.csv" := "index,ppg red" ]} false 0 [].

(** *** log2csv: one writer per file *)

(** Every file has at most one writer task: the tasks are the keys of the
    table of writers, none of them twice, and every writer is filed under
    the path of its own file. *)
Definition one_writer_per_file (m : CS.Machine) : Prop :=
  NoDup (CS.tasks (CS.self m))
  ∧ (∀ p, p ∈ CS.tasks (CS.self m) ↔ is_Some (CS.file_outputs (CS.self m) !! p))
  ∧ (∀ p l, CS.file_outputs (CS.self m) !! p = Some l → LG.file_path l = p).

Definition keeps_writers (m m' : CS.Machine) : Prop :=
  one_writer_per_file m → one_writer_per_file m'.

(** * Lemmas and theorems *)

(** ** Reasoning about coroutines *)

Section Preservation.

Context {S : Type} (R : relation S) `{!PreOrder R}.

Lemma preserves_ret {A} (a : A) : preserves R (mret a).
Proof. intros s. reflexivity. Qed.

Lemma preserves_raise {A} e : preserves R (raise e : M S A).
Proof. intros s. reflexivity. Qed.

Lemma preserves_unfinished {A} : preserves R (unfinished : M S A).
Proof. intros s. reflexivity. Qed.

Lemma preserves_gets {A} (f : S → A) : preserves R (gets f).
Proof. intros s. reflexivity. Qed.

Lemma preserves_modify (f : S → S) : (∀ s, R s (f s)) → preserves R (modify f).
Proof. intros H s. apply H. Qed.

Lemma preserves_bind {A B} (c : M S A) (k : A → M S B) :
  preserves R c → (∀ a, preserves R (k a)) → preserves R (c ≫= k).
Proof.
  intros Hc Hk s. specialize (Hc s).
  unfold mbind, M_bind, bind. destruct (c s) as [[a|e|] s1]; simpl in *; auto.
  etrans; [exact Hc | apply Hk].
Qed.

Lemma preserves_try_except {A} (c : M S A) h :
  preserves R c → (∀ e, preserves R (h e)) → preserves R (try_except c h).
Proof.
  intros Hc Hh s. specialize (Hc s).
  unfold try_except. destruct (c s) as [[a|e|] s1]; simpl in *; auto.
  etrans; [exact Hc | apply Hh].
Qed.

Lemma preserves_try_finally {A} (c : M S A) fin :
  preserves R c → preserves R fin → preserves R (try_finally c fin).
Proof.
  intros Hc Hf s. specialize (Hc s).
  unfold try_finally. destruct (c s) as [[a|e|] s1]; simpl in *; auto.
  - specialize (Hf s1). destruct (fin s1) as [[?|?|] s2]; simpl in *; etrans; eauto.
  - specialize (Hf s1). destruct (fin s1) as [[?|?|] s2]; simpl in *; etrans; eauto.
Qed.

Lemma preserves_for_each {A} (xs : list A) body :
  (∀ x, preserves R (body x)) → preserves R (for_each xs body).
Proof.
  intros Hb. induction xs as [|x xs IH]; simpl.
  - apply (preserves_ret tt).
  - apply preserves_bind; auto.
Qed.

End Preservation.

Section Finishing.

Context {S : Type}.

Lemma finishes_ret {A} (a : A) : finishes (mret a : M S A).
Proof. by intros s. Qed.

Lemma finishes_raise {A} e : finishes (raise e : M S A).
Proof. by intros s. Qed.

Lemma finishes_gets {A} (f : S → A) : finishes (gets f).
Proof. by intros s. Qed.

Lemma finishes_modify (f : S → S) : finishes (modify f).
Proof. by intros s. Qed.

Lemma finishes_bind {A B} (c : M S A) (k : A → M S B) :
  finishes c → (∀ a, finishes (k a)) → finishes (c ≫= k).
Proof.
  intros Hc Hk s. specialize (Hc s).
  unfold mbind, M_bind, bind. destruct (c s) as [[a|e|] s1]; simpl in *; auto.
  apply Hk.
Qed.

Lemma finishes_try_except {A} (c : M S A) h :
  finishes c → (∀ e, finishes (h e)) → finishes (try_except c h).
Proof.
  intros Hc Hh s. specialize (Hc s).
  unfold try_except. destruct (c s) as [[a|e|] s1]; simpl in *; auto.
  apply Hh.
Qed.

Lemma finishes_try_finally {A} (c : M S A) fin :
  finishes c → finishes fin → finishes (try_finally c fin).
Proof.
  intros Hc Hf s. specialize (Hc s).
  unfold try_finally. destruct (c s) as [[a|e|] s1]; simpl in *; auto.
  - specialize (Hf s1). by destruct (fin s1) as [[?|?|] s2].
  - specialize (Hf s1). by destruct (fin s1) as [[?|?|] s2].
Qed.

Lemma finishes_for_each {A} (xs : list A) (body : A → M S unit) :
  (∀ x, finishes (body x)) → finishes (for_each xs body).
Proof.
  intros Hb. induction xs as [|x xs IH]; simpl.
  - apply (finishes_ret tt).
  - apply finishes_bind; auto.
Qed.

End Finishing.

Ltac finishes_step :=
  match goal with
  | |- finishes (mret _) => apply finishes_ret
  | |- finishes pass => apply (finishes_ret tt)
  | |- finishes (raise _) => apply finishes_raise
  | |- finishes (gets _) => apply finishes_gets
  | |- finishes (modify _) => apply finishes_modify
  | |- finishes (mbind _ _) => apply finishes_bind; [|intros ?]
  | |- finishes (try_except _ _) => apply finishes_try_except; [|intros ?]
  | |- finishes (try_finally _ _) => apply finishes_try_finally
  | |- finishes (for_each _ _) => apply finishes_for_each; intros ?
  | |- finishes (if ?b then _ else _) => destruct b
  | |- finishes (match ?x with _ => _ end) => destruct x
  end.

Ltac preserves_step :=
  match goal with
  | |- preserves ?R (mret _) => apply (preserves_ret R)
  | |- preserves ?R pass => apply (preserves_ret R tt)
  | |- preserves ?R (raise _) => apply (preserves_raise R)
  | |- preserves ?R unfinished => apply (preserves_unfinished R)
  | |- preserves ?R (gets _) => apply (preserves_gets R)
  | |- preserves ?R (mbind _ _) => apply (preserves_bind R); [|intros ?]
  | |- preserves ?R (try_except _ _) => apply (preserves_try_except R); [|intros ?]
  | |- preserves ?R (try_finally _ _) => apply (preserves_try_finally R)
  | |- preserves ?R (for_each _ _) => apply (preserves_for_each R); intros ?
  | |- preserves _ (if ?b then _ else _) => destruct b
  | |- preserves _ (match ?x with _ => _ end) => destruct x
  end.

(** ** ActiveConnection *)

Lemma assigned_app {St} (l1 l2 : list (Effect St)) :
  assigned (l1 ++ l2) = assigned l1 ++ assigned l2.
Proof. induction l1 as [|[] l1 IH]; simpl; congruence. Qed.

Lemma awaited_app {St} (l1 l2 : list (Effect St)) :
  awaited (l1 ++ l2) = awaited l1 ++ awaited l2.
Proof. induction l1 as [|[] l1 IH]; simpl; congruence. Qed.

#[global] Instance stable_preorder : PreOrder stable.
Proof.
  split.
  - intros m. split; auto; lia.
  - intros m1 m2 m3 [] []. split; try congruence; auto; try lia.
    by etrans.
Qed.

Lemma disconnect_calls_snoc m ev :
  disconnect_calls (AC.with_effects (AC.effects m ++ [ev]) m) =
  (disconnect_calls m + match ev with Await con_disconnect => 1 | _ => 0 end)%nat.
Proof.
  unfold disconnect_calls. simpl. rewrite awaited_app, filter_app, length_app.
  f_equal. destruct ev as [| | | [] |]; reflexivity.
Qed.

Lemma stable_emit ev :
  (∀ s, ev ≠ Assign s) → preserves stable (AC.emit ev).
Proof.
  intros Hev. apply (preserves_modify stable). intros m.
  split; simpl; auto; try lia.
  - rewrite assigned_app. destruct ev; simpl; try apply app_nil_r. by destruct (Hev s).
  - rewrite disconnect_calls_snoc. lia.
  - by apply prefix_app_r.
Qed.

Ltac stable_modify :=
  apply (preserves_modify stable); intros ?; split; simpl; auto; try lia.

Lemma stable_log_info msg : preserves stable (AC.log_info msg).
Proof. by apply stable_emit. Qed.
Lemma stable_log_warning msg : preserves stable (AC.log_warning msg).
Proof. by apply stable_emit. Qed.
Lemma stable_log_error msg : preserves stable (AC.log_error msg).
Proof. by apply stable_emit. Qed.
Lemma stable_log_exception e : preserves stable (AC.log_exception e).
Proof. by apply stable_emit. Qed.
Lemma stable_print msg : preserves stable (AC.print msg).
Proof. by apply stable_emit. Qed.

Lemma stable_field {A} (f : AC.ActiveConnection → A) : preserves stable (AC.field f).
Proof. apply (preserves_gets stable). Qed.

Lemma stable_set_did_disconnect :
  preserves stable (modify (AC.with_self (AC.with_did_disconnect true))).
Proof. stable_modify. Qed.

Create HintDb stable_db.
#[global] Hint Resolve stable_log_info stable_log_warning stable_log_error
  stable_log_exception stable_print stable_set_did_disconnect : stable_db.
#[global] Hint Extern 1 (preserves ?R (AC.field _)) => apply (preserves_gets R) : stable_db.
#[global] Hint Extern 1 (preserves ?R AC.monotonic_ns) => apply (preserves_gets R) : stable_db.
#[global] Hint Extern 1 (preserves ?R AC.halt_is_set) => apply (preserves_gets R) : stable_db.

Ltac stable_auto := repeat (first [preserves_step | solve [eauto with stable_db]]).

Lemma stable_output_put_nowait result : preserves stable (AC.output_put_nowait result).
Proof. unfold AC.output_put_nowait. stable_auto. stable_modify. Qed.
#[global] Hint Resolve stable_output_put_nowait : stable_db.

Lemma stable_last_notif_getitem u : preserves stable (AC.last_notif_getitem u).
Proof. unfold AC.last_notif_getitem. stable_auto. Qed.
#[global] Hint Resolve stable_last_notif_getitem : stable_db.

Lemma stable__notif_callback data char : preserves stable (AC._notif_callback data char).
Proof.
  unfold AC._notif_callback. stable_auto.
  stable_modify. intros u Hu.
  destruct (decide (uuid char = u)) as [->|Hne].
  - rewrite lookup_insert_eq. eauto.
  - by rewrite lookup_insert_ne.
Qed.

Lemma stable__disconnected_callback : preserves stable AC._disconnected_callback.
Proof. unfold AC._disconnected_callback. stable_auto. Qed.

Lemma stable_deliver m a : stable m (AC.deliver m a).
Proof.
  destruct a; simpl.
  - split; simpl; auto; lia.
  - apply stable__notif_callback.
  - apply stable__disconnected_callback.
  - split; simpl; auto; lia.
Qed.

Lemma stable_foldl_deliver l m : stable m (foldl AC.deliver m l).
Proof.
  revert m. induction l as [|a l IH]; intros m; simpl.
  - reflexivity.
  - etrans; [apply stable_deliver | apply IH].
Qed.

Lemma stable_await env op : preserves stable (AC.await env op).
Proof.
  intros m. unfold AC.await.
  set (m1 := AC.with_awaits _ _).
  assert (stable m m1) as H1.
  { split; simpl; auto; try lia.
    - rewrite assigned_app. simpl. apply app_nil_r.
    - unfold m1. unfold disconnect_calls. simpl. rewrite awaited_app, filter_app, length_app. lia.
    - by apply prefix_app_r. }
  destruct (AC.outcome (env (AC.awaits m))); simpl;
    (etrans; [exact H1 | apply stable_foldl_deliver]).
Qed.
#[global] Hint Resolve stable_await : stable_db.

Lemma stable__do_disconnect env : preserves stable (AC._do_disconnect env).
Proof. unfold AC._do_disconnect. stable_auto. Qed.
#[global] Hint Resolve stable__do_disconnect : stable_db.

Lemma stable_check_characteristic env char : preserves stable (AC.check_characteristic env char).
Proof. unfold AC.check_characteristic. stable_auto. Qed.
#[global] Hint Resolve stable_check_characteristic : stable_db.

Lemma stable__check_for_timeout env : preserves stable (AC._check_for_timeout env).
Proof. unfold AC._check_for_timeout. stable_auto. Qed.
#[global] Hint Resolve stable__check_for_timeout : stable_db.

Lemma stable_run_loop env fuel : preserves stable (AC.run_loop env fuel).
Proof. induction fuel as [|fuel IH]; simpl; stable_auto. Qed.
#[global] Hint Resolve stable_run_loop : stable_db.

(** **** No statement of the connection stops at a loop bound, the polling
    loop apart *)

Create HintDb finishes_db.
#[global] Hint Extern 1 (finishes (AC.field _)) => apply finishes_gets : finishes_db.
#[global] Hint Extern 1 (finishes AC.monotonic_ns) => apply finishes_gets : finishes_db.
#[global] Hint Extern 1 (finishes AC.halt_is_set) => apply finishes_gets : finishes_db.
#[global] Hint Extern 1 (finishes (AC.emit _)) => apply finishes_modify : finishes_db.
#[global] Hint Extern 1 (finishes (AC.log_info _)) => apply finishes_modify : finishes_db.
#[global] Hint Extern 1 (finishes (AC.log_warning _)) => apply finishes_modify : finishes_db.
#[global] Hint Extern 1 (finishes (AC.log_error _)) => apply finishes_modify : finishes_db.
#[global] Hint Extern 1 (finishes (AC.log_exception _)) => apply finishes_modify : finishes_db.
#[global] Hint Extern 1 (finishes (AC.print _)) => apply finishes_modify : finishes_db.

Ltac finishes_auto := repeat (first [finishes_step | solve [eauto with finishes_db]]).

Lemma finishes_await env op : finishes (AC.await env op).
Proof. intros m. unfold AC.await. by destruct (AC.outcome _). Qed.
#[global] Hint Resolve finishes_await : finishes_db.

Lemma finishes_set_state s : finishes (AC.set_state s).
Proof. unfold AC.set_state. finishes_auto. Qed.
#[global] Hint Resolve finishes_set_state : finishes_db.

Lemma finishes_output_put_nowait result : finishes (AC.output_put_nowait result).
Proof. unfold AC.output_put_nowait. finishes_auto. Qed.
#[global] Hint Resolve finishes_output_put_nowait : finishes_db.

Lemma finishes_last_notif_getitem u : finishes (AC.last_notif_getitem u).
Proof. unfold AC.last_notif_getitem. finishes_auto. Qed.
#[global] Hint Resolve finishes_last_notif_getitem : finishes_db.

Lemma finishes__do_disconnect env : finishes (AC._do_disconnect env).
Proof. unfold AC._do_disconnect. finishes_auto. Qed.
#[global] Hint Resolve finishes__do_disconnect : finishes_db.

Lemma finishes__connect env : finishes (AC._connect env).
Proof. unfold AC._connect. finishes_auto. Qed.
#[global] Hint Resolve finishes__connect : finishes_db.

Lemma finishes_check_characteristic env char : finishes (AC.check_characteristic env char).
Proof. unfold AC.check_characteristic. finishes_auto. Qed.
#[global] Hint Resolve finishes_check_characteristic : finishes_db.

Lemma finishes__check_for_timeout env : finishes (AC._check_for_timeout env).
Proof. unfold AC._check_for_timeout. finishes_auto. Qed.
#[global] Hint Resolve finishes__check_for_timeout : finishes_db.

(** **** Callbacks await nothing *)

#[global] Instance quiet_preorder : PreOrder quiet.
Proof.
  split.
  - by intros m.
  - intros m1 m2 m3 [] []. split; congruence.
Qed.

Lemma quiet_emit ev : (∀ op, ev ≠ Await op) → preserves quiet (AC.emit ev).
Proof.
  intros Hev. apply (preserves_modify quiet). intros m. split; simpl; auto.
  rewrite awaited_app. destruct ev; simpl; try apply app_nil_r. by destruct (Hev op).
Qed.

Lemma quiet__notif_callback data char : preserves quiet (AC._notif_callback data char).
Proof.
  unfold AC._notif_callback, AC.output_put_nowait, AC.monotonic_ns, AC.field,
    AC.log_error, AC.log_exception.
  repeat (first [preserves_step | by apply quiet_emit
                | by apply (preserves_modify quiet) ]).
Qed.

Lemma quiet_deliver m a : quiet m (AC.deliver m a).
Proof.
  destruct a; simpl; try done.
  apply quiet__notif_callback.
Qed.

Lemma quiet_foldl_deliver l m : quiet m (foldl AC.deliver m l).
Proof.
  revert m. induction l as [|a l IH]; intros m; simpl.
  - reflexivity.
  - etrans; [apply quiet_deliver | apply IH].
Qed.

Lemma awaited_await env op m :
  awaited (AC.effects (snd (AC.await env op m))) = awaited (AC.effects m) ++ [op]
  ∧ AC.awaits (snd (AC.await env op m)) = S (AC.awaits m).
Proof.
  unfold AC.await. set (m1 := AC.with_awaits _ _).
  assert (awaited (AC.effects m1) = awaited (AC.effects m) ++ [op] ∧ AC.awaits m1 = S (AC.awaits m)) as [H1 H2].
  { simpl. by rewrite awaited_app. }
  destruct (quiet_foldl_deliver (AC.arrivals (env (AC.awaits m))) m1) as [H3 H4].
  destruct (AC.outcome _); simpl; split; congruence.
Qed.

Ltac unfold_monad :=
  unfold mbind, mret, M_bind, M_ret, bind, ret, pass, raise, gets, modify,
    try_except, try_finally in *.

Lemma _do_disconnect_spec env m c :
  AC.con (AC.self m) = Some c →
  AC.did_disconnect (AC.self (snd (AC._do_disconnect env m))) = true
  ∧ awaited (AC.effects (snd (AC._do_disconnect env m))) = awaited (AC.effects m) ++ [con_disconnect]
  ∧ AC.awaits (snd (AC._do_disconnect env m)) = S (AC.awaits m).
Proof.
  intros Hc.
  destruct (awaited_await env con_disconnect m) as [Ha Hn].
  pose proof (finishes_await env con_disconnect m) as Hf.
  unfold AC._do_disconnect, AC.field, AC.log_warning, AC.emit. unfold_monad. simpl.
  rewrite Hc.
  destruct (AC.await env con_disconnect m) as [[b|e|] m1]; simpl in *.
  - destruct b; simpl; rewrite awaited_app, Ha; simpl; by rewrite app_nil_r.
  - destruct e; simpl; rewrite ?awaited_app, Ha; simpl; by rewrite ?app_nil_r.
  - done.
Qed.

Lemma disconnect_calls_awaited m m' :
  awaited (AC.effects m') = awaited (AC.effects m) ++ [con_disconnect] →
  disconnect_calls m' = S (disconnect_calls m).
Proof.
  intros H. unfold disconnect_calls. rewrite H, filter_app, length_app. simpl. lia.
Qed.

Lemma torn__do_disconnect env m c :
  AC.con (AC.self m) = Some c → torn m (snd (AC._do_disconnect env m)).
Proof.
  intros Hc. destruct (_do_disconnect_spec env m c Hc) as (? & ? & ?).
  split_and!; auto. apply stable__do_disconnect.
Qed.

Lemma stable_torn m1 m2 m3 : stable m1 m2 → awaited (AC.effects m2) = awaited (AC.effects m1) → torn m2 m3 → torn m1 m3.
Proof.
  intros H12 Ha (? & ? & ?). split_and!; auto; [congruence | by etrans].
Qed.

Lemma check_characteristic_timeout env m char c T t0 :
  AC.con (AC.self m) = Some c →
  timeout char = Some T →
  AC.last_notif (AC.self m) !! uuid char = Some (Some t0) →
  Qgtb (seconds_since (AC.clock m) t0) T = true →
  (∃ e, fst (AC.check_characteristic env char m) = Raise e)
  ∧ torn m (snd (AC.check_characteristic env char m))
  ∧ timeout_warning m char ∈ AC.effects (snd (AC.check_characteristic env char m)).
Proof.
  intros Hc HT Hl Hq.
  unfold AC.check_characteristic. rewrite HT.
  unfold AC.last_notif_getitem, AC.field, AC.monotonic_ns, AC.log_warning, AC.emit.
  unfold_monad. simpl. rewrite Hl. simpl. rewrite Hq.
  set (m1 := AC.with_effects _ m).
  assert (stable m m1) as Hs.
  { apply (stable_emit (timeout_warning m char)). done. }
  assert (AC.con (AC.self m1) = Some c) as Hc1 by done.
  pose proof (torn__do_disconnect env m1 c Hc1) as Ht.
  pose proof (finishes__do_disconnect env m1) as Hf.
  assert (timeout_warning m char ∈ AC.effects (snd (AC._do_disconnect env m1))) as Hin.
  { destruct Ht as (_ & _ & Hst). eapply elem_of_prefix; [|apply Hst].
    simpl. apply elem_of_app. right. by apply list_elem_of_singleton. }
  assert (torn m (snd (AC._do_disconnect env m1))) as Ht'.
  { eapply stable_torn; eauto. simpl. rewrite awaited_app. simpl. apply app_nil_r. }
  destruct (AC._do_disconnect env m1) as [[[]|e|] m2]; simpl in *; try done; eauto.
Qed.

Lemma check_characteristic_never_received env m char c T G t0 :
  AC.con (AC.self m) = Some c →
  timeout char = Some T →
  AC.last_notif (AC.self m) !! uuid char = Some None →
  initial_characteristic_timeout (AC.config (AC.self m)) = Some G →
  AC.initial_connection_time (AC.self m) = Some t0 →
  Qgtb (seconds_since (AC.clock m) t0) (T + G)%Q = true →
  fst (AC.check_characteristic env char m) ≠ Unfinished
  ∧ torn m (snd (AC.check_characteristic env char m))
  ∧ never_received_warning m char ∈ AC.effects (snd (AC.check_characteristic env char m)).
Proof.
  intros Hc HT Hl HG Hi Hq.
  unfold AC.check_characteristic. rewrite HT.
  unfold AC.last_notif_getitem, AC.field, AC.monotonic_ns, AC.log_warning, AC.emit.
  unfold_monad. simpl. rewrite Hl. simpl. rewrite HG, Hi, Hq.
  set (m1 := AC.with_effects _ m).
  assert (stable m m1) as Hs.
  { apply (stable_emit (never_received_warning m char)). done. }
  assert (AC.con (AC.self m1) = Some c) as Hc1 by done.
  pose proof (torn__do_disconnect env m1 c Hc1) as Ht.
  pose proof (finishes__do_disconnect env m1) as Hf.
  assert (never_received_warning m char ∈ AC.effects (snd (AC._do_disconnect env m1))) as Hin.
  { destruct Ht as (_ & _ & Hst). eapply elem_of_prefix; [|apply Hst].
    simpl. apply elem_of_app. right. by apply list_elem_of_singleton. }
  assert (torn m (snd (AC._do_disconnect env m1))) as Ht'.
  { eapply stable_torn; eauto. simpl. rewrite awaited_app. simpl. apply app_nil_r. }
  destruct (AC._do_disconnect env m1) as [[[]|e|] m2]; simpl in *; try done; eauto.
Qed.

(** A check of one characteristic changes nothing, or raises without having
    touched anything (a missing key, a missing connection time), or forces
    a disconnect. *)
Lemma check_characteristic_cases env m char c :
  AC.con (AC.self m) = Some c →
  (AC.check_characteristic env char m = (Ret tt, m))
  ∨ ((∃ e, AC.check_characteristic env char m = (Raise e, m))
     ∧ (AC.last_notif (AC.self m) !! uuid char = None
        ∨ AC.initial_connection_time (AC.self m) = None))
  ∨ (fst (AC.check_characteristic env char m) ≠ Unfinished
     ∧ torn m (snd (AC.check_characteristic env char m))).
Proof.
  intros Hc.
  destruct (timeout char) as [T|] eqn:HT;
    [|left; unfold AC.check_characteristic; by rewrite HT].
  destruct (AC.last_notif (AC.self m) !! uuid char) as [[t0|]|] eqn:Hl.
  - destruct (Qgtb (seconds_since (AC.clock m) t0) T) eqn:Hq.
    + right; right.
      destruct (check_characteristic_timeout env m char c T t0) as ([e He] & ? & _); auto.
      split; auto. by rewrite He.
    + left. unfold AC.check_characteristic. rewrite HT.
      unfold AC.last_notif_getitem, AC.field, AC.monotonic_ns. unfold_monad. simpl.
      rewrite Hl. simpl. by rewrite Hq.
  - destruct (initial_characteristic_timeout (AC.config (AC.self m))) as [G|] eqn:HG.
    + destruct (AC.initial_connection_time (AC.self m)) as [t0|] eqn:Hi.
      * destruct (Qgtb (seconds_since (AC.clock m) t0) (T + G)%Q) eqn:Hq.
        -- right; right.
           destruct (check_characteristic_never_received env m char c T G t0) as (? & ? & _); auto.
        -- left. unfold AC.check_characteristic. rewrite HT.
           unfold AC.last_notif_getitem, AC.field, AC.monotonic_ns. unfold_monad. simpl.
           rewrite Hl. simpl. by rewrite HG, Hi, Hq.
      * right; left. split; [|by right]. eexists.
        unfold AC.check_characteristic. rewrite HT.
        unfold AC.last_notif_getitem, AC.field, AC.monotonic_ns. unfold_monad. simpl.
        rewrite Hl. simpl. by rewrite HG, Hi.
    + left. unfold AC.check_characteristic. rewrite HT.
      unfold AC.last_notif_getitem, AC.field, AC.monotonic_ns. unfold_monad. simpl.
      rewrite Hl. simpl. by rewrite HG.
  - right; left. split; [|by left]. eexists.
    unfold AC.check_characteristic. rewrite HT.
    unfold AC.last_notif_getitem, AC.field, AC.monotonic_ns. unfold_monad. simpl.
    by rewrite Hl.
Qed.

Lemma torn_calls m m' : torn m m' → disconnect_calls m' = S (disconnect_calls m).
Proof. intros (_ & H & _). by apply disconnect_calls_awaited. Qed.

(** A health check that meets a characteristic whose timeout has expired
    does not return normally with the connection untouched. *)
Lemma _check_for_timeout_timed_out env chars m char c T t0 :
  AC.con (AC.self m) = Some c →
  char ∈ chars →
  timeout char = Some T →
  AC.last_notif (AC.self m) !! uuid char = Some (Some t0) →
  Qgtb (seconds_since (AC.clock m) t0) T = true →
  fst (for_each chars (AC.check_characteristic env) m) ≠ Unfinished
  ∧ stable m (snd (for_each chars (AC.check_characteristic env) m))
  ∧ (((∃ e, fst (for_each chars (AC.check_characteristic env) m) = Raise e)
      ∧ (AC.initial_connection_time (AC.self m) = None
         ∨ ∃ c', c' ∈ chars ∧ AC.last_notif (AC.self m) !! uuid c' = None))
     ∨ (AC.did_disconnect (AC.self (snd (for_each chars (AC.check_characteristic env) m))) = true
        ∧ (S (disconnect_calls m) ≤ disconnect_calls (snd (for_each chars (AC.check_characteristic env) m)))%nat)).
Proof.
  intros Hc Hin HT Hl Hq.
  split; [apply finishes_for_each; intros; apply finishes_check_characteristic|].
  split; [apply (preserves_for_each stable); intros; apply stable_check_characteristic|].
  induction chars as [|c' chars IH]; [by apply elem_of_nil in Hin|].
  simpl. unfold_monad.
  apply elem_of_cons in Hin as [<-|Hin].
  - destruct (check_characteristic_timeout env m char c T t0) as ([e He] & Ht & _); auto.
    destruct (AC.check_characteristic env char m) as [r m1]; simpl in *; subst r.
    right. pose proof (torn_calls _ _ Ht). destruct Ht as (Hd & _ & _).
      cbn [fst snd]. split; [exact Hd|lia].
  - destruct (check_characteristic_cases env m c' c Hc) as [H|[[[e H] Hmiss]|[Hf Ht]]].
    + rewrite H. destruct (IH Hin) as [[He Hm]|Hd].
      * left. split; auto. destruct Hm as [?|(c2 & ? & ?)]; auto.
        right. exists c2. split; auto. apply elem_of_cons; by right.
      * by right.
    + rewrite H. simpl. left. split; eauto. destruct Hmiss; auto.
      right. exists c'. split; auto. apply elem_of_cons; by left.
    + destruct (AC.check_characteristic env c' m) as [[[]|e|] m1]; simpl in *; try done.
      * right.
        pose proof (preserves_for_each stable chars (AC.check_characteristic env)
                      (stable_check_characteristic env) m1) as Hs.
        destruct Ht as (Hd & Ha & Hst).
        pose proof (disconnect_calls_awaited _ _ Ha).
        destruct (for_each chars (AC.check_characteristic env) m1) as [[[]|?|] m2]; simpl in *;
          (split; [by apply Hs | destruct Hs; lia]).
      * right. pose proof (torn_calls _ _ Ht). destruct Ht as (Hd & _ & _).
      cbn [fst snd]. split; [exact Hd|lia].
Qed.

(** A polling loop that starts an iteration when the timeout of some
    characteristic has expired ends within two evaluations of its
    condition. *)
Lemma run_loop_timed_out env fuel m char c T t0 :
  (2 ≤ fuel)%nat →
  AC.con (AC.self m) = Some c →
  char ∈ characteristics (AC.config (AC.self m)) →
  timeout char = Some T →
  AC.last_notif (AC.self m) !! uuid char = Some (Some t0) →
  Qgtb (seconds_since (AC.clock m) t0) T = true →
  fst (AC.run_loop env fuel m) ≠ Unfinished
  ∧ (AC.halt m = false →
     AC.did_disconnect (AC.self m) = false →
     (∃ t, AC.initial_connection_time (AC.self m) = Some t) →
     (∀ c', c' ∈ characteristics (AC.config (AC.self m)) →
            is_Some (AC.last_notif (AC.self m) !! uuid c')) →
     (S (disconnect_calls m) ≤ disconnect_calls (snd (AC.run_loop env fuel m)))%nat).
Proof.
  intros Hfuel Hc Hin HT Hl Hq.
  destruct fuel as [|[|fuel]]; [lia|lia|]. clear Hfuel.
  cbn [AC.run_loop]. unfold AC.halt_is_set, AC.field, AC.log_warning, AC.emit,
    AC._check_for_timeout. unfold_monad. simpl.
  destruct (AC.halt m) eqn:Hh; [split; [done|intros; done]|].
  destruct (AC.did_disconnect (AC.self m)) eqn:Hd; [split; [done|intros; done]|].
  destruct (_check_for_timeout_timed_out env _ m char c T t0 Hc Hin HT Hl Hq)
    as (Hf & Hst & Hcases).
  destruct (for_each _ _ m) as [[[]|e|] m1]; simpl in *; try done.
  - (* the check returned: the flag is set *)
    destruct Hcases as [[[e He] _]|[Hd1 Hcalls]]; [done|].
    pose proof (stable_await env (asyncio_sleep 0.05) m1) as Hs2.
    pose proof (finishes_await env (asyncio_sleep 0.05) m1) as Hf2.
    destruct (AC.await env (asyncio_sleep 0.05) m1) as [[b|e|] m2]; simpl in *; try done.
    + destruct (AC.halt m2); simpl.
      * split; [done|]. intros. destruct Hs2. lia.
      * rewrite (st_did _ _ Hs2 Hd1). simpl. split; [done|].
        intros. rewrite disconnect_calls_snoc. destruct Hs2. lia.
    + split; [done|]. intros. destruct Hs2. lia.
  - (* the check raised *)
    split; [done|]. intros _ _ [t Ht] Hdom.
    destruct Hcases as [[_ [Hi|(c' & Hc' & Hn)]]|[_ ?]]; auto.
    + congruence.
    + destruct (Hdom c' Hc') as [? ?]. congruence.
Qed.

(** **** The order of the connection states *)

#[global] Instance same_phase_preorder : PreOrder same_phase.
Proof.
  split.
  - by intros m.
  - intros m1 m2 m3 [] []. split; congruence.
Qed.

Lemma stable_same_phase m m' : stable m m' → same_phase m m'.
Proof. intros []. by split. Qed.

Lemma preserves_weaken {S A} (R R' : relation S) (c : M S A) :
  (∀ s s', R s s' → R' s s') → preserves R c → preserves R' c.
Proof. intros H Hc s. apply H, Hc. Qed.

(** [self.state = s] appends [s] to the assignments. *)
Lemma set_state_spec s m :
  AC.set_state s m = (Ret tt, snd (AC.set_state s m))
  ∧ AC.state (AC.self (snd (AC.set_state s m))) = s
  ∧ assigned (AC.effects (snd (AC.set_state s m))) = assigned (AC.effects m) ++ [s]
  ∧ awaited (AC.effects (snd (AC.set_state s m))) = awaited (AC.effects m)
  ∧ AC.halt (snd (AC.set_state s m)) = AC.halt m.
Proof.
  unfold AC.set_state, AC.emit. unfold_monad. simpl.
  rewrite assigned_app, awaited_app. simpl. by rewrite app_nil_r.
Qed.

Lemma connected_or_raised_bind {A} (c : M AC.Machine A) k m :
  preserves stable c → finishes c →
  (∀ a m1, connected_or_raised (fst (k a m1)) m1 (snd (k a m1))) →
  connected_or_raised (fst ((c ≫= k) m)) m (snd ((c ≫= k) m)).
Proof.
  intros Hs Hf Hk. specialize (Hs m). specialize (Hf m). apply stable_same_phase in Hs.
  unfold_monad. destruct (c m) as [[a|e|] m1]; simpl in *; try done.
  specialize (Hk a m1). destruct Hs as [Hs1 Hs2].
  destruct (k a m1) as [[?|?|] m2]; simpl in *; try done.
  - by rewrite <- Hs2.
  - destruct Hk. split; congruence.
Qed.

Lemma _connect_spec env m :
  connected_or_raised (fst (AC._connect env m)) m (snd (AC._connect env m)).
Proof.
  unfold AC._connect.
  apply connected_or_raised_bind; [stable_auto | finishes_auto |]. intros name m1.
  apply connected_or_raised_bind; [stable_auto | finishes_auto |]. intros _ m2.
  apply connected_or_raised_bind; [stable_auto | finishes_auto |]. intros _ m3.
  apply connected_or_raised_bind; [stable_auto | finishes_auto |]. intros config m4.
  apply connected_or_raised_bind; [stable_auto | finishes_auto |]. intros _ m5.
  apply connected_or_raised_bind; [stable_auto | finishes_auto |]. intros _ m6.
  destruct (set_state_spec AC.CONNECTED m6) as (H & ? & ? & _).
  rewrite H. simpl. done.
Qed.

Lemma connect_and_poll_spec env fuel m :
  connect_phase (fst (AC.connect_and_poll env fuel m)) m (snd (AC.connect_and_poll env fuel m)).
Proof.
  unfold AC.connect_and_poll, AC.field, AC.monotonic_ns. unfold_monad. simpl.
  destruct (AC.did_disconnect (AC.self m)); simpl.
  { left. split; [eauto | reflexivity]. }
  pose proof (_connect_spec env m) as Hc.
  destruct (AC._connect env m) as [[[]|e|] m1]; simpl in *; try done.
  - set (m2 := AC.with_self _ m1).
    pose proof (stable_run_loop env fuel m2) as Hs. apply stable_same_phase in Hs.
    destruct Hs as [Hs1 Hs2]. destruct Hc as [Hc1 Hc2].
    assert (AC.state (AC.self (snd (AC.run_loop env fuel m2))) = AC.CONNECTED
            ∧ assigned (AC.effects (snd (AC.run_loop env fuel m2)))
              = assigned (AC.effects m) ++ [AC.CONNECTED]) as H.
    { split; [by rewrite Hs1 | by rewrite Hs2]. }
    destruct (AC.run_loop env fuel m2) as [[[]|?|] m3]; simpl in *; by right.
  - left. split; [eauto | done].
Qed.

(** A connection attempt that fails, or a disconnect before the attempt,
    leaves the inner [try] with an exception and nothing assigned. *)
Lemma connect_and_poll_failed env fuel m :
  AC.did_disconnect (AC.self m) = true ∨ (∃ e, fst (AC._connect env m) = Raise e) →
  (∃ e, fst (AC.connect_and_poll env fuel m) = Raise e)
  ∧ same_phase m (snd (AC.connect_and_poll env fuel m)).
Proof.
  intros H.
  unfold AC.connect_and_poll, AC.field, AC.monotonic_ns. unfold_monad. simpl.
  destruct (AC.did_disconnect (AC.self m)); simpl.
  { split; [eauto | reflexivity]. }
  destruct H as [?|[e He]]; [done|].
  pose proof (_connect_spec env m) as Hc.
  destruct (AC._connect env m) as [[[]|e'|] m1]; simpl in *; try done.
  split; [eauto | done].
Qed.

Lemma inner_try_phase env body m :
  same_phase (snd (body m)) (snd (AC.inner_try env body m))
  ∧ (fst (AC.inner_try env body m) = Unfinished ↔ fst (body m) = Unfinished).
Proof.
  unfold AC.inner_try. unfold_monad.
  destruct (body m) as [[[]|e|] m1]; simpl.
  - pose proof (stable__do_disconnect env m1) as Hs. apply stable_same_phase in Hs.
    pose proof (finishes__do_disconnect env m1) as Hf.
    destruct (AC._do_disconnect env m1) as [[[]|?|] m2]; simpl in *; done.
  - pose proof (stable__do_disconnect env m1) as Hs. apply stable_same_phase in Hs.
    pose proof (finishes__do_disconnect env m1) as Hf.
    destruct e; simpl;
      destruct (AC._do_disconnect env m1) as [[[]|?|] m2]; simpl in *; done.
  - done.
Qed.

Lemma outer_try_spec body m :
  (fst (body m) = Unfinished ∧ AC.outer_try body m = (Unfinished, snd (body m)))
  ∨ (fst (body m) ≠ Unfinished
     ∧ fst (AC.outer_try body m) = Ret tt
     ∧ AC.state (AC.self (snd (AC.outer_try body m))) = AC.DISCONNECTED
     ∧ assigned (AC.effects (snd (AC.outer_try body m)))
       = assigned (AC.effects (snd (body m))) ++ [AC.DISCONNECTED]
     ∧ awaited (AC.effects (snd (AC.outer_try body m))) = awaited (AC.effects (snd (body m)))).
Proof.
  unfold AC.outer_try, AC.field, AC.halt_is_set, AC.log_error, AC.log_exception, AC.print,
    AC.set_state, AC.emit. unfold_monad. simpl.
  destruct (body m) as [[[]|e|] m1]; simpl; [right|right|by left];
    (split; [done|]);
    destruct (AC.halt m1); simpl; rewrite ?assigned_app, ?awaited_app; simpl;
      rewrite ?app_nil_r; done.
Qed.

(** **** The polling loop ends once the halt Event is set *)

Section Halting.

Variable env : nat → AC.Suspension.
Variable k : nat.
Hypothesis halt_at_k : AC.HaltSet ∈ AC.arrivals (env k).

#[local] Instance keeps_halt_preorder : PreOrder (keeps_halt k).
Proof.
  split.
  - by intros m.
  - intros m1 m2 m3 [] []. split; [lia | auto].
Qed.

Lemma keeps_halt_same m m' :
  AC.awaits m' = AC.awaits m → (AC.halt m = true → AC.halt m' = true) → (keeps_halt k) m m'.
Proof. intros Ha Hh. split; [lia|]. unfold halted_past. rewrite Ha. auto. Qed.

Ltac keeps_halt_modify :=
  apply (preserves_modify (keeps_halt k)); intros ?; by apply keeps_halt_same.

Lemma keeps_halt_emit ev : preserves (keeps_halt k) (AC.emit ev).
Proof. keeps_halt_modify. Qed.

Lemma keeps_halt__notif_callback data char : preserves (keeps_halt k) (AC._notif_callback data char).
Proof.
  intros m. apply keeps_halt_same.
  - apply (quiet__notif_callback data char m).
  - apply (stable__notif_callback data char m).
Qed.

Lemma foldl_deliver_HaltSet l m :
  AC.HaltSet ∈ l → AC.halt (foldl AC.deliver m l) = true.
Proof.
  revert m. induction l as [|a l IH]; intros m Hin; [by apply elem_of_nil in Hin|].
  simpl. apply elem_of_cons in Hin as [<-|Hin]; [|by apply IH].
  by apply (stable_foldl_deliver l).
Qed.

Lemma keeps_halt_await op : preserves (keeps_halt k) (AC.await env op).
Proof.
  intros m.
  destruct (awaited_await env op m) as [_ Hn].
  split; [lia|]. intros Hm Hlt. rewrite Hn in Hlt.
  unfold AC.await.
  set (m1 := AC.with_awaits _ _).
  assert (AC.halt (foldl AC.deliver m1 (AC.arrivals (env (AC.awaits m)))) = true) as Hh.
  { destruct (decide (k = AC.awaits m)) as [->|Hne].
    - by apply foldl_deliver_HaltSet.
    - apply (stable_foldl_deliver _ m1). simpl. apply Hm. lia. }
  by destruct (AC.outcome _).
Qed.

Create HintDb halt_db.
#[local] Hint Resolve keeps_halt_emit keeps_halt_await : halt_db.
#[local] Hint Extern 1 (preserves ?R (AC.field _)) => apply (preserves_gets R) : halt_db.
#[local] Hint Extern 1 (preserves ?R AC.monotonic_ns) => apply (preserves_gets R) : halt_db.
#[local] Hint Extern 1 (preserves ?R AC.halt_is_set) => apply (preserves_gets R) : halt_db.
#[local] Hint Extern 1 (preserves (keeps_halt k) (AC.log_info _)) => apply keeps_halt_emit : halt_db.
#[local] Hint Extern 1 (preserves (keeps_halt k) (AC.log_warning _)) => apply keeps_halt_emit : halt_db.
#[local] Hint Extern 1 (preserves (keeps_halt k) (modify _)) => keeps_halt_modify : halt_db.

Ltac keeps_halt_auto := repeat (first [preserves_step | solve [eauto with halt_db]]).

Lemma keeps_halt__do_disconnect : preserves (keeps_halt k) (AC._do_disconnect env).
Proof. unfold AC._do_disconnect. keeps_halt_auto. Qed.
#[local] Hint Resolve keeps_halt__do_disconnect : halt_db.

Lemma keeps_halt__connect : preserves (keeps_halt k) (AC._connect env).
Proof. unfold AC._connect, AC.set_state. keeps_halt_auto. Qed.

Lemma keeps_halt__check_for_timeout : preserves (keeps_halt k) (AC._check_for_timeout env).
Proof.
  unfold AC._check_for_timeout, AC.check_characteristic, AC.last_notif_getitem.
  keeps_halt_auto.
Qed.

Lemma run_loop_halts fuel m :
  halted_past k m → (1 ≤ fuel)%nat → (k + 2 ≤ fuel + AC.awaits m)%nat →
  fst (AC.run_loop env fuel m) ≠ Unfinished.
Proof.
  revert m. induction fuel as [|fuel IH]; intros m Hm H1 H2; [lia|].
  cbn [AC.run_loop]. unfold AC.halt_is_set, AC.field, AC.log_warning, AC.emit.
  unfold_monad. simpl.
  destruct (AC.halt m) eqn:Hh; [done|].
  assert (AC.awaits m ≤ k)%nat as Hle.
  { destruct (decide (k < AC.awaits m)%nat) as [Hlt|]; [|lia].
    apply Hm in Hlt. congruence. }
  destruct (AC.did_disconnect (AC.self m)); [done|]. simpl.
  pose proof (keeps_halt__check_for_timeout m) as [Ha1 Hk1].
  pose proof (finishes__check_for_timeout env m) as Hf1.
  destruct (AC._check_for_timeout env m) as [[[]|e|] m1]; simpl in *; try done.
  pose proof (keeps_halt_await (asyncio_sleep 0.05) m1) as [Ha2 Hk2].
  destruct (awaited_await env (asyncio_sleep 0.05) m1) as [_ Hn].
  pose proof (finishes_await env (asyncio_sleep 0.05) m1) as Hf2.
  destruct (AC.await env (asyncio_sleep 0.05) m1) as [[b|e|] m2]; simpl in *; try done.
  apply IH; [auto | lia | lia].
Qed.

Lemma connect_and_poll_halts fuel m :
  (AC.awaits m ≤ k)%nat → (k + 2 ≤ fuel)%nat →
  fst (AC.connect_and_poll env fuel m) ≠ Unfinished.
Proof.
  intros Hle Hfuel.
  unfold AC.connect_and_poll, AC.field, AC.monotonic_ns. unfold_monad. simpl.
  destruct (AC.did_disconnect (AC.self m)); [done|]. simpl.
  pose proof (keeps_halt__connect m) as [Ha Hk].
  pose proof (finishes__connect env m) as Hf.
  destruct (AC._connect env m) as [[[]|e|] m1]; simpl in *; try done.
  apply run_loop_halts; simpl; [|lia|lia].
  unfold halted_past in *. simpl. apply Hk. lia.
Qed.

End Halting.

Lemma run_unfold env fuel m :
  AC.run env fuel m
  = AC.outer_try (fun m0 => AC.inner_try env (AC.connect_and_poll env fuel) (with_client m0)) m.
Proof. reflexivity. Qed.

(** C6. The state of a connection goes CONNECTING, CONNECTED, DISCONNECTED
    and never back: a run that has ended has the history CONNECTING,
    DISCONNECTED or CONNECTING, CONNECTED, DISCONNECTED and ends in
    DISCONNECTED; a run still polling has the history CONNECTING, CONNECTED.
    A failed attempt (or a disconnect before it) goes from CONNECTING to
    DISCONNECTED directly, and every run ends once the halt Event is set. *)
Theorem connection_state_order env fuel m :
  AC.state (AC.self m) = AC.CONNECTING →
  AC.effects m = [] →
  ((fst (AC.run env fuel m) = Ret tt
    ∧ AC.state (AC.self (snd (AC.run env fuel m))) = AC.DISCONNECTED
    ∧ (state_history m (snd (AC.run env fuel m)) = [AC.CONNECTING; AC.DISCONNECTED]
       ∨ state_history m (snd (AC.run env fuel m))
         = [AC.CONNECTING; AC.CONNECTED; AC.DISCONNECTED]))
   ∨ (fst (AC.run env fuel m) = Unfinished
      ∧ AC.state (AC.self (snd (AC.run env fuel m))) = AC.CONNECTED
      ∧ state_history m (snd (AC.run env fuel m)) = [AC.CONNECTING; AC.CONNECTED]))
  ∧ (AC.did_disconnect (AC.self m) = true
     ∨ (∃ e, fst (AC._connect env (with_client m)) = Raise e) →
     fst (AC.run env fuel m) = Ret tt
     ∧ state_history m (snd (AC.run env fuel m)) = [AC.CONNECTING; AC.DISCONNECTED])
  ∧ (∀ k, AC.HaltSet ∈ AC.arrivals (env k) → (AC.awaits m ≤ k)%nat → (k + 2 ≤ fuel)%nat →
          fst (AC.run env fuel m) = Ret tt).
Proof.
  intros Hstate Heff. rewrite run_unfold. unfold state_history. rewrite Hstate.
  set (body := fun m0 => AC.inner_try env (AC.connect_and_poll env fuel) (with_client m0)).
  pose proof (inner_try_phase env (AC.connect_and_poll env fuel) (with_client m)) as [[Hp1 Hp2] Hu].
  pose proof (connect_and_poll_spec env fuel (with_client m)) as Hcp.
  assert (assigned (AC.effects (with_client m)) = []) as Hnil by (simpl; by rewrite Heff).
  assert (AC.state (AC.self (with_client m)) = AC.CONNECTING) as Hst by done.
  destruct (outer_try_spec body m) as [[Hb Ho]|(Hb & Hr & Hs & Ha & _)]; fold body.
  - (* still polling *)
    rewrite Ho. simpl. unfold body in *. apply Hu in Hb.
    assert (AC.state (AC.self (snd (AC.inner_try env (AC.connect_and_poll env fuel) (with_client m))))
            = AC.CONNECTED
            ∧ assigned (AC.effects (snd (AC.inner_try env (AC.connect_and_poll env fuel) (with_client m))))
              = [AC.CONNECTED]) as [H1 H2].
    { rewrite Hp1, Hp2. destruct Hcp as [[[e He] _]|[? H]]; [congruence|].
      split; [done|]. by rewrite H, Hnil. }
    split_and!.
    + right. by rewrite H1, H2.
    + intros Hfail.
      destruct (connect_and_poll_failed env fuel (with_client m) Hfail) as [[e He] _].
      congruence.
    + intros k Hk Hle Hfuel. exfalso.
      by apply (connect_and_poll_halts env k Hk fuel (with_client m)).
  - (* ended *)
    rewrite Hr, Hs, Ha. unfold body. rewrite Hp2.
    split_and!.
    + left. split_and!; [done..|].
      destruct Hcp as [[_ [_ H]]|[_ H]]; rewrite H, Hnil; simpl; auto.
    + intros Hfail. split; [done|].
      destruct (connect_and_poll_failed env fuel (with_client m) Hfail) as [_ [_ H]].
      by rewrite H, Hnil.
    + done.
Qed.

(** **** Sleeps of the polling loop *)

#[global] Instance no_sleep_preorder : PreOrder no_sleep.
Proof. split; [by intros m | intros m1 m2 m3; unfold no_sleep; congruence]. Qed.

Lemma quiet_no_sleep m m' : quiet m m' → no_sleep m m'.
Proof. intros [H _]. unfold no_sleep, sleeps. by rewrite H. Qed.

Lemma no_sleep_emit ev : (∀ op, ev ≠ Await op) → preserves no_sleep (AC.emit ev).
Proof. intros H m. apply quiet_no_sleep. by apply quiet_emit. Qed.

Lemma sleeps_await env op m :
  sleeps (snd (AC.await env op m)) = (sleeps m + if is_sleep op then 1 else 0)%nat.
Proof.
  destruct (awaited_await env op m) as [H _]. unfold sleeps. rewrite H.
  rewrite filter_app, length_app. f_equal. by destruct op.
Qed.

Lemma no_sleep__do_disconnect env : preserves no_sleep (AC._do_disconnect env).
Proof.
  unfold AC._do_disconnect, AC.field, AC.log_warning.
  repeat (first [preserves_step | by apply no_sleep_emit
                | by apply (preserves_modify no_sleep) ]).
  intros m. unfold no_sleep. rewrite sleeps_await. simpl. lia.
Qed.

Lemma no_sleep__check_for_timeout env : preserves no_sleep (AC._check_for_timeout env).
Proof.
  unfold AC._check_for_timeout, AC.check_characteristic, AC.last_notif_getitem,
    AC.field, AC.monotonic_ns, AC.log_warning.
  repeat (first [preserves_step | by apply no_sleep_emit | apply no_sleep__do_disconnect ]).
Qed.

(** The loop of [run_loop_timed_out] sleeps at most once more. *)
Lemma run_loop_timed_out_sleeps env fuel m char c T t0 :
  AC.con (AC.self m) = Some c →
  char ∈ characteristics (AC.config (AC.self m)) →
  timeout char = Some T →
  AC.last_notif (AC.self m) !! uuid char = Some (Some t0) →
  Qgtb (seconds_since (AC.clock m) t0) T = true →
  (sleeps (snd (AC.run_loop env fuel m)) ≤ S (sleeps m))%nat.
Proof.
  intros Hc Hin HT Hl Hq.
  destruct fuel as [|fuel]; [simpl; lia|].
  cbn [AC.run_loop]. unfold AC.halt_is_set, AC.field, AC.log_warning, AC.emit,
    AC._check_for_timeout. unfold_monad. simpl.
  destruct (AC.halt m) eqn:Hh; [simpl; lia|].
  destruct (AC.did_disconnect (AC.self m)) eqn:Hd.
  { simpl. unfold sleeps. simpl. rewrite awaited_app. simpl. rewrite app_nil_r. lia. }
  destruct (_check_for_timeout_timed_out env _ m char c T t0 Hc Hin HT Hl Hq)
    as (Hf & Hst & Hcases).
  pose proof (no_sleep__check_for_timeout env m) as Hns.
  unfold AC._check_for_timeout, AC.field in Hns. unfold_monad. simpl in Hns.
  unfold no_sleep in Hns.
  destruct (for_each _ _ m) as [[[]|e|] m1]; simpl in *; try lia.
  destruct Hcases as [[[e He] _]|[Hd1 _]]; [done|].
  pose proof (stable_await env (asyncio_sleep 0.05) m1) as Hs2.
  pose proof (sleeps_await env (asyncio_sleep 0.05) m1) as Hsl. simpl in Hsl.
  destruct (AC.await env (asyncio_sleep 0.05) m1) as [[b|e|] m2]; simpl in *; try lia.
  destruct fuel as [|fuel]; [simpl; lia|].
  cbn [AC.run_loop]. unfold AC.halt_is_set, AC.field, AC.log_warning, AC.emit.
  unfold_monad. simpl.
  destruct (AC.halt m2); simpl; [lia|].
  rewrite (st_did _ _ Hs2 Hd1). simpl.
  unfold sleeps in *. simpl. rewrite awaited_app. simpl. rewrite app_nil_r. lia.
Qed.

(** **** [run] from its polling loop on *)

Lemma inner_try_ext env (body1 body2 : M AC.Machine unit) m1 m2 :
  body1 m1 = body2 m2 → AC.inner_try env body1 m1 = AC.inner_try env body2 m2.
Proof. intros H. unfold AC.inner_try. unfold_monad. by rewrite H. Qed.

Lemma outer_try_ext (body1 body2 : M AC.Machine unit) m1 m2 :
  body1 m1 = body2 m2 → AC.name (AC.self m1) = AC.name (AC.self m2) →
  AC.outer_try body1 m1 = AC.outer_try body2 m2.
Proof.
  intros H Hn. unfold AC.outer_try, AC.field. unfold_monad. simpl. by rewrite H, Hn.
Qed.

#[global] Instance same_name_preorder : PreOrder same_name.
Proof. split; [by intros m | intros m1 m2 m3; unfold same_name; congruence]. Qed.

Lemma same_name__connect env : preserves same_name (AC._connect env).
Proof.
  assert (∀ A (c : M AC.Machine A), preserves stable c → preserves same_name c) as Hw.
  { intros A c. apply preserves_weaken. by intros ?? []. }
  unfold AC._connect, AC.set_state.
  repeat (first [preserves_step | by apply (preserves_modify same_name)
                | apply Hw; solve [eauto with stable_db] ]).
Qed.

(** Once [_connect] has returned, [run] goes on as [run_from_loop]. *)
Lemma run_reaches_loop env fuel m m1 :
  AC.did_disconnect (AC.self m) = false →
  AC._connect env (with_client m) = (Ret tt, m1) →
  AC.run env fuel m = run_from_loop env fuel (with_connection_time m1).
Proof.
  intros Hd Hc. rewrite run_unfold. unfold run_from_loop.
  apply outer_try_ext.
  - apply inner_try_ext.
    unfold AC.connect_and_poll, AC.field, AC.monotonic_ns. unfold_monad. simpl.
    rewrite Hd. simpl. by rewrite Hc.
  - pose proof (same_name__connect env (with_client m)) as H.
    rewrite Hc in H. unfold same_name in H. simpl in *. congruence.
Qed.

Lemma inner_try_torn env body m c :
  fst (body m) ≠ Unfinished →
  AC.con (AC.self (snd (body m))) = Some c →
  fst (AC.inner_try env body m) ≠ Unfinished
  ∧ torn (snd (body m)) (snd (AC.inner_try env body m)).
Proof.
  intros Hf Hc. unfold AC.inner_try. unfold_monad.
  destruct (body m) as [[[]|e|] m1]; simpl in *; try done.
  - pose proof (torn__do_disconnect env m1 c Hc) as Ht.
    pose proof (finishes__do_disconnect env m1) as Hfd.
    destruct (AC._do_disconnect env m1) as [[[]|?|] m2]; simpl in *; done.
  - pose proof (torn__do_disconnect env m1 c Hc) as Ht.
    pose proof (finishes__do_disconnect env m1) as Hfd.
    destruct e; simpl;
      destruct (AC._do_disconnect env m1) as [[[]|?|] m2]; simpl in *; done.
Qed.

Lemma torn_sleeps m m' : torn m m' → sleeps m' = sleeps m.
Proof.
  intros (_ & H & _). unfold sleeps. rewrite H, filter_app, length_app. simpl. lia.
Qed.

(** What [run_from_loop] leaves when its loop has ended: the cleanup has
    called [con.disconnect()] once more and the state is DISCONNECTED. *)
Lemma run_from_loop_ended env fuel m c :
  AC.con (AC.self m) = Some c →
  fst (AC.run_loop env fuel m) ≠ Unfinished →
  fst (run_from_loop env fuel m) = Ret tt
  ∧ AC.state (AC.self (snd (run_from_loop env fuel m))) = AC.DISCONNECTED
  ∧ disconnect_calls (snd (run_from_loop env fuel m))
    = S (disconnect_calls (snd (AC.run_loop env fuel m)))
  ∧ sleeps (snd (run_from_loop env fuel m)) = sleeps (snd (AC.run_loop env fuel m)).
Proof.
  intros Hc Hf.
  assert (AC.con (AC.self (snd (AC.run_loop env fuel m))) = Some c) as Hc1.
  { rewrite <- Hc. apply (stable_run_loop env fuel m). }
  destruct (inner_try_torn env (AC.run_loop env fuel) m c Hf Hc1) as [Hfi Ht].
  unfold run_from_loop.
  destruct (outer_try_spec (AC.inner_try env (AC.run_loop env fuel)) m)
    as [[Hb _]|(_ & Hr & Hs & _ & Ha)]; [done|].
  split_and!; auto.
  - rewrite <- (torn_calls _ _ Ht). unfold disconnect_calls. by rewrite Ha.
  - rewrite <- (torn_sleeps _ _ Ht). unfold sleeps. by rewrite Ha.
Qed.

(** **** The health check *)

(** C1, as stated, fails: in this run no notification ever arrives; at the
    poll 11.55 s after the connection time (timeout 1.5 s, initial timeout
    10 s) the warning is logged, [con.disconnect()] is awaited at once, and
    the loop stops at its next iteration, 232 sleeps into a bound of 1000. *)
Lemma never_received_is_disconnected :
  fst (AC.run silent_env 1000 fresh_connection) = Ret tt
  ∧ AC.state (AC.self (snd (AC.run silent_env 1000 fresh_connection))) = AC.DISCONNECTED
  ∧ AC.did_disconnect (AC.self (snd (AC.run silent_env 1000 fresh_connection))) = true
  ∧ sleeps (snd (AC.run silent_env 1000 fresh_connection)) = 232%nat
  ∧ drop 237 (AC.effects (snd (AC.run silent_env 1000 fresh_connection)))
    = [ Log WARNING "SP-Case: Never received a notification for ppg_red, disconnecting...";
        Await con_disconnect;
        Log WARNING "Disconnected from SP-Case.";
        Await (asyncio_sleep 0.05);
        Log WARNING "Connection to SP-Case lost!";
        Await con_disconnect;
        Log WARNING "Disconnected from SP-Case.";
        Assign AC.DISCONNECTED ].
Proof. vm_compute. repeat split; reflexivity. Qed.

(** C1, amended. In the health check, for a characteristic with a timeout
    for which no notification was ever received, when an initial timeout is
    configured and the time since the connection exceeds the sum of both:
    the warning is logged and the disconnect is forced, that is
    [con.disconnect()] is called once and [did_disconnect] is set; the
    polling loop then stops at its next iteration. *)
Theorem never_received_forces_disconnect env m char c T G t0 :
  AC.con (AC.self m) = Some c →
  timeout char = Some T →
  AC.last_notif (AC.self m) !! uuid char = Some None →
  initial_characteristic_timeout (AC.config (AC.self m)) = Some G →
  AC.initial_connection_time (AC.self m) = Some t0 →
  Qgtb (seconds_since (AC.clock m) t0) (T + G)%Q = true →
  never_received_warning m char ∈ AC.effects (snd (AC.check_characteristic env char m))
  ∧ disconnect_calls (snd (AC.check_characteristic env char m)) = S (disconnect_calls m)
  ∧ AC.did_disconnect (AC.self (snd (AC.check_characteristic env char m))) = true
  ∧ (∀ fuel m2, AC.did_disconnect (AC.self m2) = true → AC.halt m2 = false →
       fst (AC.run_loop env (S fuel) m2) = Raise ActiveConnectionException).
Proof.
  intros Hc HT Hl HG Hi Hq.
  destruct (check_characteristic_never_received env m char c T G t0) as (_ & Ht & Hw); auto.
  pose proof (torn_calls _ _ Ht) as Hcalls. destruct Ht as (Hdid & _ & _).
  split_and!; auto.
  intros fuel m2 Hd Hh. cbn [AC.run_loop].
  unfold AC.halt_is_set, AC.field, AC.log_warning, AC.emit. unfold_monad. simpl.
  by rewrite Hh, Hd.
Qed.

Lemma never_received_forces_disconnect_witness :
  never_received_warning overdue ppg_red
    ∈ AC.effects (snd (AC.check_characteristic silent_env ppg_red overdue))
  ∧ disconnect_calls (snd (AC.check_characteristic silent_env ppg_red overdue)) = 1%nat.
Proof.
  destruct (never_received_forces_disconnect silent_env overdue ppg_red
              (AC.mkBleakClient "EB:E5:31:BF:2E:B5" 20) 1.5%Q 10%Q 0) as (H1 & H2 & _);
    [reflexivity | reflexivity | reflexivity | reflexivity | reflexivity | reflexivity |].
  split; [exact H1 | exact H2].
Defined.

(** C5, as stated, fails: the last notification of [ppg_red] (timeout 1.5 s)
    is at [t0 = 0] and none has arrived when the clock is at 1.5 s (30 polls
    and sleeps); one arrives at 1.54 s, before the poll at 1.55 s; after 61
    polls, at 3.05 s, the connection is still CONNECTED and
    [con.disconnect()] was never called. *)
Lemma late_notification_hides_timeout :
  AC.clock (snd (AC.run late_env 30 fresh_connection)) = 1500000000
  ∧ AC.last_notif (AC.self (snd (AC.run late_env 30 fresh_connection))) !! uuid ppg_red = Some (Some 0)
  ∧ fst (AC.run late_env 61 fresh_connection) = Unfinished
  ∧ AC.clock (snd (AC.run late_env 61 fresh_connection)) = 3050000000
  ∧ AC.last_notif (AC.self (snd (AC.run late_env 61 fresh_connection))) !! uuid ppg_red
    = Some (Some 1540000000)
  ∧ AC.state (AC.self (snd (AC.run late_env 61 fresh_connection))) = AC.CONNECTED
  ∧ disconnect_calls (snd (AC.run late_env 61 fresh_connection)) = 0%nat.
Proof. vm_compute. repeat split; reflexivity. Qed.

(** C5, amended. When the polling loop starts an iteration and more than
    the timeout [T] of a characteristic has passed since its last recorded
    notification [t0], the connection is torn down: [run] ends with state
    DISCONNECTED, [con.disconnect()] has been called, and the loop has slept
    at most once more.  A notification that arrives after [t0 + T] but
    before that iteration resets the timeout. *)
Theorem expired_timeout_tears_down env fuel m char i c T t0 :
  (2 ≤ fuel)%nat →
  AC.con (AC.self m) = Some c →
  characteristics (AC.config (AC.self m)) !! i = Some char →
  timeout char = Some T →
  AC.last_notif (AC.self m) !! uuid char = Some (Some t0) →
  Qgtb (seconds_since (AC.clock m) t0) T = true →
  fst (run_from_loop env fuel m) = Ret tt
  ∧ AC.state (AC.self (snd (run_from_loop env fuel m))) = AC.DISCONNECTED
  ∧ (S (disconnect_calls m) ≤ disconnect_calls (snd (run_from_loop env fuel m)))%nat
  ∧ (sleeps (snd (run_from_loop env fuel m)) ≤ S (sleeps m))%nat
  ∧ (∀ m0 m1, AC.did_disconnect (AC.self m0) = false →
       AC._connect env (with_client m0) = (Ret tt, m1) →
       AC.run env fuel m0 = run_from_loop env fuel (with_connection_time m1)).
Proof.
  intros Hfuel Hc Hi HT Hl Hq.
  apply list_elem_of_lookup_2 in Hi.
  destruct (run_loop_timed_out env fuel m char c T t0) as [Hf _]; auto.
  destruct (run_from_loop_ended env fuel m c Hc Hf) as (Hr & Hs & Hcalls & Hsl).
  pose proof (run_loop_timed_out_sleeps env fuel m char c T t0 Hc Hi HT Hl Hq).
  pose proof (st_calls _ _ (stable_run_loop env fuel m)).
  split_and!; auto; try lia.
  intros m0 m1. apply run_reaches_loop.
Qed.

Lemma expired_timeout_tears_down_witness :
  fst (run_from_loop silent_env 2 expired) = Ret tt
  ∧ AC.state (AC.self (snd (run_from_loop silent_env 2 expired))) = AC.DISCONNECTED.
Proof.
  destruct (expired_timeout_tears_down silent_env 2 expired ppg_red 0
              (AC.mkBleakClient "EB:E5:31:BF:2E:B5" 20) 1.5%Q 0) as (H1 & H2 & _);
    [lia | reflexivity | reflexivity | reflexivity | reflexivity | reflexivity |].
  split; [exact H1 | exact H2].
Defined.

(** The timeout path calls [con.disconnect()] in the health check and again
    in the cleanup of [run]. *)
Lemma timeout_path_disconnects_twice env fuel m char i c T t0 t1 :
  (2 ≤ fuel)%nat →
  AC.con (AC.self m) = Some c →
  AC.halt m = false →
  AC.did_disconnect (AC.self m) = false →
  AC.initial_connection_time (AC.self m) = Some t1 →
  forallb (fun c' => bool_decide (is_Some (AC.last_notif (AC.self m) !! uuid c')))
    (characteristics (AC.config (AC.self m))) = true →
  characteristics (AC.config (AC.self m)) !! i = Some char →
  timeout char = Some T →
  AC.last_notif (AC.self m) !! uuid char = Some (Some t0) →
  Qgtb (seconds_since (AC.clock m) t0) T = true →
  fst (run_from_loop env fuel m) = Ret tt
  ∧ (S (S (disconnect_calls m)) ≤ disconnect_calls (snd (run_from_loop env fuel m)))%nat.
Proof.
  intros Hfuel Hc Hh Hd Ht1 Hdom Hi HT Hl Hq.
  apply list_elem_of_lookup_2 in Hi.
  destruct (run_loop_timed_out env fuel m char c T t0) as [Hf Hcalls]; auto.
  destruct (run_from_loop_ended env fuel m c Hc Hf) as (Hr & _ & Hcl & _).
  split; [done|]. rewrite Hcl.
  assert (S (disconnect_calls m) ≤ disconnect_calls (snd (AC.run_loop env fuel m)))%nat; [|lia].
  apply Hcalls; eauto.
  intros c' Hc'. rewrite forallb_forall in Hdom.
  apply list_elem_of_In in Hc'. specialize (Hdom c' Hc'). by apply bool_decide_eq_true in Hdom.
Qed.

(** **** The notification callback *)

Lemma _notif_callback_decoded data char m rows :
  data_decoder char data = Rows rows → rows ≠ [] →
  AC._notif_callback data char m
  = let m1 := AC.with_self (fun a => AC.with_last_notif
                               (<[uuid char := Some (AC.clock m)]> (AC.last_notif a)) a) m in
    let result := mkNotifData (AC.adr (AC.self m)) (AC.name (AC.self m)) char rows data in
    match Queue.put_nowait result (AC.output m) with
    | Some q' => (Ret tt, AC.with_output q' m1)
    | None =>
        (Ret tt, AC.with_effects
                   (AC.effects m ++ [Log ERROR (AC.name (AC.self m) +:+ " failed to put data into queue!")])
                   m1)
    end.
Proof.
  intros Hdec Hrows.
  unfold AC._notif_callback, AC.monotonic_ns, AC.field, AC.output_put_nowait, AC.log_error,
    AC.emit. unfold_monad. simpl. rewrite Hdec.
  destruct rows as [|row rows]; [done|]. simpl.
  by destruct (Queue.put_nowait _ _).
Qed.

(** C7. The notification callback never waits for the output queue: it
    returns without any suspension; when the queue is full exactly the new
    record is dropped and an error is logged, and the records already queued
    stay as they are; otherwise the record is appended.  With capacity 1 and
    two notifications in a row, the first is queued and the second is
    dropped with an error logged. *)
Theorem notification_never_blocks data char m rows :
  data_decoder char data = Rows rows →
  rows ≠ [] →
  fst (AC._notif_callback data char m) = Ret tt
  ∧ AC.awaits (snd (AC._notif_callback data char m)) = AC.awaits m
  ∧ awaited (AC.effects (snd (AC._notif_callback data char m))) = awaited (AC.effects m)
  ∧ (Queue.full (AC.output m) = true →
       Queue.items (AC.output (snd (AC._notif_callback data char m))) = Queue.items (AC.output m)
       ∧ AC.effects (snd (AC._notif_callback data char m))
         = AC.effects m
           ++ [Log ERROR (AC.name (AC.self m) +:+ " failed to put data into queue!")])
  ∧ (Queue.full (AC.output m) = false →
       Queue.items (AC.output (snd (AC._notif_callback data char m)))
       = Queue.items (AC.output m)
         ++ [mkNotifData (AC.adr (AC.self m)) (AC.name (AC.self m)) char rows data]
       ∧ AC.effects (snd (AC._notif_callback data char m)) = AC.effects m)
  ∧ (∀ data2 rows2,
       AC.output m = Queue.mkQueue 1 [] →
       data_decoder char data2 = Rows rows2 → rows2 ≠ [] →
       Queue.items (AC.output (snd (AC._notif_callback data2 char
                                      (snd (AC._notif_callback data char m)))))
       = [mkNotifData (AC.adr (AC.self m)) (AC.name (AC.self m)) char rows data]
       ∧ AC.effects (snd (AC._notif_callback data2 char (snd (AC._notif_callback data char m))))
         = AC.effects m
           ++ [Log ERROR (AC.name (AC.self m) +:+ " failed to put data into queue!")]).
Proof.
  intros Hdec Hrows.
  pose proof (quiet__notif_callback data char m) as [Hq1 Hq2].
  rewrite (_notif_callback_decoded data char m rows Hdec Hrows) in *.
  unfold Queue.put_nowait in *.
  split_and!.
  - by destruct (Queue.full (AC.output m)).
  - done.
  - done.
  - intros Hfull. by rewrite Hfull.
  - intros Hfull. by rewrite Hfull.
  - intros data2 rows2 Hq Hdec2 Hrows2.
    rewrite (_notif_callback_decoded data2 char _ rows2 Hdec2 Hrows2).
    rewrite Hq. simpl. done.
Qed.

Lemma notification_never_blocks_witness :
  fst (AC._notif_callback [] ppg_red fresh_connection) = Ret tt
  ∧ AC.awaits (snd (AC._notif_callback [] ppg_red fresh_connection)) = AC.awaits fresh_connection.
Proof.
  destruct (notification_never_blocks [] ppg_red fresh_connection [["1"; "2"]]) as (H1 & H2 & _);
    [reflexivity | discriminate |].
  split; [exact H1 | exact H2].
Defined.

(** C9. The timestamp of a notification is recorded before its payload is
    decoded, so it is recorded whatever the decoder does (rows, no rows, an
    exception); a health check that runs no later than the timeout after it
    leaves the connection alone for that characteristic. *)
Theorem undecodable_notification_resets_timeout env data char m T :
  timeout char = Some T →
  fst (AC._notif_callback data char m) = Ret tt
  ∧ AC.last_notif (AC.self (snd (AC._notif_callback data char m))) !! uuid char
    = Some (Some (AC.clock m))
  ∧ (∀ m2, AC.last_notif (AC.self m2) !! uuid char = Some (Some (AC.clock m)) →
       Qgtb (seconds_since (AC.clock m2) (AC.clock m)) T = false →
       AC.check_characteristic env char m2 = (Ret tt, m2)).
Proof.
  intros HT. split_and!.
  - unfold AC._notif_callback, AC.monotonic_ns, AC.field, AC.output_put_nowait, AC.log_error,
      AC.log_exception, AC.emit. unfold_monad. simpl.
    destruct (data_decoder char data) as [[|row rows]|e]; simpl; try done.
    by destruct (Queue.put_nowait _ _).
  - unfold AC._notif_callback, AC.monotonic_ns, AC.field, AC.output_put_nowait, AC.log_error,
      AC.log_exception, AC.emit. unfold_monad. simpl.
    destruct (data_decoder char data) as [[|row rows]|e]; simpl;
      try apply lookup_insert_eq.
    destruct (Queue.put_nowait _ _); simpl; apply lookup_insert_eq.
  - intros m2 Hl Hq.
    unfold AC.check_characteristic. rewrite HT.
    unfold AC.last_notif_getitem, AC.field, AC.monotonic_ns. unfold_monad. simpl.
    rewrite Hl. simpl. by rewrite Hq.
Qed.

Lemma undecodable_notification_resets_timeout_witness :
  AC.last_notif (AC.self (snd (AC._notif_callback [] broken expired))) !! uuid broken
  = Some (Some 2000000000).
Proof.
  destruct (undecodable_notification_resets_timeout silent_env [] broken expired 1.5%Q)
    as (_ & H & _); [reflexivity|].
  exact H.
Defined.

Lemma connection_state_order_witness :
  fst (AC.run silent_env 1000 fresh_connection) = Ret tt
  ∧ AC.state (AC.self (snd (AC.run silent_env 1000 fresh_connection))) = AC.DISCONNECTED
  ∧ state_history fresh_connection (snd (AC.run silent_env 1000 fresh_connection))
    = [AC.CONNECTING; AC.CONNECTED; AC.DISCONNECTED].
Proof.
  destruct (connection_state_order silent_env 1000 fresh_connection) as [[(H1 & H2 & _)|(H & _)] _];
    [reflexivity | reflexivity | | vm_compute in H; discriminate].
  split; [exact H1 | split; [exact H2 | reflexivity]].
Defined.

(** ** Scanner *)

Section ScannerKeys.

Variable normalise_adr : string → string.
Variable re_match : string → string → bool.

Lemma init_keys config k dev :
  SC.seen_devices (SC.__init__ config) !! k = Some dev →
  SC.adr dev = k ∧ k ∈ connect_device_adrs config.
Proof.
  unfold SC.__init__. simpl.
  set (f := fun (seen : gmap string SC.SeenDevice) (adr : string) => _).
  assert (∀ l (acc : gmap string SC.SeenDevice),
            (∀ k dev, acc !! k = Some dev → SC.adr dev = k ∧ k ∈ connect_device_adrs config) →
            (∀ a, a ∈ l → a ∈ connect_device_adrs config) →
            ∀ k dev, foldl f acc l !! k = Some dev →
                     SC.adr dev = k ∧ k ∈ connect_device_adrs config) as H.
  { induction l as [|a l IH]; intros acc Hacc Hl k' dev'; simpl; [apply Hacc|].
    apply IH.
    - intros k2 dev2. unfold f. destruct (decide (a = k2)) as [->|Hne].
      + rewrite lookup_insert_eq. intros [= <-]. simpl. split; [done|].
        apply Hl, elem_of_cons. by left.
      + rewrite lookup_insert_ne by done. apply Hacc.
    - intros a' Ha'. apply Hl, elem_of_cons. by right. }
  apply H; [|done]. intros k' dev'. by rewrite lookup_empty.
Qed.

Lemma update_scanned_keys self t seen d k dev :
  SC.update_scanned normalise_adr re_match self t seen d !! k = Some dev →
  (seen !! k = Some dev)
  ∨ (k = normalise_adr (SC.address (fst d))
     ∧ (SC.adr dev = k ∨ ∃ old, seen !! k = Some old ∧ SC.adr dev = SC.adr old)).
Proof.
  destruct d as [scanned_dev adv_data]. unfold SC.update_scanned. simpl.
  destruct (seen !! normalise_adr (SC.address scanned_dev)) as [old|] eqn:Hold.
  - destruct (decide (normalise_adr (SC.address scanned_dev) = k)) as [<-|Hne].
    + rewrite lookup_insert_eq. intros [= <-]. right. split; [done|]. right. eauto.
    + rewrite lookup_insert_ne by done. auto.
  - clear Hold. generalize (SC.name_regexes self). intros rs. revert seen.
    induction rs as [|r rs IH]; intros seen; simpl; [auto|].
    intros H. apply IH in H. destruct H as [H|H].
    + destruct (SC.device_name scanned_dev) as [n|]; [|auto].
      destruct (re_match r n); [|auto].
      destruct (decide (normalise_adr (SC.address scanned_dev) = k)) as [<-|Hne].
      * rewrite lookup_insert_eq in H. injection H as <-. right. split; [done|]. by left.
      * rewrite lookup_insert_ne in H by done. auto.
    + destruct H as [-> [H|(old & Hold & H)]]; [right; split; [done|by left]|].
      destruct (SC.device_name scanned_dev) as [n|]; [|right; split; [done|]; right; eauto].
      destruct (re_match r n); [|right; split; [done|]; right; eauto].
      rewrite lookup_insert_eq in Hold. injection Hold as <-. simpl in H.
      right. split; [done|]. by left.
Qed.

Lemma age_adr self now dev : SC.adr (SC.age self now dev) = SC.adr dev.
Proof.
  unfold SC.age. destruct (SC.state dev); [done|].
  destruct (SC.last_seen dev); [|done]. by destruct (Qgtb _ _).
Qed.

Lemma _update_seen_devices_keys self devices t now k dev :
  keyed (SC.seen_devices self) →
  SC.seen_devices (SC._update_seen_devices normalise_adr re_match self devices t now) !! k
  = Some dev →
  SC.adr dev = k
  ∧ (is_Some (SC.seen_devices self !! k)
     ∨ ∃ d, d ∈ devices ∧ k = normalise_adr (SC.address (fst d))).
Proof.
  intros Hkeyed. unfold SC._update_seen_devices. simpl.
  rewrite lookup_fmap. intros H.
  destruct (foldl _ _ _ !! k) as [dev0|] eqn:H0; [|done].
  simpl in H. injection H as <-. rewrite age_adr.
  revert dev0 H0. generalize (SC.seen_devices self) Hkeyed.
  induction devices as [|d devices IH] using rev_ind; intros seen Hseen dev0; simpl.
  - intros H. split; [by apply Hseen | eauto].
  - rewrite foldl_app. simpl. intros H.
    apply update_scanned_keys in H as [H|[-> H]].
    + destruct (IH seen Hseen dev0 H) as [? [?|(d' & ? & ?)]]; split; auto.
      right. exists d'. split; [|done]. apply elem_of_app. by left.
    + assert (∃ d0, d0 ∈ devices ++ [d]
                    ∧ normalise_adr (SC.address (fst d)) = normalise_adr (SC.address (fst d0)))
        as Hd.
      { exists d. split; [|done]. apply elem_of_app. right. by apply list_elem_of_singleton. }
      destruct H as [H|(old & Hold & H)]; [split; auto|].
      destruct (IH seen Hseen old Hold) as [? _]. split; [congruence|auto].
Qed.

Lemma updates_keys config batches k dev :
  SC.seen_devices (updates normalise_adr re_match (SC.__init__ config) batches) !! k = Some dev →
  SC.adr dev = k ∧ key_origin normalise_adr config batches k.
Proof.
  revert k dev. induction batches as [|[[devices t] now] batches IH] using rev_ind;
    intros k dev; unfold updates in *; simpl.
  - intros H. apply init_keys in H as [? ?]. split; [done|]. by left.
  - rewrite foldl_app. simpl. intros H.
    apply _update_seen_devices_keys in H as [Hadr H].
    + split; [done|]. destruct H as [[old Hold]|(d & Hd & ->)].
      * destruct (IH k old Hold) as [_ [?|(ds & t' & now' & d & ? & ? & ?)]]; [by left|].
        right. exists ds, t', now', d. split_and!; auto. apply elem_of_app. by left.
      * right. exists devices, t, now, d. split_and!; auto.
        apply elem_of_app. right. by apply list_elem_of_singleton.
    + intros k' dev' H'. by apply IH in H' as [? _].
Qed.

End ScannerKeys.

(** C3, as stated, fails: with upper case as the normal form, an allow-list
    address written in lower case is a key of the table as it is written;
    a scan that finds the device looks it up under the upper-case address,
    finds no record and leaves the pre-populated one NOT_SEEN. *)
Lemma allow_list_key_not_normalised :
  SC.adr <$> SC.seen_devices (SC.__init__ lower_case_config) !! "eb:e5:31:bf:2e:b5"
  = Some "eb:e5:31:bf:2e:b5"
  ∧ upper "eb:e5:31:bf:2e:b5" ≠ "eb:e5:31:bf:2e:b5"
  ∧ SC.seen_devices (updates upper (fun _ _ => false) (SC.__init__ lower_case_config) one_scan)
      !! upper "EB:E5:31:BF:2E:B5" = None
  ∧ SC.state <$> SC.seen_devices
                   (updates upper (fun _ _ => false) (SC.__init__ lower_case_config) one_scan)
                   !! "eb:e5:31:bf:2e:b5"
    = Some SC.NOT_SEEN.
Proof. vm_compute. repeat split; (reflexivity || discriminate). Qed.

(** C3, amended. Every record of the table is filed under its own [adr].
    A key added by an update is the normalised form of the scanned address;
    a pre-populated key is the allow-list address as configured, which
    [__init__] does not normalise.  So every key is in normalised form when
    the addresses of the allow-list are, and a scanned device whose
    normalised address is a key finds the record and refreshes it. *)
Theorem registry_keys_normalised normalise_adr re_match config batches k dev :
  forallb (fun a => String.eqb (normalise_adr a) a) (connect_device_adrs config) = true →
  SC.seen_devices (updates normalise_adr re_match (SC.__init__ config) batches) !! k = Some dev →
  SC.adr dev = k
  ∧ ((k ∈ connect_device_adrs config ∧ k = normalise_adr k)
     ∨ (∃ devices t now d, (devices, t, now) ∈ batches ∧ d ∈ devices
                           ∧ k = normalise_adr (SC.address (fst d))))
  ∧ (∀ self t seen scanned_dev adv_data,
       normalise_adr (SC.address scanned_dev) = k →
       seen !! k = Some dev →
       SC.update_scanned normalise_adr re_match self t seen (scanned_dev, adv_data) !! k
       = Some {| SC.adr := SC.adr dev; SC.alias := SC.alias dev; SC.state := SC.RECENTLY_SEEN;
                 SC.name := SC.device_name scanned_dev; SC.last_seen := Some t;
                 SC.rssi := Some (SC.adv_rssi adv_data) |}).
Proof.
  intros Hnorm Hk.
  destruct (updates_keys normalise_adr re_match config batches k dev Hk) as [Hadr Ho].
  split; [done|]. split.
  - destruct Ho as [Hin|Hscan]; [left|by right].
    split; [done|]. rewrite forallb_forall in Hnorm.
    apply list_elem_of_In in Hin. apply Hnorm in Hin. by apply String.eqb_eq in Hin.
  - intros self t seen scanned_dev adv_data Hn Hseen.
    unfold SC.update_scanned. simpl. rewrite Hn, Hseen. apply lookup_insert_eq.
Qed.

Lemma registry_keys_normalised_witness :
  ∃ dev,
    SC.seen_devices (updates upper (fun _ _ => false) (SC.__init__ example_config) one_scan)
      !! "EB:E5:31:BF:2E:B5" = Some dev
    ∧ SC.adr dev = "EB:E5:31:BF:2E:B5".
Proof.
  eexists. split; [reflexivity|].
  refine (proj1 (registry_keys_normalised upper (fun _ _ => false) example_config one_scan
                   "EB:E5:31:BF:2E:B5" _ _ _)); reflexivity.
Defined.

(** **** Exceptions in the scanner loop *)

Lemma scanner_loop_raise env normalise_adr re_match fuel m e m1 :
  SC.halt m = false →
  SC.scan_cycle normalise_adr re_match env m = (Raise e, m1) →
  e ≠ TimeoutError →
  SC.run_loop normalise_adr re_match env (S fuel) m = (Raise e, m1).
Proof.
  intros Hh Hc He. cbn [SC.run_loop]. unfold SC.halt_is_set. unfold_monad. simpl.
  rewrite Hh, Hc. by destruct e.
Qed.

Lemma scanner_loop_timeout env normalise_adr re_match fuel m m1 :
  SC.halt m = false →
  SC.scan_cycle normalise_adr re_match env m = (Raise TimeoutError, m1) →
  SC.run_loop normalise_adr re_match env (S fuel) m
  = SC.run_loop normalise_adr re_match env fuel
      (SC.mkMachine (SC.self m1) (SC.clock m1) (SC.halt m1) (SC.awaits m1)
         (SC.effects m1 ++ [Log WARNING "Scanner time out..."])).
Proof.
  intros Hh Hc. cbn [SC.run_loop]. unfold SC.halt_is_set, SC.log_warning, SC.emit.
  unfold_monad. simpl. by rewrite Hh, Hc.
Qed.

Lemma scanner_run_escalates env normalise_adr re_match fuel m e m1 :
  SC.run_loop normalise_adr re_match env fuel m = (Raise e, m1) →
  SC.run normalise_adr re_match env fuel m
  = (Ret tt,
     SC.mkMachine (SC.self m1) (SC.clock m1) true (SC.awaits m1)
       (SC.effects m1 ++ [Log ERROR ("Scanner encountered an exception: " +:+ str e);
                          LogException e; Print "Scanner shut down..."])).
Proof.
  intros H. unfold SC.run, SC.log_error, SC.log_exception, SC.halt_set, SC.print, SC.emit.
  unfold_monad. rewrite H. simpl. by rewrite <- !app_assoc.
Qed.

(** *** CSVLogger *)

#[global] Instance writer_stable_preorder : PreOrder writer_stable.
Proof.
  split.
  - intros m. by split.
  - intros m1 m2 m3 [] []. split; try congruence; auto. by etrans.
Qed.

#[global] Instance no_close_preorder : PreOrder no_close.
Proof.
  split; [by intros m | intros m1 m2 m3 [] []; split; congruence].
Qed.

Lemma writer_stable_deliver m a : writer_stable m (LG.deliver m a).
Proof. destruct a; by split. Qed.

Lemma writer_stable_foldl_deliver l m : writer_stable m (foldl LG.deliver m l).
Proof.
  revert m. induction l as [|a l IH]; intros m; simpl; [reflexivity|].
  etrans; [apply writer_stable_deliver | apply IH].
Qed.

Lemma writer_deliver_quiet m a :
  LG.effects (LG.deliver m a) = LG.effects m
  ∧ LG.active (LG.self (LG.deliver m a)) = LG.active (LG.self m)
  ∧ LG.f (LG.deliver m a) = LG.f m
  ∧ LG.fs (LG.deliver m a) = LG.fs m
  ∧ LG.awaits (LG.deliver m a) = LG.awaits m.
Proof. by destruct a. Qed.

Lemma writer_foldl_deliver_quiet l m :
  LG.effects (foldl LG.deliver m l) = LG.effects m
  ∧ LG.active (LG.self (foldl LG.deliver m l)) = LG.active (LG.self m)
  ∧ LG.f (foldl LG.deliver m l) = LG.f m
  ∧ LG.fs (foldl LG.deliver m l) = LG.fs m
  ∧ LG.awaits (foldl LG.deliver m l) = LG.awaits m.
Proof.
  revert m. induction l as [|a l IH]; intros m; simpl; [done|].
  destruct (IH (LG.deliver m a)) as (-> & -> & -> & -> & ->). apply writer_deliver_quiet.
Qed.

(** [await op]: one more awaited call; the callbacks change neither the
    effects, nor [active], nor the file, nor the files on disk. *)
Lemma writer_await_spec env op m :
  LG.effects (snd (LG.await env op m)) = LG.effects m ++ [Await op]
  ∧ LG.active (LG.self (snd (LG.await env op m))) = LG.active (LG.self m)
  ∧ LG.f (snd (LG.await env op m)) = LG.f m
  ∧ LG.fs (snd (LG.await env op m)) = LG.fs m
  ∧ LG.awaits (snd (LG.await env op m)) = S (LG.awaits m)
  ∧ writer_stable m (snd (LG.await env op m))
  ∧ fst (LG.await env op m) ≠ Unfinished
  ∧ (LG.outcome (env (LG.awaits m)) = LG.Returns → fst (LG.await env op m) = Ret tt).
Proof.
  unfold LG.await. set (m1 := LG.mkMachine _ _ _ _ _ _).
  destruct (writer_foldl_deliver_quiet (LG.arrivals (env (LG.awaits m))) m1)
    as (He & Ha & Hf & Hfs & Hn).
  pose proof (writer_stable_foldl_deliver (LG.arrivals (env (LG.awaits m))) m1) as Hs.
  assert (writer_stable m m1) as H1.
  { split; simpl; auto. by apply prefix_app_r. }
  destruct (LG.outcome _); simpl; split_and!; try done; by etrans.
Qed.

Lemma writer_stable_await env op : preserves writer_stable (LG.await env op).
Proof. intros m. apply writer_await_spec. Qed.

Lemma finishes_writer_await env op : finishes (LG.await env op).
Proof. intros m. apply writer_await_spec. Qed.

Lemma closes_await env op m :
  closes (snd (LG.await env op m)) = (closes m + if is_close op then 1 else 0)%nat.
Proof.
  destruct (writer_await_spec env op m) as (He & _). unfold closes. rewrite He.
  rewrite awaited_app, filter_app, length_app. f_equal. by destruct op.
Qed.

Lemma no_close_await env op : is_close op = false → preserves no_close (LG.await env op).
Proof.
  intros Hop m. split.
  - rewrite closes_await, Hop. lia.
  - apply writer_await_spec.
Qed.

Lemma no_close_emit ev : (∀ op, ev ≠ Await op) → preserves no_close (LG.emit ev).
Proof.
  intros Hev. apply (preserves_modify no_close). intros m. split; [|done].
  unfold closes. simpl. rewrite awaited_app.
  destruct ev; simpl; rewrite ?app_nil_r; try done. by destruct (Hev op).
Qed.

Ltac writer_auto R tac :=
  repeat (first [ preserves_step
                | apply (preserves_modify R); intros ?; by tac
                | tac ]).

Lemma no_close_open_file env : preserves no_close (LG.open_file env).
Proof.
  unfold LG.open_file, LG.aiofiles_open_, LG.write_row, LG.f_write_, LG.os_path_exists.
  repeat (first [ preserves_step
                | by apply (preserves_modify no_close)
                | by apply no_close_await ]).
Qed.

Lemma no_close_run_loop env fuel : preserves no_close (LG.run_loop env fuel).
Proof.
  induction fuel as [|fuel IH]; simpl; [apply (preserves_unfinished no_close)|].
  unfold LG.halt_is_set, LG.input_q_get_, LG.write_rows, LG.f_write_, LG.f_flush_.
  repeat (first [ preserves_step
                | by apply (preserves_modify no_close)
                | by apply no_close_await
                | apply IH ]).
Qed.

Lemma writer_stable_emit ev : preserves writer_stable (LG.emit ev).
Proof.
  apply (preserves_modify writer_stable). intros m. split; simpl; auto.
  by apply prefix_app_r.
Qed.

Lemma writer_stable_open_file env : preserves writer_stable (LG.open_file env).
Proof.
  unfold LG.open_file, LG.aiofiles_open_, LG.write_row, LG.f_write_, LG.os_path_exists.
  repeat (first [ preserves_step
                | by apply (preserves_modify writer_stable)
                | apply writer_stable_await ]).
Qed.

Lemma writer_stable_run_loop env fuel : preserves writer_stable (LG.run_loop env fuel).
Proof.
  induction fuel as [|fuel IH]; simpl; [apply (preserves_unfinished writer_stable)|].
  unfold LG.halt_is_set, LG.input_q_get_, LG.write_rows, LG.f_write_, LG.f_flush_.
  repeat (first [ preserves_step
                | by apply (preserves_modify writer_stable)
                | apply writer_stable_await
                | apply IH ]).
Qed.

Lemma writer_finally_spec env m :
  closes (snd (writer_finally env m))
  = (closes m + match LG.f m with Some _ => 1 | None => 0 end)%nat
  ∧ LG.f (snd (writer_finally env m)) = LG.f m
  ∧ LG.active (LG.self (snd (writer_finally env m))) = false
  ∧ fst (writer_finally env m) ≠ Unfinished
  ∧ writer_stable m (snd (writer_finally env m)).
Proof.
  unfold writer_finally. unfold_monad. simpl.
  destruct (LG.f m) as [p|] eqn:Hf; simpl.
  - set (m3 := LG.with_active false m).
    destruct (writer_await_spec env (f_close p) m3) as (_ & Ha & Hf3 & _ & _ & Hs & Hfin & _).
    pose proof (closes_await env (f_close p) m3) as Hcl. simpl in Hcl.
    assert (writer_stable m m3) as Hs3 by (by split).
    split_and!; auto; [by rewrite Hf3 | by etrans].
  - split_and!; auto; first [by split | unfold closes; simpl; lia].
Qed.

Lemma writer_run_unfold env fuel m :
  LG.run env fuel m
  = try_finally (try_except (writer_body env fuel) (writer_handler (LG.file_path (LG.self m))))
      (writer_finally env) (writer_start m).
Proof. reflexivity. Qed.

Lemma writer_handler_spec m e m1 :
  writer_handler (LG.file_path (LG.self m)) e m1 = (Ret tt, writer_handled m e m1).
Proof.
  unfold writer_handler, writer_handled, writer_error, LG.log_error, LG.log_exception,
    LG.halt_set, LG.emit. unfold_monad.
  destruct e; simpl; by rewrite <- app_assoc.
Qed.

(** [CSVLogger.run], by the result of the statements its [try] guards. *)
Lemma writer_run_cases env fuel m :
  match writer_body env fuel (writer_start m) with
  | (Unfinished, m1) => LG.run env fuel m = (Unfinished, m1)
  | (Ret _, m1) => snd (LG.run env fuel m) = snd (writer_finally env m1)
  | (Raise e, m1) =>
      snd (LG.run env fuel m) = snd (writer_finally env (writer_handled m e m1))
  end
  ∧ (fst (writer_body env fuel (writer_start m)) ≠ Unfinished →
     fst (LG.run env fuel m) ≠ Unfinished).
Proof.
  rewrite writer_run_unfold. unfold try_finally, try_except.
  destruct (writer_body env fuel (writer_start m)) as [[[]|e|] m1]; simpl.
  - pose proof (writer_finally_spec env m1) as (_ & _ & _ & Hf & _).
    by destruct (writer_finally env m1) as [[[]|?|] ?].
  - rewrite writer_handler_spec.
    pose proof (writer_finally_spec env (writer_handled m e m1)) as (_ & _ & _ & Hf & _).
    by destruct (writer_finally env (writer_handled m e m1)) as [[[]|?|] ?].
  - done.
Qed.

(** An exception other than [FileNotFoundError] that leaves the [try] of a
    writer is logged, and the halt Event is set. *)
Lemma writer_escalates env fuel m e m1 :
  writer_body env fuel (writer_start m) = (Raise e, m1) →
  is_FileNotFoundError e = false →
  LG.halt (snd (LG.run env fuel m)) = true
  ∧ writer_error m e ∈ LG.effects (snd (LG.run env fuel m))
  ∧ LogException e ∈ LG.effects (snd (LG.run env fuel m)).
Proof.
  intros Hb He. destruct (writer_run_cases env fuel m) as [H _]. rewrite Hb in H.
  rewrite H.
  pose proof (writer_finally_spec env (writer_handled m e m1)) as (_ & _ & _ & _ & Hs).
  split_and!.
  - apply Hs. simpl. by rewrite He.
  - eapply elem_of_prefix; [|apply Hs]. simpl.
    rewrite elem_of_app, !elem_of_cons. auto.
  - eapply elem_of_prefix; [|apply Hs]. simpl.
    rewrite elem_of_app, !elem_of_cons. auto.
Qed.

(** A [FileNotFoundError] that leaves the [try] before a file is open is
    logged; the writer ends, and the halt Event stays as it is. *)
Lemma writer_file_not_found env fuel m msg m1 :
  writer_body env fuel (writer_start m) = (Raise (FileNotFoundError msg), m1) →
  LG.f m1 = None →
  LG.run env fuel m
  = (Ret tt, LG.with_active false (writer_handled m (FileNotFoundError msg) m1)).
Proof.
  intros Hb Hf. rewrite writer_run_unfold. unfold try_finally, try_except.
  rewrite Hb, writer_handler_spec. unfold writer_finally. unfold_monad. simpl.
  by rewrite Hf.
Qed.

(** A writer that has ended has closed the file it holds, once, and is no
    longer active. *)
Lemma writer_closes_once env fuel m :
  fst (LG.run env fuel m) ≠ Unfinished →
  closes (snd (LG.run env fuel m))
  = (closes m + match LG.f (snd (LG.run env fuel m)) with Some _ => 1 | None => 0 end)%nat
  ∧ LG.active (LG.self (snd (LG.run env fuel m))) = false.
Proof.
  intros Hfin. destruct (writer_run_cases env fuel m) as [H _].
  pose proof (preserves_bind no_close _ _ (no_close_open_file env)
                (fun _ => no_close_run_loop env fuel) (writer_start m)) as [Hc _].
  fold (writer_body env fuel) in Hc.
  destruct (writer_body env fuel (writer_start m)) as [[[]|e|] m1]; simpl in *.
  - rewrite H. destruct (writer_finally_spec env m1) as (-> & -> & -> & _).
    split; [|done]. rewrite Hc. done.
  - rewrite H.
    destruct (writer_finally_spec env (writer_handled m e m1)) as (-> & -> & -> & _).
    split; [|done]. simpl. f_equal. transitivity (closes m1); [|exact Hc].
    unfold closes. simpl. rewrite awaited_app. simpl. by rewrite app_nil_r.
  - rewrite H in Hfin. done.
Qed.

(** **** The file a writer opens *)

Lemma append_assoc (a b c : string) : (a +:+ b) +:+ c = a +:+ (b +:+ c).
Proof.
  induction a as [|x a IH]; [done|].
  change (String x ((a +:+ b) +:+ c) = String x (a +:+ (b +:+ c))). by rewrite IH.
Qed.

Lemma append_empty_r (a : string) : a +:+ EmptyString = a.
Proof.
  induction a as [|x a IH]; [done|].
  change (String x (a +:+ EmptyString) = String x a). by rewrite IH.
Qed.

#[global] Instance keeps_prefix_preorder path : PreOrder (keeps_prefix path).
Proof.
  split.
  - intros m pre c H. eauto.
  - intros m1 m2 m3 H12 H23 pre c H. destruct (H12 pre c H) as [c' H']. eauto.
Qed.

Lemma keeps_prefix_same path m m' : LG.fs m' = LG.fs m → keeps_prefix path m m'.
Proof. intros Hfs pre c H. rewrite Hfs. eauto. Qed.

Lemma keeps_prefix_await path env op : preserves (keeps_prefix path) (LG.await env op).
Proof. intros m. apply keeps_prefix_same. apply writer_await_spec. Qed.

Lemma keeps_prefix_written path p text m :
  keeps_prefix path m (LG.with_fs (log2csv.written p text (LG.fs m)) m).
Proof.
  intros pre c H. simpl. unfold log2csv.written.
  destruct (decide (p = path)) as [->|Hne].
  - rewrite lookup_insert_eq, H. simpl. rewrite append_assoc. eauto.
  - rewrite lookup_insert_ne by done. eauto.
Qed.

Lemma keeps_prefix_f_write_ path env text : preserves (keeps_prefix path) (LG.f_write_ env text).
Proof.
  unfold LG.f_write_.
  repeat (first [ preserves_step | apply keeps_prefix_await ]).
  apply (preserves_modify (keeps_prefix path)). intros m. apply keeps_prefix_written.
Qed.

Lemma keeps_prefix_run_loop path env fuel : preserves (keeps_prefix path) (LG.run_loop env fuel).
Proof.
  induction fuel as [|fuel IH]; simpl; [apply (preserves_unfinished (keeps_prefix path))|].
  unfold LG.halt_is_set, LG.input_q_get_, LG.write_rows, LG.f_flush_.
  repeat (first [ preserves_step
                | apply keeps_prefix_await
                | apply keeps_prefix_f_write_
                | apply (preserves_modify (keeps_prefix path)); intros ?; by apply keeps_prefix_same
                | apply IH ]).
Qed.

Lemma keeps_prefix_finally path env m : keeps_prefix path m (snd (writer_finally env m)).
Proof.
  unfold writer_finally.
  revert m. change (preserves (keeps_prefix path)
                      (modify (LG.with_active false) ;;
                       h ← gets LG.f;
                       match h with Some p => LG.await env (f_close p) | None => mret tt end)).
  repeat (first [ preserves_step
                | apply keeps_prefix_await
                | apply (preserves_modify (keeps_prefix path)); intros ?; by apply keeps_prefix_same ]).
Qed.

(** A new file: opened for writing, the header row written. *)
Lemma open_file_new env m :
  LG.fs m !! LG.file_path (LG.self m) = None →
  LG.outcome (env (LG.awaits m)) = LG.Returns →
  LG.outcome (env (S (LG.awaits m))) = LG.Returns →
  fst (LG.open_file env m) = Ret tt
  ∧ LG.fs (snd (LG.open_file env m))
    = <[LG.file_path (LG.self m) := log2csv.writerow (LG.column_headers (LG.self m))]> (LG.fs m)
  ∧ LG.f (snd (LG.open_file env m)) = Some (LG.file_path (LG.self m))
  ∧ LG.effects (snd (LG.open_file env m))
    = LG.effects m
      ++ [Await (aiofiles_open (LG.file_path (LG.self m)) "w");
          Await (f_write (LG.file_path (LG.self m))
                   (log2csv.writerow (LG.column_headers (LG.self m))))].
Proof.
  intros Hnew H1 H2.
  unfold LG.open_file, LG.os_path_exists, LG.aiofiles_open_, LG.write_row, LG.f_write_.
  unfold_monad. simpl. rewrite Hnew.
  rewrite bool_decide_eq_false_2 by (by intros [? ?]).
  set (path := LG.file_path (LG.self m)).
  destruct (writer_await_spec env (aiofiles_open path "w") m)
    as (He1 & _ & _ & Hfs1 & Hn1 & Hs1 & _ & Hr1).
  specialize (Hr1 H1).
  destruct (LG.await env (aiofiles_open path "w") m) as [r1 m1]; simpl in *. subst r1.
  simpl. rewrite (ws_headers _ _ Hs1).
  set (m1' := LG.with_f _ _).
  destruct (writer_await_spec env (f_write path (log2csv.writerow (LG.column_headers (LG.self m)))) m1')
    as (He2 & _ & Hf2 & Hfs2 & _ & _ & _ & Hr2).
  assert (LG.awaits m1' = S (LG.awaits m)) as Hn by done.
  rewrite Hn in Hr2. specialize (Hr2 H2).
  destruct (LG.await env _ m1') as [r2 m2]; simpl in *. subst r2. simpl.
  split_and!; auto.
  - rewrite Hfs2, Hfs1. unfold log2csv.written, log2csv.opened. simpl.
    rewrite lookup_insert_eq. simpl. by rewrite insert_insert_eq.
  - rewrite He2, He1. by rewrite <- app_assoc.
Qed.

(** A file that exists: opened for appending, nothing written. *)
Lemma open_file_existing env m content :
  LG.fs m !! LG.file_path (LG.self m) = Some content →
  LG.outcome (env (LG.awaits m)) = LG.Returns →
  fst (LG.open_file env m) = Ret tt
  ∧ LG.fs (snd (LG.open_file env m)) = LG.fs m
  ∧ LG.f (snd (LG.open_file env m)) = Some (LG.file_path (LG.self m))
  ∧ LG.effects (snd (LG.open_file env m))
    = LG.effects m ++ [Await (aiofiles_open (LG.file_path (LG.self m)) "a")].
Proof.
  intros Hold H1.
  unfold LG.open_file, LG.os_path_exists, LG.aiofiles_open_.
  unfold_monad. simpl. rewrite Hold.
  rewrite bool_decide_eq_true_2 by eauto.
  set (path := LG.file_path (LG.self m)).
  destruct (writer_await_spec env (aiofiles_open path "a") m)
    as (He1 & _ & _ & Hfs1 & Hn1 & Hs1 & _ & Hr1).
  specialize (Hr1 H1).
  destruct (LG.await env (aiofiles_open path "a") m) as [r1 m1]; simpl in *. subst r1.
  simpl. split_and!; auto.
  rewrite Hfs1. unfold log2csv.opened. simpl. subst path. by rewrite Hold.
Qed.

(** Whatever the writer goes on to do, the file keeps the start it had when
    the open statements were done. *)
Lemma writer_keeps_start env fuel m m1 start :
  LG.open_file env (writer_start m) = (Ret tt, m1) →
  LG.fs m1 !! LG.file_path (LG.self m) = Some start →
  ∃ rest, LG.fs (snd (LG.run env fuel m)) !! LG.file_path (LG.self m) = Some (start +:+ rest).
Proof.
  intros Ho Hstart. set (path := LG.file_path (LG.self m)) in *.
  destruct (writer_run_cases env fuel m) as [H _].
  unfold writer_body in H. unfold_monad. rewrite Ho in H.
  pose proof (keeps_prefix_run_loop path env fuel m1 start EmptyString) as Hl.
  rewrite append_empty_r in Hl. destruct (Hl Hstart) as [c1 Hc1].
  destruct (LG.run_loop env fuel m1) as [[[]|e|] m2]; simpl in *.
  - rewrite H. by apply (keeps_prefix_finally path env m2 start c1).
  - rewrite H. by apply (keeps_prefix_finally path env _ start c1).
  - rewrite H. simpl. eauto.
Qed.

Lemma map_csv_field_plain row :
  forallb (fun field => negb (log2csv.special field)) row = true →
  map log2csv.csv_field row = row.
Proof.
  induction row as [|x row IH]; [done|]. simpl. intros H.
  apply andb_true_iff in H as [Hx Hrow]. apply negb_true_iff in Hx.
  unfold log2csv.csv_field at 1. rewrite Hx. f_equal. by apply IH.
Qed.

(** A row whose fields need no quoting is written as its fields, separated
    by commas, and the line terminator. *)
Lemma writerow_plain row :
  forallb (fun field => negb (log2csv.special field)) row = true →
  row ≠ [EmptyString] →
  log2csv.writerow row = String.concat "," row +:+ log2csv.lineterminator.
Proof.
  intros Hplain Hne. unfold log2csv.writerow.
  rewrite (map_csv_field_plain row Hplain).
  destruct row as [|[|] [|]]; done.
Qed.

(** *** Consumer_log2csv *)

#[global] Instance stays_ended_preorder file_path : PreOrder (stays_ended file_path).
Proof.
  split.
  - intros m l H. exists l. split; [done|lia].
  - intros m1 m2 m3 H12 H23 l H.
    destruct (H12 l H) as (l2 & H2 & Hle2). destruct (H23 l2 H2) as (l3 & H3 & Hle3).
    exists l3. split; [done|lia].
Qed.

Lemma stays_ended_same file_path m m' :
  CS.file_outputs (CS.self m') = CS.file_outputs (CS.self m) → stays_ended file_path m m'.
Proof. intros Heq l [H1 H2]. exists l. unfold ended_writer. rewrite Heq. split; [done|lia]. Qed.

Lemma stays_ended_deliver file_path m a : stays_ended file_path m (CS.deliver m a).
Proof.
  destruct a as [item|p|p|]; try (by apply stays_ended_same).
  - intros l [Hl Ha]. simpl. unfold ended_writer. simpl.
    destruct (decide (p = file_path)) as [->|Hne].
    + rewrite lookup_alter_eq, Hl. simpl. eexists. split; [split; [reflexivity|done]|].
      simpl. destruct (Queue.items (LG.input_q l)); simpl; lia.
    + rewrite lookup_alter_ne by done. exists l. split; [done|lia].
  - intros l [Hl Ha]. simpl. unfold ended_writer. simpl.
    destruct (decide (p = file_path)) as [->|Hne].
    + rewrite lookup_alter_eq, Hl. simpl. eexists. split; [split; [reflexivity|done]|].
      simpl. lia.
    + rewrite lookup_alter_ne by done. exists l. split; [done|lia].
Qed.

Lemma stays_ended_await file_path env op : preserves (stays_ended file_path) (CS.await env op).
Proof.
  intros m. unfold CS.await. set (m1 := CS.mkMachine _ _ _ _).
  assert (stays_ended file_path m m1) as H1 by (by apply stays_ended_same).
  assert (∀ l m0, stays_ended file_path m0 (foldl CS.deliver m0 l)) as Hf.
  { induction l as [|a l IH]; intros m0; simpl; [reflexivity|].
    etrans; [apply stays_ended_deliver | apply IH]. }
  destruct (CS.outcome _); simpl; (etrans; [exact H1 | apply Hf]).
Qed.

(** A record routed to an ended writer changes nothing: it is not queued,
    no writer is created, nothing is logged. *)
Lemma _log_to_file_ended next_data m l :
  ended_writer (CS.file_path (CS.self m) (device_adr next_data) (characteristic next_data)) m l →
  CS._log_to_file next_data m = (Ret tt, m).
Proof.
  intros [Hl Ha]. unfold CS._log_to_file, CS.file_outputs_getitem. unfold_monad. simpl.
  rewrite Hl. rewrite bool_decide_eq_false_2 by done. simpl. rewrite Hl, Ha. done.
Qed.

Lemma queue0_put_nowait {A} (x : A) (q : Queue.Queue A) :
  Queue.maxsize q = 0 → Queue.put_nowait x q = Some (Queue.mkQueue 0 (Queue.items q ++ [x])).
Proof.
  intros H. unfold Queue.put_nowait, Queue.full. rewrite H. simpl. done.
Qed.

Lemma stays_ended__log_to_file file_path next_data :
  preserves (stays_ended file_path) (CS._log_to_file next_data).
Proof.
  intros m l [Hl Ha].
  set (fp := CS.file_path (CS.self m) (device_adr next_data) (characteristic next_data)).
  destruct (decide (fp = file_path)) as [Heq|Hne].
  - rewrite (_log_to_file_ended next_data m l); [|by (split; [fold fp; rewrite Heq|])].
    exists l. split; [done|lia].
  - exists l. split; [|lia]. split; [|done].
    unfold CS._log_to_file, CS.file_outputs_getitem, CS.logger_put, CS.file_outputs_getitem.
    unfold_monad. simpl. fold fp.
    destruct (CS.file_outputs (CS.self m) !! fp) as [l0|] eqn:H0.
    + rewrite bool_decide_eq_false_2 by done. simpl. rewrite H0.
      destruct (LG.active l0); simpl; [|done].
      rewrite H0. destruct (Queue.put_nowait _ _); simpl; [|done].
      by rewrite lookup_insert_ne.
    + rewrite bool_decide_eq_true_2 by done. simpl. rewrite lookup_insert_eq. simpl.
      rewrite lookup_insert_eq. simpl.
      rewrite insert_insert_eq. by rewrite lookup_insert_ne.
Qed.

Lemma stays_ended_run_loop file_path env fuel :
  preserves (stays_ended file_path) (CS.run_loop env fuel).
Proof.
  induction fuel as [|fuel IH]; simpl; [apply (preserves_unfinished (stays_ended file_path))|].
  unfold CS.halt_is_set, CS.input_q_get_.
  repeat (first [ preserves_step
                | apply stays_ended_await
                | apply stays_ended__log_to_file
                | apply (preserves_modify (stays_ended file_path)); intros ?; by apply stays_ended_same
                | apply IH ]).
Qed.

Lemma stays_ended_run file_path env fuel : preserves (stays_ended file_path) (CS.run env fuel).
Proof.
  unfold CS.run, CS.log_error, CS.log_exception, CS.print, CS.halt_set, CS.emit.
  repeat (first [ preserves_step
                | apply stays_ended_await
                | apply stays_ended_run_loop
                | apply (preserves_modify (stays_ended file_path)); intros ?; by apply stays_ended_same ]).
Qed.

(** **** Exceptions in the consumer loop *)

#[global] Instance consumer_stable_preorder : PreOrder consumer_stable.
Proof.
  split.
  - intros m. by split.
  - intros m1 m2 m3 [] []. split; auto. by etrans.
Qed.

Lemma consumer_stable_deliver m a : consumer_stable m (CS.deliver m a).
Proof. destruct a; by split. Qed.

Lemma consumer_stable_await env op : preserves consumer_stable (CS.await env op).
Proof.
  intros m. unfold CS.await. set (m1 := CS.mkMachine _ _ _ _).
  assert (consumer_stable m m1) as H1 by (split; simpl; [done | by apply prefix_app_r]).
  assert (∀ l m0, consumer_stable m0 (foldl CS.deliver m0 l)) as Hf.
  { induction l as [|a l IH]; intros m0; simpl; [reflexivity|].
    etrans; [apply consumer_stable_deliver | apply IH]. }
  destruct (CS.outcome _); simpl; (etrans; [exact H1 | apply Hf]).
Qed.

Lemma consumer_stable_emit ev : preserves consumer_stable (CS.emit ev).
Proof.
  apply (preserves_modify consumer_stable). intros m. split; simpl; [done | by apply prefix_app_r].
Qed.

Lemma consumer_stable_finally env : preserves consumer_stable (consumer_finally env).
Proof.
  unfold consumer_finally, CS.print.
  repeat (first [ preserves_step | apply consumer_stable_await | apply consumer_stable_emit ]).
Qed.

(** An exception that leaves the loop of the consumer is logged, and the
    halt Event is set. *)
Lemma consumer_escalates env fuel m e m1 :
  CS.run_loop env fuel m = (Raise e, m1) →
  CS.halt (snd (CS.run env fuel m)) = true
  ∧ consumer_error e ∈ CS.effects (snd (CS.run env fuel m))
  ∧ LogException e ∈ CS.effects (snd (CS.run env fuel m)).
Proof.
  intros H. unfold CS.run. fold (consumer_finally env).
  unfold try_finally, try_except. rewrite H.
  unfold CS.log_error, CS.log_exception, CS.halt_set, CS.emit. unfold_monad. simpl.
  set (m2 := CS.mkMachine _ _ _ _).
  pose proof (consumer_stable_finally env m2) as Hs.
  assert (consumer_error e ∈ CS.effects m2 ∧ LogException e ∈ CS.effects m2) as [He1 He2].
  { simpl. rewrite !elem_of_app, !list_elem_of_singleton. auto. }
  destruct (consumer_finally env m2) as [[[]|?|] m3]; simpl in *;
    (split_and!; [by apply Hs | by eapply elem_of_prefix; [|apply Hs]
                 | by eapply elem_of_prefix; [|apply Hs]]).
Qed.

Lemma consumer_loop_raise env fuel m e m1 :
  CS.halt m && Queue.empty (CS.input_q (CS.self m)) = false →
  consumer_cycle env m = (Raise e, m1) →
  e ≠ TimeoutError →
  CS.run_loop env (S fuel) m = (Raise e, m1).
Proof.
  intros Hh Hc He. cbn [CS.run_loop]. fold (consumer_cycle env).
  unfold CS.halt_is_set. unfold_monad. simpl.
  rewrite Hh, Hc. by destruct e.
Qed.

Lemma writer_loop_raise env fuel m e m1 :
  LG.halt m && Queue.empty (LG.input_q (LG.self m)) = false →
  writer_cycle env m = (Raise e, m1) →
  e ≠ TimeoutError →
  LG.run_loop env (S fuel) m = (Raise e, m1).
Proof.
  intros Hh Hc He. cbn [LG.run_loop]. fold (writer_cycle env).
  unfold LG.halt_is_set. unfold_monad. simpl.
  rewrite Hh, Hc. by destruct e.
Qed.

(** **** The name of the file *)

Lemma file_path_alias self device_adr char alias :
  device_aliases (CS.config self) !! device_adr = Some alias →
  CS.file_path self device_adr char
  = log2csv.os_path_join (log2csv_folder_name (CS.config self))
      (log2csv.replace " " "_" (alias +:+ "_" +:+ name char +:+ ".csv")).
Proof. intros H. unfold CS.file_path. by rewrite H. Qed.

Lemma file_path_address self device_adr char :
  device_aliases (CS.config self) !! device_adr = None →
  CS.file_path self device_adr char
  = log2csv.os_path_join (log2csv_folder_name (CS.config self))
      (log2csv.replace " " "_"
         (log2csv.replace ":" "_" device_adr +:+ "_" +:+ name char +:+ ".csv")).
Proof. intros H. unfold CS.file_path. by rewrite H. Qed.

Lemma contains_replace old new s :
  old ≠ new → contains old (log2csv.replace old new s) = false.
Proof.
  intros Hne. induction s as [|c s IH]; [done|]. simpl.
  rewrite IH, orb_false_r.
  destruct (Ascii.eqb c old) eqn:Hc.
  - apply Ascii.eqb_neq. congruence.
  - done.
Qed.

Lemma replace_underscored sep s :
  String.list_ascii_of_string (log2csv.replace sep "_" s) = underscored sep s.
Proof.
  unfold underscored. induction s as [|c s IH]; [done|]. simpl. by rewrite IH.
Qed.

(** ** Teardown *)

(** C2, as stated, fails: on the characteristic-timeout path
    [con.disconnect()] is called twice, by the health check and again by
    the cleanup of [run]. *)
Lemma timeout_path_disconnects_again :
  fst (AC.run one_notification_env 100 fresh_connection) = Ret tt
  ∧ disconnect_calls (snd (AC.run one_notification_env 100 fresh_connection)) = 2%nat
  ∧ drop 37 (AC.effects (snd (AC.run one_notification_env 100 fresh_connection)))
    = [ Log WARNING "SP-Case: Timeout for characteristic ppg_red expired, disconnecting..";
        Await con_disconnect;
        Log WARNING "Disconnected from SP-Case.";
        Await con_disconnect;
        Log WARNING "Disconnected from SP-Case.";
        Assign AC.DISCONNECTED ].
Proof. vm_compute. repeat split; reflexivity. Qed.

(** C2, amended. [_do_disconnect] calls [con.disconnect()] every time it
    runs; only the flag [did_disconnect] it sets is the same after one call
    and after two.  The cleanup of [run] runs it once when the polling loop
    has ended, after the calls the health check has made: on the
    characteristic-timeout path [con.disconnect()] is called twice or more.
    A writer that has ended has closed the file it opened exactly once. *)
Theorem teardown_is_repeated env fuel m char i c T t0 t1 :
  (2 ≤ fuel)%nat →
  AC.con (AC.self m) = Some c →
  AC.halt m = false →
  AC.did_disconnect (AC.self m) = false →
  AC.initial_connection_time (AC.self m) = Some t1 →
  forallb (fun c' => bool_decide (is_Some (AC.last_notif (AC.self m) !! uuid c')))
    (characteristics (AC.config (AC.self m))) = true →
  characteristics (AC.config (AC.self m)) !! i = Some char →
  timeout char = Some T →
  AC.last_notif (AC.self m) !! uuid char = Some (Some t0) →
  Qgtb (seconds_since (AC.clock m) t0) T = true →
  (fst (run_from_loop env fuel m) = Ret tt
   ∧ (S (S (disconnect_calls m)) ≤ disconnect_calls (snd (run_from_loop env fuel m)))%nat)
  ∧ (∀ m0 c0, AC.con (AC.self m0) = Some c0 →
       AC.did_disconnect (AC.self (snd (AC._do_disconnect env m0))) = true
       ∧ disconnect_calls (snd (AC._do_disconnect env m0)) = S (disconnect_calls m0)
       ∧ AC.did_disconnect
           (AC.self (snd (AC._do_disconnect env (snd (AC._do_disconnect env m0))))) = true
       ∧ disconnect_calls (snd (AC._do_disconnect env (snd (AC._do_disconnect env m0))))
         = S (S (disconnect_calls m0)))
  ∧ (∀ fuel0 m0 c0, AC.con (AC.self m0) = Some c0 →
       fst (AC.run_loop env fuel0 m0) ≠ Unfinished →
       disconnect_calls (snd (run_from_loop env fuel0 m0))
       = S (disconnect_calls (snd (AC.run_loop env fuel0 m0))))
  ∧ (∀ m0 m1, AC.did_disconnect (AC.self m0) = false →
       AC._connect env (with_client m0) = (Ret tt, m1) →
       AC.run env fuel m0 = run_from_loop env fuel (with_connection_time m1))
  ∧ (∀ wenv wfuel wm, fst (LG.run wenv wfuel wm) ≠ Unfinished →
       closes (snd (LG.run wenv wfuel wm))
       = (closes wm + match LG.f (snd (LG.run wenv wfuel wm)) with
                      | Some _ => 1 | None => 0 end)%nat).
Proof.
  intros Hfuel Hc Hh Hd Ht1 Hdom Hi HT Hl Hq.
  split; [by apply (timeout_path_disconnects_twice env fuel m char i c T t0 t1)|].
  split_and!.
  - intros m0 c0 Hc0.
    pose proof (torn__do_disconnect env m0 c0 Hc0) as Ht.
    assert (AC.con (AC.self (snd (AC._do_disconnect env m0))) = Some c0) as Hc1.
    { rewrite <- Hc0. apply (stable__do_disconnect env m0). }
    pose proof (torn__do_disconnect env _ c0 Hc1) as Ht2.
    rewrite (torn_calls _ _ Ht2), (torn_calls _ _ Ht).
    destruct Ht as (? & _). destruct Ht2 as (? & _). done.
  - intros fuel0 m0 c0 Hc0 Hf. by apply (run_from_loop_ended env fuel0 m0 c0).
  - intros m0 m1. apply run_reaches_loop.
  - intros wenv wfuel wm Hf. by apply writer_closes_once.
Qed.

Lemma teardown_is_repeated_witness :
  fst (run_from_loop silent_env 2 expired) = Ret tt
  ∧ (2 ≤ disconnect_calls (snd (run_from_loop silent_env 2 expired)))%nat.
Proof.
  destruct (teardown_is_repeated silent_env 2 expired ppg_red 0
              (AC.mkBleakClient "EB:E5:31:BF:2E:B5" 20) 1.5%Q 0 0) as ([H1 H2] & _);
    [lia | reflexivity | reflexivity | reflexivity | reflexivity | reflexivity
    | reflexivity | reflexivity | reflexivity | reflexivity |].
  split; [exact H1 | exact H2].
Defined.

(** ** Exceptions in the shared loops *)

(** C4, as stated, fails: a [FileNotFoundError] raised in a writer is
    logged, the writer ends, and the halt Event is not set. *)
Lemma file_not_found_does_not_halt :
  fst (LG.run no_folder_env 10 lost_writer) = Ret tt
  ∧ LG.halt (snd (LG.run no_folder_env 10 lost_writer)) = false
  ∧ LG.effects (snd (LG.run no_folder_env 10 lost_writer))
    = [ Await (aiofiles_open "log/SP-Case_ppg_red.csv" "w");
        Log ERROR ("CSVLogger log/SP-Case_ppg_red.csv encountered an exception: "
                   +:+ "No such file or directory");
        LogException (FileNotFoundError "No such file or directory") ].
Proof. vm_compute. repeat split; reflexivity. Qed.

(** C4, amended. An exception raised in an iteration of the scanner loop,
    of the consumer loop or of the loop of a writer, [asyncio.TimeoutError]
    apart, leaves the loop; every exception that leaves the loop of the
    scanner or of the consumer is logged as an error and sets the halt
    Event.  In a writer, an exception raised while the file is opened or
    its header written leaves the [try] of [CSVLogger.run], whatever its
    class; every exception that leaves that [try], [asyncio.TimeoutError]
    included and [FileNotFoundError] apart, is logged and sets the halt
    Event; a [FileNotFoundError] raised before the file is open is logged
    and ends the writer without setting it. *)
Theorem unexpected_exceptions_halt (e : Exception) :
  (∀ normalise_adr re_match env fuel m m1,
     e ≠ TimeoutError →
     SC.halt m = false →
     SC.scan_cycle normalise_adr re_match env m = (Raise e, m1) →
     SC.run_loop normalise_adr re_match env (S fuel) m = (Raise e, m1))
  ∧ (∀ normalise_adr re_match env fuel m m1,
       SC.run_loop normalise_adr re_match env fuel m = (Raise e, m1) →
       SC.run normalise_adr re_match env fuel m
       = (Ret tt,
          SC.mkMachine (SC.self m1) (SC.clock m1) true (SC.awaits m1)
            (SC.effects m1 ++ [Log ERROR ("Scanner encountered an exception: " +:+ str e);
                               LogException e; Print "Scanner shut down..."])))
  ∧ (∀ env fuel m m1,
       e ≠ TimeoutError →
       CS.halt m && Queue.empty (CS.input_q (CS.self m)) = false →
       consumer_cycle env m = (Raise e, m1) →
       CS.run_loop env (S fuel) m = (Raise e, m1))
  ∧ (∀ env fuel m m1,
       CS.run_loop env fuel m = (Raise e, m1) →
       CS.halt (snd (CS.run env fuel m)) = true
       ∧ consumer_error e ∈ CS.effects (snd (CS.run env fuel m))
       ∧ LogException e ∈ CS.effects (snd (CS.run env fuel m)))
  ∧ (∀ env fuel m m1,
       e ≠ TimeoutError →
       LG.halt m && Queue.empty (LG.input_q (LG.self m)) = false →
       writer_cycle env m = (Raise e, m1) →
       LG.run_loop env (S fuel) m = (Raise e, m1))
  ∧ (∀ env fuel m m1,
       LG.open_file env (writer_start m) = (Raise e, m1) →
       writer_body env fuel (writer_start m) = (Raise e, m1))
  ∧ (∀ env fuel m m1,
       is_FileNotFoundError e = false →
       writer_body env fuel (writer_start m) = (Raise e, m1) →
       LG.halt (snd (LG.run env fuel m)) = true
       ∧ writer_error m e ∈ LG.effects (snd (LG.run env fuel m))
       ∧ LogException e ∈ LG.effects (snd (LG.run env fuel m)))
  ∧ (∀ env fuel m m1,
       is_FileNotFoundError e = true →
       writer_body env fuel (writer_start m) = (Raise e, m1) →
       LG.f m1 = None →
       LG.run env fuel m = (Ret tt, LG.with_active false (writer_handled m e m1))
       ∧ LG.halt (LG.with_active false (writer_handled m e m1)) = LG.halt m1).
Proof.
  split_and!.
  - intros. by apply scanner_loop_raise.
  - intros. by apply scanner_run_escalates.
  - intros. by apply consumer_loop_raise.
  - intros env fuel m m1 H. by apply (consumer_escalates env fuel m e m1).
  - intros. by apply writer_loop_raise.
  - intros env fuel m m1 Ho. unfold writer_body. unfold_monad. by rewrite Ho.
  - intros env fuel m m1 Hfnf Hb. by apply (writer_escalates env fuel m e m1).
  - intros env fuel m m1 Hfnf Hb Hf. destruct e; try done.
    split; [by apply writer_file_not_found | done].
Qed.

Lemma unexpected_exceptions_halt_witness :
  SC.halt (snd (SC.run upper (fun _ _ => false) broken_scan_env 1 scanner_start)) = true
  ∧ LG.halt (snd (LG.run stalled_open_env 10 lost_writer)) = true
  ∧ Log ERROR "CSVLogger log/SP-Case_ppg_red.csv encountered an exception: "
    ∈ LG.effects (snd (LG.run stalled_open_env 10 lost_writer)).
Proof.
  assert (BleakError "adapter not found" ≠ TimeoutError) as Hne by discriminate.
  destruct (unexpected_exceptions_halt (BleakError "adapter not found"))
    as (Hloop & Hrun & _).
  destruct (unexpected_exceptions_halt TimeoutError)
    as (_ & _ & _ & _ & _ & Hopen & Hhalt & _).
  split.
  - rewrite (Hrun upper (fun _ _ => false) broken_scan_env 1%nat scanner_start
               (SC.mkMachine (SC.__init__ example_config) 0 false 1
                  [Await BleakScanner_discover])).
    + reflexivity.
    + apply Hloop; [exact Hne | reflexivity | reflexivity].
  - destruct (Hhalt stalled_open_env 10%nat lost_writer
                (LG.mkMachine (LG.self lost_writer) None ∅ false 1
                   [Await (aiofiles_open "log/SP-Case_ppg_red.csv" "w")])) as (H1 & H2 & _).
    + reflexivity.
    + apply Hopen. reflexivity.
    + split; [exact H1 | exact H2].
Defined.

(** ** The file of a series *)

(** The first record of a key creates its writer, with the file name of the
    key and the column headers of the characteristic, and its task. *)
Lemma _log_to_file_first next_data m :
  CS.file_outputs (CS.self m)
    !! CS.file_path (CS.self m) (device_adr next_data) (characteristic next_data) = None →
  fst (CS._log_to_file next_data m) = Ret tt
  ∧ CS.file_outputs (CS.self (snd (CS._log_to_file next_data m)))
      !! CS.file_path (CS.self m) (device_adr next_data) (characteristic next_data)
    = Some (LG.mkCSVLogger
              (CS.file_path (CS.self m) (device_adr next_data) (characteristic next_data))
              (Queue.mkQueue 0 [next_data])
              (column_headers (characteristic next_data)) true)
  ∧ CS.tasks (CS.self (snd (CS._log_to_file next_data m)))
    = CS.tasks (CS.self m)
      ++ [CS.file_path (CS.self m) (device_adr next_data) (characteristic next_data)].
Proof.
  intros Hnew.
  unfold CS._log_to_file, CS.file_outputs_getitem, CS.logger_put, CS.file_outputs_getitem.
  unfold_monad. simpl. rewrite Hnew.
  rewrite bool_decide_eq_true_2 by done. simpl.
  rewrite lookup_insert_eq. simpl. rewrite lookup_insert_eq. simpl.
  by rewrite lookup_insert_eq.
Qed.

(** A record whose file already has a writer creates no writer and no
    task: the writer of the file keeps its path and its column headers,
    whatever the characteristic of the record. *)
Lemma _log_to_file_shared next_data m l :
  CS.file_outputs (CS.self m)
    !! CS.file_path (CS.self m) (device_adr next_data) (characteristic next_data) = Some l →
  CS.tasks (CS.self (snd (CS._log_to_file next_data m))) = CS.tasks (CS.self m)
  ∧ ∃ l', CS.file_outputs (CS.self (snd (CS._log_to_file next_data m)))
            !! CS.file_path (CS.self m) (device_adr next_data) (characteristic next_data)
          = Some l'
          ∧ LG.file_path l' = LG.file_path l
          ∧ LG.column_headers l' = LG.column_headers l.
Proof.
  intros Hl.
  unfold CS._log_to_file, CS.file_outputs_getitem, CS.logger_put, CS.file_outputs_getitem.
  unfold_monad. simpl. rewrite Hl.
  rewrite bool_decide_eq_false_2 by done. simpl. rewrite Hl. simpl.
  destruct (LG.active l); simpl; [|by eauto].
  rewrite Hl. simpl.
  destruct (Queue.put_nowait next_data (LG.input_q l)) as [q'|]; simpl; [|by eauto].
  split; [done|]. eexists. by rewrite lookup_insert_eq.
Qed.

(** C8, as stated, fails: the keys (SP-Case, [ppg_red]) and (SP-Case,
    [ppg red]) give the same file name.  The first record of the second
    key creates no writer: it is queued to the writer of the first key, and
    the file, which did not exist, gets the column headers of [ppg_red]
    only; the headers of [ppg red] are never written, and its rows stand
    under the headers of [ppg_red]. *)
Lemma colliding_keys_share_a_file :
  String.eqb (name ppg_red) (name ppg_red_spaced) = false
  ∧ CS.file_path example_consumer "EB:E5:31:BF:2E:B5" ppg_red = "log/SP-Case_ppg_red.csv"
  ∧ CS.file_path example_consumer "EB:E5:31:BF:2E:B5" ppg_red_spaced
    = "log/SP-Case_ppg_red.csv"
  ∧ column_headers ppg_red_spaced = ["sample"; "red"]
  ∧ CS.tasks (CS.self after_two_records) = ["log/SP-Case_ppg_red.csv"]
  ∧ CS.file_outputs (CS.self after_two_records) !! "log/SP-Case_ppg_red.csv"
    = Some (LG.self shared_writer)
  ∧ fst (LG.run returning_env 10 shared_writer) = Ret tt
  ∧ LG.fs (snd (LG.run returning_env 10 shared_writer)) !! "log/SP-Case_ppg_red.csv"
    = Some (log2csv.writerow ["index"; "ppg red"]
            +:+ log2csv.writerow ["1"; "2"] +:+ log2csv.writerow ["7"; "8"])
  ∧ LG.effects (snd (LG.run returning_env 10 shared_writer))
    = [ Await (aiofiles_open "log/SP-Case_ppg_red.csv" "w");
        Await (f_write "log/SP-Case_ppg_red.csv" (log2csv.writerow ["index"; "ppg red"]));
        Await input_q_get;
        Await (f_write "log/SP-Case_ppg_red.csv" (log2csv.writerow ["1"; "2"]));
        Await (f_flush "log/SP-Case_ppg_red.csv");
        Await input_q_get;
        Await (f_write "log/SP-Case_ppg_red.csv" (log2csv.writerow ["7"; "8"]));
        Await (f_flush "log/SP-Case_ppg_red.csv");
        Await (f_close "log/SP-Case_ppg_red.csv") ].
Proof. vm_compute. repeat split; reflexivity. Qed.

(** C8, amended. A writer and its file belong to a file path.  The path of
    a key is the log folder joined with a name that holds no space: the
    alias of the device when it has one, otherwise its address with every
    [:] turned into [_], then [_], the name of the characteristic and
    [.csv], with every space of the whole turned into [_].  The first
    record of a key whose path has no writer creates the writer of that
    path, with the column headers of its characteristic; a record of a key
    whose path has a writer creates none, and that writer keeps its column
    headers.  A writer whose file does not exist opens it for writing and
    writes its column headers first, separated by commas, and they stay the
    first line; a writer whose file exists opens it for appending, writes
    nothing on opening it, and what the file holds stays at its start. *)
Theorem writer_file_and_header self adr char env fuel m :
  LG.file_path (LG.self m) = CS.file_path self adr char →
  LG.column_headers (LG.self m) = column_headers char →
  LG.outcome (env (LG.awaits m)) = LG.Returns →
  LG.outcome (env (S (LG.awaits m))) = LG.Returns →
  (∀ alias, device_aliases (CS.config self) !! adr = Some alias →
     ∃ n, LG.file_path (LG.self m)
          = log2csv.os_path_join (log2csv_folder_name (CS.config self)) n
          ∧ String.list_ascii_of_string n
            = underscored " " (alias +:+ "_" +:+ name char +:+ ".csv")
          ∧ contains " " n = false)
  ∧ (device_aliases (CS.config self) !! adr = None →
     ∃ a n, String.list_ascii_of_string a = underscored ":" adr
            ∧ contains ":" a = false
            ∧ LG.file_path (LG.self m)
              = log2csv.os_path_join (log2csv_folder_name (CS.config self)) n
            ∧ String.list_ascii_of_string n
              = underscored " " (a +:+ "_" +:+ name char +:+ ".csv")
            ∧ contains " " n = false)
  ∧ (∀ cm next_data,
       CS.file_outputs (CS.self cm)
         !! CS.file_path (CS.self cm) (device_adr next_data) (characteristic next_data) = None →
       CS.file_outputs (CS.self (snd (CS._log_to_file next_data cm)))
         !! CS.file_path (CS.self cm) (device_adr next_data) (characteristic next_data)
       = Some (LG.mkCSVLogger
                 (CS.file_path (CS.self cm) (device_adr next_data) (characteristic next_data))
                 (Queue.mkQueue 0 [next_data])
                 (column_headers (characteristic next_data)) true))
  ∧ (∀ cm next_data l,
       CS.file_outputs (CS.self cm)
         !! CS.file_path (CS.self cm) (device_adr next_data) (characteristic next_data)
       = Some l →
       CS.tasks (CS.self (snd (CS._log_to_file next_data cm))) = CS.tasks (CS.self cm)
       ∧ ∃ l', CS.file_outputs (CS.self (snd (CS._log_to_file next_data cm)))
                 !! CS.file_path (CS.self cm) (device_adr next_data) (characteristic next_data)
               = Some l'
               ∧ LG.file_path l' = LG.file_path l
               ∧ LG.column_headers l' = LG.column_headers l)
  ∧ (LG.fs m !! LG.file_path (LG.self m) = None →
     LG.effects (snd (LG.open_file env (writer_start m)))
     = LG.effects m
       ++ [Await (aiofiles_open (LG.file_path (LG.self m)) "w");
           Await (f_write (LG.file_path (LG.self m)) (log2csv.writerow (column_headers char)))]
     ∧ LG.fs (snd (LG.open_file env (writer_start m)))
       = <[LG.file_path (LG.self m) := log2csv.writerow (column_headers char)]> (LG.fs m)
     ∧ ∃ rest, LG.fs (snd (LG.run env fuel m)) !! LG.file_path (LG.self m)
               = Some (log2csv.writerow (column_headers char) +:+ rest))
  ∧ (∀ content, LG.fs m !! LG.file_path (LG.self m) = Some content →
     LG.effects (snd (LG.open_file env (writer_start m)))
     = LG.effects m ++ [Await (aiofiles_open (LG.file_path (LG.self m)) "a")]
     ∧ LG.fs (snd (LG.open_file env (writer_start m))) = LG.fs m
     ∧ ∃ rest, LG.fs (snd (LG.run env fuel m)) !! LG.file_path (LG.self m)
               = Some (content +:+ rest))
  ∧ (forallb (fun field => negb (log2csv.special field)) (column_headers char) = true →
     column_headers char ≠ [EmptyString] →
     log2csv.writerow (column_headers char)
     = String.concat "," (column_headers char) +:+ log2csv.lineterminator).
Proof.
  intros Hpath Hheaders H1 H2. split_and!.
  - intros alias Ha. rewrite Hpath, (file_path_alias _ _ _ alias Ha).
    eexists. split; [done|]. split; [apply replace_underscored | by apply contains_replace].
  - intros Ha. rewrite Hpath, (file_path_address _ _ _ Ha).
    exists (log2csv.replace ":" "_" adr). eexists.
    split; [apply replace_underscored|]. split; [by apply contains_replace|].
    split; [done|]. split; [apply replace_underscored | by apply contains_replace].
  - intros cm next_data Hnew. by apply _log_to_file_first.
  - intros cm next_data l Hl. by apply _log_to_file_shared.
  - intros Hnew.
    destruct (open_file_new env (writer_start m)) as (Hr & Hfs & Hf & He); auto.
    simpl in *. rewrite Hheaders in *. split_and!; auto.
    destruct (LG.open_file env (writer_start m)) as [r m1] eqn:Ho. simpl in *. subst r.
    apply (writer_keeps_start env fuel m m1); [done|].
    rewrite Hfs. apply lookup_insert_eq.
  - intros content Hold.
    destruct (open_file_existing env (writer_start m) content) as (Hr & Hfs & Hf & He); auto.
    simpl in *. split_and!; auto.
    destruct (LG.open_file env (writer_start m)) as [r m1] eqn:Ho. simpl in *. subst r.
    apply (writer_keeps_start env fuel m m1); [done|]. by rewrite Hfs.
  - apply writerow_plain.
Qed.

Lemma writer_file_and_header_witness :
  LG.file_path (LG.self unaliased_writer)
  = log2csv.os_path_join "log" "AA_BB_CC_DD_EE_FF_ppg_red.csv"
  ∧ contains ":" "AA_BB_CC_DD_EE_FF" = false
  ∧ contains " " "AA_BB_CC_DD_EE_FF_ppg_red.csv" = false
  ∧ ∃ rest, LG.fs (snd (LG.run one_record_env 3 unaliased_writer))
              !! "log/AA_BB_CC_DD_EE_FF_ppg_red.csv"
            = Some (log2csv.writerow ["sample"; "red"] +:+ rest).
Proof.
  destruct (writer_file_and_header example_consumer "AA:BB:CC:DD:EE:FF" ppg_red_spaced
              one_record_env 3 unaliased_writer) as (_ & Hname & _ & _ & Hnew & _);
    [reflexivity | reflexivity | reflexivity | reflexivity |].
  destruct Hname as (a & n & Ha & Hc & Hp & Hn & Hs); [reflexivity|].
  assert (a = "AA_BB_CC_DD_EE_FF") as Ea.
  { rewrite <- (String.string_of_list_ascii_of_string a), Ha. reflexivity. }
  subst a.
  assert (n = "AA_BB_CC_DD_EE_FF_ppg_red.csv") as En.
  { rewrite <- (String.string_of_list_ascii_of_string n), Hn. reflexivity. }
  subst n.
  split_and!; [exact Hp | exact Hc | exact Hs |].
  destruct Hnew as (_ & _ & Hrest); [reflexivity|]. exact Hrest.
Defined.

(** ** A writer that has ended *)

(** C10. Once a writer has ended (it ends inactive, whatever ended it), its
    key stays in the table of the consumer for as long as the consumer runs,
    and a record routed to that key changes nothing: it is not queued, no
    writer is created and nothing is logged. *)
Theorem ended_writer_discards file_path m l :
  CS.file_outputs (CS.self m) !! file_path = Some l →
  LG.active l = false →
  (∀ next_data,
     CS.file_path (CS.self m) (device_adr next_data) (characteristic next_data) = file_path →
     CS._log_to_file next_data m = (Ret tt, m))
  ∧ (∀ env fuel,
       ∃ l', CS.file_outputs (CS.self (snd (CS.run env fuel m))) !! file_path = Some l'
             ∧ LG.active l' = false
             ∧ (length (Queue.items (LG.input_q l')) ≤ length (Queue.items (LG.input_q l)))%nat)
  ∧ (∀ wenv wfuel wm, fst (LG.run wenv wfuel wm) ≠ Unfinished →
       LG.active (LG.self (snd (LG.run wenv wfuel wm))) = false).
Proof.
  intros Hl Ha. split_and!.
  - intros next_data <-. by apply (_log_to_file_ended next_data m l).
  - intros env fuel.
    destruct (stays_ended_run file_path env fuel m l) as (l' & [? ?] & ?); [done|].
    exists l'. done.
  - intros wenv wfuel wm Hf. by apply writer_closes_once.
Qed.

Lemma ended_writer_discards_witness :
  CS._log_to_file (mkNotifData "EB:E5:31:BF:2E:B5" "SP-Case" ppg_red [["1"; "2"]] [])
    consumer_after_failure
  = (Ret tt, consumer_after_failure).
Proof.
  destruct (ended_writer_discards "log/SP-Case_ppg_red.csv" consumer_after_failure
              (LG.mkCSVLogger "log/SP-Case_ppg_red.csv" (Queue.mkQueue 0 [])
                 ["index"; "ppg red"] false)) as (H & _);
    [reflexivity | reflexivity |].
  apply H. reflexivity.
Defined.

(** ** Further properties of the three modules: construction, error paths,
    the ends of the loops, and invariants of the tables and queues *)

(** *** ActiveConnection: construction, callbacks and teardown *)

Lemma foldl_insert_None (chars : list Characteristic) (d : gmap string (option Z)) u :
  foldl (fun d c => <[uuid c := None]> d) d chars !! u
  = if bool_decide (u ∈ map uuid chars) then Some None else d !! u.
Proof.
  revert d. induction chars as [|c chars IH]; intros d.
  - by rewrite bool_decide_eq_false_2 by apply not_elem_of_nil.
  - change (foldl (fun d c => <[uuid c := None]> d) (<[uuid c := None]> d) chars !! u
            = if bool_decide (u ∈ uuid c :: map uuid chars) then Some None else d !! u).
    rewrite IH. repeat case_bool_decide; try done.
    + exfalso. rewrite elem_of_cons in *. tauto.
    + destruct (decide (u = uuid c)) as [->|Hne].
      * by rewrite lookup_insert_eq.
      * exfalso. rewrite elem_of_cons in *. tauto.
    + rewrite lookup_insert_ne; [done|]. rewrite elem_of_cons in *. intros Heq. auto.
Qed.

(** X1. A new connection has one entry of last notifications for every
    configured uuid, each of them [None], and no other entry. *)
Theorem init_last_notif adr name config u :
  AC.last_notif (AC.__init__ adr name config) !! u
  = if bool_decide (u ∈ map uuid (characteristics config)) then Some None else None.
Proof. unfold AC.__init__. simpl. by rewrite foldl_insert_None, lookup_empty. Qed.

(** X2. A notification whose decoder returns no rows or raises puts nothing
    into the output queue and the callback returns normally; no rows leave
    no trace in the log, an exception of the decoder is logged as an error
    with the name of the characteristic, followed by the exception. *)
Theorem notification_without_rows data char m :
  data_decoder char data = Rows [] ∨ (∃ e, data_decoder char data = DecoderRaises e) →
  fst (AC._notif_callback data char m) = Ret tt
  ∧ AC.output (snd (AC._notif_callback data char m)) = AC.output m
  ∧ AC.effects (snd (AC._notif_callback data char m))
    = AC.effects m
      ++ match data_decoder char data with
         | Rows _ => []
         | DecoderRaises e =>
             [Log ERROR ("Decoder for " +:+ name char +:+ " raised an exception: " +:+ str e);
              LogException e]
         end.
Proof.
  intros H.
  unfold AC._notif_callback, AC.monotonic_ns, AC.field, AC.output_put_nowait, AC.log_error,
    AC.log_exception, AC.emit. unfold_monad. simpl.
  destruct H as [->|[e ->]]; simpl.
  - by rewrite app_nil_r.
  - by rewrite <- app_assoc.
Qed.

Lemma notification_without_rows_witness :
  fst (AC._notif_callback [] misindexing fresh_connection) = Ret tt
  ∧ AC.output (snd (AC._notif_callback [] misindexing fresh_connection))
    = AC.output fresh_connection
  ∧ AC.effects (snd (AC._notif_callback [] misindexing fresh_connection))
    = [Log ERROR "Decoder for ppg_ir raised an exception: 'ppg'";
       LogException (KeyError "ppg")].
Proof.
  destruct (notification_without_rows [] misindexing fresh_connection) as (H1 & H2 & H3).
  - right. eexists. reflexivity.
  - split_and!; [exact H1 | exact H2 | exact H3].
Defined.

Lemma _do_disconnect_result env m c :
  AC.con (AC.self m) = Some c →
  fst (AC._do_disconnect env m)
  = match AC.outcome (env (AC.awaits m)) with
    | AC.Returns _ => Ret tt
    | AC.Raises e => if transport_error e then Ret tt else Raise e
    end.
Proof.
  intros Hc.
  unfold AC._do_disconnect, AC.field, AC.log_warning, AC.emit, AC.await. unfold_monad. simpl.
  rewrite Hc.
  destruct (AC.outcome (env (AC.awaits m))) as [[]|e]; simpl; try done.
  by destruct e.
Qed.

(** X3. Without a client [_do_disconnect] does nothing: nothing is awaited,
    nothing is logged and [did_disconnect] is left as it is.  With a client
    it calls [disconnect()] once; an error of the transport (Bleak, D-Bus,
    timeout, OS) is swallowed, any other exception propagates, and in both
    cases [did_disconnect] is set. *)
Theorem disconnect_swallows_transport_errors env m :
  (AC.con (AC.self m) = None → AC._do_disconnect env m = (Ret tt, m))
  ∧ (∀ c, AC.con (AC.self m) = Some c →
       fst (AC._do_disconnect env m)
       = match AC.outcome (env (AC.awaits m)) with
         | AC.Returns _ => Ret tt
         | AC.Raises e => if transport_error e then Ret tt else Raise e
         end
       ∧ AC.did_disconnect (AC.self (snd (AC._do_disconnect env m))) = true
       ∧ awaited (AC.effects (snd (AC._do_disconnect env m)))
         = awaited (AC.effects m) ++ [con_disconnect]).
Proof.
  split.
  - intros Hc. unfold AC._do_disconnect, AC.field. unfold_monad. simpl. by rewrite Hc.
  - intros c Hc. split; [by apply (_do_disconnect_result env m c)|].
    destruct (_do_disconnect_spec env m c Hc) as (H1 & H2 & _). done.
Qed.

Lemma disconnect_swallows_transport_errors_witness :
  AC._do_disconnect refusing_env fresh_connection = (Ret tt, fresh_connection)
  ∧ fst (AC._do_disconnect refusing_env overdue) = Ret tt
  ∧ AC.did_disconnect (AC.self (snd (AC._do_disconnect refusing_env overdue))) = true.
Proof.
  split.
  - apply (disconnect_swallows_transport_errors refusing_env fresh_connection). reflexivity.
  - destruct (disconnect_swallows_transport_errors refusing_env overdue) as [_ H].
    destruct (H (AC.mkBleakClient "EB:E5:31:BF:2E:B5" 20)) as (H1 & H2 & _); [reflexivity|].
    split; [exact H1 | exact H2].
Defined.

(** *** ActiveConnection: connecting *)

Lemma await_result env op m :
  fst (AC.await env op m)
  = match AC.outcome (env (AC.awaits m)) with
    | AC.Returns b => Ret b
    | AC.Raises e => Raise e
    end.
Proof. unfold AC.await. by destruct (AC.outcome _). Qed.

Lemma _connect_connected env m :
  AC.outcome (env (AC.awaits m)) = AC.Returns true →
  AC._connect env m = subscribe_all env (AC.name (AC.self m)) (snd (AC.await env con_connect m)).
Proof.
  intros H. pose proof (await_result env con_connect m) as Hr. rewrite H in Hr.
  unfold AC._connect, subscribe_all, AC.field. unfold_monad. simpl.
  destruct (AC.await env con_connect m) as [r m1]. simpl in Hr. subst r. done.
Qed.

Lemma subscribe_spec env char m :
  fst (subscribe env char m)
  = match AC.outcome (env (AC.awaits m)) with
    | AC.Returns _ => Ret tt
    | AC.Raises e => Raise e
    end
  ∧ awaited (AC.effects (snd (subscribe env char m)))
    = awaited (AC.effects m) ++ [con_start_notify (uuid char)]
  ∧ AC.awaits (snd (subscribe env char m)) = S (AC.awaits m)
  ∧ stable m (snd (subscribe env char m)).
Proof.
  pose proof (await_result env (con_start_notify (uuid char)) m) as Hr.
  destruct (awaited_await env (con_start_notify (uuid char)) m) as [Ha Hn].
  pose proof (stable_await env (con_start_notify (uuid char)) m) as Hs.
  unfold subscribe. unfold_monad.
  destruct (AC.await env (con_start_notify (uuid char)) m) as [[b|e|] m1]; simpl in *;
    destruct (AC.outcome (env (AC.awaits m))); simplify_eq; done.
Qed.

Lemma for_each_subscribe_ok env chars m :
  (∀ i, (i < length chars)%nat → ∃ b, AC.outcome (env (AC.awaits m + i)%nat) = AC.Returns b) →
  fst (for_each chars (subscribe env) m) = Ret tt
  ∧ awaited (AC.effects (snd (for_each chars (subscribe env) m)))
    = awaited (AC.effects m) ++ map (fun char => con_start_notify (uuid char)) chars
  ∧ stable m (snd (for_each chars (subscribe env) m)).
Proof.
  revert m. induction chars as [|c chars IH]; intros m H.
  - simpl. by rewrite app_nil_r.
  - destruct (subscribe_spec env c m) as (Hr & Ha & Hn & Hs).
    destruct (H 0%nat) as [b Hb]; [simpl; lia|].
    rewrite Nat.add_0_r in Hb. rewrite Hb in Hr.
    destruct (IH (snd (subscribe env c m))) as (IH1 & IH2 & IH3).
    { intros i Hi. rewrite Hn. destruct (H (S i)) as [b' Hb']; [simpl; lia|].
      exists b'. by rewrite <- Hb', Nat.add_succ_r. }
    change (for_each (c :: chars) (subscribe env)) with
      (subscribe env c ;; for_each chars (subscribe env)).
    unfold_monad.
    destruct (subscribe env c m) as [r m1]. simpl in *. subst r.
    split_and!; [done | | by etrans].
    rewrite IH2, Ha, <- app_assoc. done.
Qed.

Lemma for_each_subscribe_fail env chars m i e :
  (i < length chars)%nat →
  (∀ j, (j < i)%nat → ∃ b, AC.outcome (env (AC.awaits m + j)%nat) = AC.Returns b) →
  AC.outcome (env (AC.awaits m + i)%nat) = AC.Raises e →
  fst (for_each chars (subscribe env) m) = Raise e
  ∧ awaited (AC.effects (snd (for_each chars (subscribe env) m)))
    = awaited (AC.effects m) ++ take (S i) (map (fun char => con_start_notify (uuid char)) chars)
  ∧ stable m (snd (for_each chars (subscribe env) m)).
Proof.
  revert m i. induction chars as [|c chars IH]; intros m i Hi H He; [simpl in Hi; lia|].
  destruct (subscribe_spec env c m) as (Hr & Ha & Hn & Hs).
  change (for_each (c :: chars) (subscribe env)) with
    (subscribe env c ;; for_each chars (subscribe env)).
  destruct i as [|i].
  - rewrite Nat.add_0_r in He. rewrite He in Hr.
    unfold_monad. destruct (subscribe env c m) as [r m1]. simpl in *. subst r.
    rewrite take_0. done.
  - destruct (H 0%nat) as [b Hb]; [lia|].
    rewrite Nat.add_0_r in Hb. rewrite Hb in Hr.
    destruct (IH (snd (subscribe env c m)) i) as (IH1 & IH2 & IH3).
    { simpl in Hi. lia. }
    { intros j Hj. rewrite Hn. destruct (H (S j)) as [b' Hb']; [lia|].
      exists b'. by rewrite <- Hb', Nat.add_succ_r. }
    { rewrite Hn. by rewrite <- He, Nat.add_succ_r. }
    unfold_monad.
    destruct (subscribe env c m) as [r m1]. simpl in *. subst r.
    split_and!; [done | | by etrans].
    rewrite IH2, Ha, <- app_assoc. done.
Qed.

Lemma subscribe_all_unfold env name m :
  subscribe_all env name m
  = (for_each (characteristics (AC.config (AC.self m))) (subscribe env) ;;
     AC.log_info ("Enabled notifications for all characteristic for " +:+ name +:+ "!") ;;
     AC.set_state AC.CONNECTED)
      (AC.with_effects (AC.effects m ++ [Log INFO ("Established connection to " +:+ name +:+ "!")]) m).
Proof. reflexivity. Qed.

(** X4. When [connect()] returns [False] or raises an error of the
    transport, [_connect] raises [ActiveConnectionException]; any other
    exception propagates as it is.  In both cases nothing is subscribed and
    the state is not assigned. *)
Theorem connect_failure_is_normalised env m :
  AC.outcome (env (AC.awaits m)) ≠ AC.Returns true →
  fst (AC._connect env m)
  = Raise match AC.outcome (env (AC.awaits m)) with
          | AC.Raises e => if transport_error e then ActiveConnectionException else e
          | AC.Returns _ => ActiveConnectionException
          end
  ∧ awaited (AC.effects (snd (AC._connect env m))) = awaited (AC.effects m) ++ [con_connect]
  ∧ AC.state (AC.self (snd (AC._connect env m))) = AC.state (AC.self m)
  ∧ assigned (AC.effects (snd (AC._connect env m))) = assigned (AC.effects m).
Proof.
  intros H.
  pose proof (await_result env con_connect m) as Hr.
  destruct (awaited_await env con_connect m) as [Ha _].
  pose proof (stable_await env con_connect m) as Hs.
  unfold AC._connect, AC.field, AC.log_warning, AC.log_exception, AC.emit. unfold_monad. simpl.
  destruct (AC.await env con_connect m) as [r m1]. simpl in *.
  destruct Hs. destruct (AC.outcome (env (AC.awaits m))) as [[]|e]; subst r; simpl; try done.
  - rewrite awaited_app, assigned_app, Ha. simpl. by rewrite !app_nil_r.
  - destruct e; simpl; rewrite ?awaited_app, ?assigned_app, ?Ha; simpl; by rewrite ?app_nil_r.
Qed.

Lemma connect_failure_is_normalised_witness :
  fst (AC._connect refusing_env fresh_connection) = Raise ActiveConnectionException
  ∧ awaited (AC.effects (snd (AC._connect refusing_env fresh_connection))) = [con_connect].
Proof.
  destruct (connect_failure_is_normalised refusing_env fresh_connection) as (H1 & H2 & _);
    [discriminate|].
  split; [exact H1 | exact H2].
Defined.

(** X5. When [connect()] returns [True] and every [start_notify()] returns,
    [_connect] subscribes to every configured characteristic once, in the
    order of the configuration, and only then becomes CONNECTED. *)
Theorem connect_subscribes_in_order env m :
  AC.outcome (env (AC.awaits m)) = AC.Returns true →
  (∀ i, (i < length (characteristics (AC.config (AC.self m))))%nat →
        ∃ b, AC.outcome (env (S (AC.awaits m) + i)%nat) = AC.Returns b) →
  fst (AC._connect env m) = Ret tt
  ∧ awaited (AC.effects (snd (AC._connect env m)))
    = awaited (AC.effects m) ++ con_connect :: subscriptions (AC.config (AC.self m))
  ∧ AC.state (AC.self (snd (AC._connect env m))) = AC.CONNECTED
  ∧ last (AC.effects (snd (AC._connect env m))) = Some (Assign AC.CONNECTED).
Proof.
  intros Hc Hall.
  rewrite (_connect_connected env m Hc), subscribe_all_unfold.
  destruct (awaited_await env con_connect m) as [Ha Hn].
  pose proof (stable_await env con_connect m) as Hs.
  set (m1 := snd (AC.await env con_connect m)) in *.
  set (m2 := AC.with_effects _ m1).
  assert (AC.config (AC.self m2) = AC.config (AC.self m)) as Hcfg by apply Hs.
  destruct (for_each_subscribe_ok env (characteristics (AC.config (AC.self m2))) m2)
    as (H1 & H2 & H3).
  { intros i Hi. simpl. rewrite Hn. apply Hall. by rewrite <- Hcfg. }
  unfold AC.log_info, AC.set_state, AC.emit. unfold_monad.
  destruct (for_each _ _ m2) as [r m3]. simpl in *. subst r. simpl.
  split_and!; try done.
  - rewrite !awaited_app, H2, awaited_app, Ha, Hcfg. simpl.
    rewrite !app_nil_r, <- !app_assoc. done.
  - by rewrite last_snoc.
Qed.

Lemma connect_subscribes_in_order_witness :
  fst (AC._connect silent_env fresh_connection) = Ret tt
  ∧ awaited (AC.effects (snd (AC._connect silent_env fresh_connection)))
    = [con_connect; con_start_notify (uuid ppg_red); con_start_notify (uuid temp)].
Proof.
  destruct (connect_subscribes_in_order silent_env fresh_connection) as (H1 & H2 & _).
  - reflexivity.
  - intros i _. exists true. reflexivity.
  - split; [exact H1 | exact H2].
Defined.

(** X6. An exception of [start_notify()] is not caught by [_connect],
    whatever its class: it propagates as it is, the characteristics after
    the failing one are not subscribed, and CONNECTED is not assigned. *)
Theorem subscription_failure_propagates env m i e :
  AC.outcome (env (AC.awaits m)) = AC.Returns true →
  (i < length (characteristics (AC.config (AC.self m))))%nat →
  (∀ j, (j < i)%nat → ∃ b, AC.outcome (env (S (AC.awaits m) + j)%nat) = AC.Returns b) →
  AC.outcome (env (S (AC.awaits m) + i)%nat) = AC.Raises e →
  fst (AC._connect env m) = Raise e
  ∧ awaited (AC.effects (snd (AC._connect env m)))
    = awaited (AC.effects m) ++ con_connect :: take (S i) (subscriptions (AC.config (AC.self m)))
  ∧ assigned (AC.effects (snd (AC._connect env m))) = assigned (AC.effects m).
Proof.
  intros Hc Hi Hall He.
  rewrite (_connect_connected env m Hc), subscribe_all_unfold.
  destruct (awaited_await env con_connect m) as [Ha Hn].
  pose proof (stable_await env con_connect m) as Hs.
  set (m1 := snd (AC.await env con_connect m)) in *.
  set (m2 := AC.with_effects _ m1).
  assert (AC.config (AC.self m2) = AC.config (AC.self m)) as Hcfg by apply Hs.
  destruct (for_each_subscribe_fail env (characteristics (AC.config (AC.self m2))) m2 i e)
    as (H1 & H2 & H3).
  { by rewrite Hcfg. }
  { intros j Hj. simpl. rewrite Hn. by apply Hall. }
  { simpl. by rewrite Hn. }
  unfold_monad.
  destruct (for_each _ _ m2) as [r m3]. simpl in *. subst r. simpl.
  split_and!; try done.
  - rewrite H2, awaited_app, Ha, Hcfg. simpl.
    rewrite !app_nil_r, <- !app_assoc. done.
  - destruct H3 as [? ? ? ? ? ? H3 ?]. rewrite H3. simpl.
    rewrite assigned_app. simpl. rewrite app_nil_r. apply Hs.
Qed.

Lemma subscription_failure_propagates_witness :
  fst (AC._connect unsubscribable_env fresh_connection) = Raise (BleakError "characteristic not found")
  ∧ awaited (AC.effects (snd (AC._connect unsubscribable_env fresh_connection)))
    = [con_connect; con_start_notify (uuid ppg_red)].
Proof.
  destruct (subscription_failure_propagates unsubscribable_env fresh_connection 0
              (BleakError "characteristic not found")) as (H1 & H2 & _).
  - reflexivity.
  - simpl. lia.
  - intros j Hj. lia.
  - reflexivity.
  - split; [exact H1 | exact H2].
Defined.

(** *** ActiveConnection: how a run ends *)

#[global] Instance same_client_preorder : PreOrder same_client.
Proof.
  split.
  - by intros m.
  - intros m1 m2 m3 (? & ? & ?) (? & ? & ?). split_and!; [congruence | congruence | lia].
Qed.

Lemma stable_same_client m m' : stable m m' → same_client m m'.
Proof. by intros []. Qed.

Lemma same_client_connect_and_poll env fuel :
  preserves same_client (AC.connect_and_poll env fuel).
Proof.
  assert (∀ A (c : M AC.Machine A), preserves stable c → preserves same_client c) as Hw.
  { intros A c. apply preserves_weaken, stable_same_client. }
  unfold AC.connect_and_poll, AC._connect, AC.set_state.
  repeat (first [ preserves_step
                | apply Hw; solve [eauto with stable_db]
                | apply (preserves_modify same_client); intros ?; by split_and!
                | apply (preserves_modify same_client); intros ?; split_and!; [done | done |];
                  rewrite disconnect_calls_snoc; lia ]).
Qed.

Lemma outer_try_end body m :
  fst (body m) ≠ Unfinished →
  (AC.did_disconnect (AC.self (snd (body m))) = true ∨ (∃ e, fst (body m) = Raise e) →
   AC.did_disconnect (AC.self (snd (AC.outer_try body m))) = true)
  ∧ last (AC.effects (snd (AC.outer_try body m)))
    = Some (if AC.halt (snd (AC.outer_try body m)) then shut_down_message m
            else Assign AC.DISCONNECTED).
Proof.
  unfold AC.outer_try, AC.field, AC.halt_is_set, AC.log_error, AC.log_exception, AC.print,
    AC.set_state, AC.emit, shut_down_message. unfold_monad. simpl.
  destruct (body m) as [[[]|e|] m1]; simpl; [| |done]; intros _;
    destruct (AC.halt m1) eqn:Hh; simpl; rewrite ?Hh, !last_snoc;
    (split; [|done]); intros [?|[? ?]]; done.
Qed.

(** X7. [run] never raises.  When it has ended, the state is DISCONNECTED,
    [did_disconnect] is set and [disconnect()] has been called at least
    once, also when connecting failed; the last thing it does is assign
    DISCONNECTED or, with the halt Event set, print that the connection shut
    down. *)
Theorem ended_run_has_disconnected env fuel m :
  fst (AC.run env fuel m) ≠ Unfinished →
  fst (AC.run env fuel m) = Ret tt
  ∧ AC.state (AC.self (snd (AC.run env fuel m))) = AC.DISCONNECTED
  ∧ AC.did_disconnect (AC.self (snd (AC.run env fuel m))) = true
  ∧ (S (disconnect_calls m) ≤ disconnect_calls (snd (AC.run env fuel m)))%nat
  ∧ last (AC.effects (snd (AC.run env fuel m)))
    = Some (if AC.halt (snd (AC.run env fuel m)) then shut_down_message m
            else Assign AC.DISCONNECTED).
Proof.
  rewrite run_unfold. intros Hf.
  set (body := fun m0 => AC.inner_try env (AC.connect_and_poll env fuel) (with_client m0)) in *.
  destruct (outer_try_spec body m) as [[_ Hu]|(Hb & Hr & Hs & _ & Haw)].
  { rewrite Hu in Hf. done. }
  destruct (outer_try_end body m Hb) as [Hd Hl].
  destruct (inner_try_phase env (AC.connect_and_poll env fuel) (with_client m)) as [_ Hiff].
  destruct (same_client_connect_and_poll env fuel (with_client m)) as (Hcon & _ & Hcalls).
  destruct (inner_try_torn env (AC.connect_and_poll env fuel) (with_client m)
              (AC.mkBleakClient (AC.adr (AC.self m))
                 (connection_timeout_scan (AC.config (AC.self m))))) as [_ Ht].
  { intros H. apply Hb. unfold body. by apply Hiff. }
  { by rewrite Hcon. }
  split_and!; [done | done | | | done].
  - apply Hd. left. by destruct Ht as (Htd & _ & _).
  - apply torn_calls in Ht.
    assert (disconnect_calls (snd (AC.outer_try body m)) = disconnect_calls (snd (body m))) as ->.
    { unfold disconnect_calls. by rewrite Haw. }
    unfold body. rewrite Ht.
    assert (disconnect_calls (with_client m) = disconnect_calls m) by done. lia.
Qed.

Lemma ended_run_has_disconnected_witness :
  fst (AC.run refusing_env 10 fresh_connection) = Ret tt
  ∧ AC.did_disconnect (AC.self (snd (AC.run refusing_env 10 fresh_connection))) = true
  ∧ (1 ≤ disconnect_calls (snd (AC.run refusing_env 10 fresh_connection)))%nat.
Proof.
  destruct (ended_run_has_disconnected refusing_env 10 fresh_connection) as (H1 & _ & H3 & H4 & _).
  - vm_compute. discriminate.
  - split; [exact H1 | split; [exact H3 | exact H4]].
Defined.

(** X8. A connection that was disconnected before [run] got a chance to
    run does not connect: [run] awaits nothing but the [disconnect()] of
    its cleanup, assigns DISCONNECTED and returns. *)
Theorem disconnected_before_run env fuel m :
  AC.did_disconnect (AC.self m) = true →
  fst (AC.run env fuel m) = Ret tt
  ∧ awaited (AC.effects (snd (AC.run env fuel m))) = awaited (AC.effects m) ++ [con_disconnect]
  ∧ assigned (AC.effects (snd (AC.run env fuel m))) = assigned (AC.effects m) ++ [AC.DISCONNECTED].
Proof.
  intros Hd. rewrite run_unfold.
  set (body := fun m0 => AC.inner_try env (AC.connect_and_poll env fuel) (with_client m0)).
  assert (AC.connect_and_poll env fuel (with_client m)
          = (Raise ActiveConnectionException, with_client m)) as Hcp.
  { unfold AC.connect_and_poll, AC.field. unfold_monad. simpl. by rewrite Hd. }
  destruct (inner_try_phase env (AC.connect_and_poll env fuel) (with_client m)) as [[_ Hph] Hiff].
  destruct (inner_try_torn env (AC.connect_and_poll env fuel) (with_client m)
              (AC.mkBleakClient (AC.adr (AC.self m))
                 (connection_timeout_scan (AC.config (AC.self m))))) as [Hfin (_ & Ht & _)].
  { by rewrite Hcp. }
  { by rewrite Hcp. }
  rewrite Hcp in Ht, Hph. simpl in Ht, Hph.
  destruct (outer_try_spec body m) as [[Hu _]|(_ & Hr & _ & Has & Haw)]; [done|].
  split_and!; [done | by rewrite Haw | by rewrite Has; unfold body; rewrite Hph].
Qed.

Lemma disconnected_before_run_witness :
  fst (AC.run silent_env 10 dropped_early) = Ret tt
  ∧ awaited (AC.effects (snd (AC.run silent_env 10 dropped_early))) = [con_disconnect].
Proof.
  destruct (disconnected_before_run silent_env 10 dropped_early) as (H1 & H2 & _);
    [reflexivity|].
  split; [exact H1 | exact H2].
Defined.

(** *** ActiveConnection: the health check *)

Lemma Qgtb_Qle_bool a b : Qgtb a b = negb (Qle_bool a b).
Proof. reflexivity. Qed.

Lemma check_characteristic_on_time env char m :
  single_timeout m char = true →
  on_time m char = true → AC.check_characteristic env char m = (Ret tt, m).
Proof.
  unfold single_timeout, on_time, AC.check_characteristic, AC.last_notif_getitem, AC.field,
    AC.monotonic_ns.
  unfold_monad. simpl.
  destruct (timeout char) as [T|]; [|done].
  destruct (AC.last_notif (AC.self m) !! uuid char) as [[t|]|]; simpl; [| |done].
  - rewrite Qgtb_Qle_bool. by intros _ ->.
  - by destruct (initial_characteristic_timeout (AC.config (AC.self m))) as [G|].
Qed.

Lemma check_characteristic_late env char m :
  on_time m char = false →
  fst (AC.check_characteristic env char m) ≠ Ret tt.
Proof.
  unfold on_time, AC.check_characteristic, AC.last_notif_getitem, AC.field, AC.monotonic_ns,
    AC.log_warning, AC.emit.
  unfold_monad. simpl.
  destruct (timeout char) as [T|]; [|done].
  destruct (AC.last_notif (AC.self m) !! uuid char) as [[t|]|]; simpl; [|done|done].
  rewrite Qgtb_Qle_bool. intros ->. simpl.
  by destruct (AC._do_disconnect env _) as [[[]|?|] ?].
Qed.

Lemma for_each_check_late env chars m :
  forallb (single_timeout m) chars = true →
  forallb (on_time m) chars = false →
  fst (for_each chars (AC.check_characteristic env) m) ≠ Ret tt.
Proof.
  induction chars as [|c chars IH]; [done|]. simpl forallb.
  change (for_each (c :: chars) (AC.check_characteristic env)) with
    (AC.check_characteristic env c ;; for_each chars (AC.check_characteristic env)).
  intros [Hs Hss]%andb_true_iff.
  destruct (on_time m c) eqn:Hc; simpl.
  - intros H. unfold_monad. rewrite (check_characteristic_on_time env c m Hs Hc). by apply IH.
  - intros _. pose proof (check_characteristic_late env c m Hc) as H.
    unfold_monad. by destruct (AC.check_characteristic env c m) as [[[]|?|] ?].
Qed.

(** X9. Where the health check compares with single timeouts (every
    characteristic with a timeout has notified, or no initial timeout is
    configured), it leaves the connection exactly as it is (nothing
    awaited, nothing logged, no exception) if and only if every
    characteristic is on time: it has no timeout, it has not notified yet,
    or the time since its last notification does not exceed its timeout.
    Otherwise the check raises. *)
Theorem health_check_silent_iff env m :
  forallb (single_timeout m) (characteristics (AC.config (AC.self m))) = true →
  (AC._check_for_timeout env m = (Ret tt, m)
   ↔ forallb (on_time m) (characteristics (AC.config (AC.self m))) = true)
  ∧ (forallb (on_time m) (characteristics (AC.config (AC.self m))) = false →
     ∃ e, fst (AC._check_for_timeout env m) = Raise e).
Proof.
  intros Hs.
  assert (forallb (on_time m) (characteristics (AC.config (AC.self m))) = false →
          fst (AC._check_for_timeout env m) ≠ Ret tt) as Hlate.
  { unfold AC._check_for_timeout, AC.field. unfold_monad. simpl.
    intros Hall. by apply for_each_check_late. }
  split; [split|].
  - intros H. destruct (forallb (on_time m) _) eqn:Hall; [done|].
    specialize (Hlate eq_refl). by rewrite H in Hlate.
  - unfold AC._check_for_timeout, AC.field. unfold_monad. simpl.
    revert Hs. generalize (characteristics (AC.config (AC.self m))). intros chars.
    induction chars as [|c chars IH]; [done|]. simpl forallb.
    intros [Hs Hss]%andb_true_iff [Hc Hall]%andb_true_iff.
    change (for_each (c :: chars) (AC.check_characteristic env)) with
      (AC.check_characteristic env c ;; for_each chars (AC.check_characteristic env)).
    unfold_monad. rewrite (check_characteristic_on_time env c m Hs Hc). by apply IH.
  - intros Hall. specialize (Hlate Hall).
    pose proof (finishes__check_for_timeout env m) as Hf.
    destruct (AC._check_for_timeout env m) as [[[]|e|] m1]; simpl in *;
      [done | by exists e | done].
Qed.

Lemma health_check_silent_iff_witness :
  AC._check_for_timeout silent_env at_the_timeout = (Ret tt, at_the_timeout)
  ∧ ∃ e, fst (AC._check_for_timeout silent_env expired) = Raise e.
Proof.
  split.
  - destruct (health_check_silent_iff silent_env at_the_timeout) as [[_ H] _];
      [reflexivity|].
    apply H. reflexivity.
  - destruct (health_check_silent_iff silent_env expired) as [_ H]; [reflexivity|].
    apply H. reflexivity.
Defined.

(** X10. The polling loop returns normally only with the halt Event set:
    every other way out of it is an exception. *)
Theorem polling_returns_only_on_halt env fuel m :
  fst (AC.run_loop env fuel m) = Ret tt →
  AC.halt (snd (AC.run_loop env fuel m)) = true.
Proof.
  revert m. induction fuel as [|fuel IH]; intros m; [done|].
  simpl. unfold AC.halt_is_set, AC.field, AC.log_warning, AC.emit. unfold_monad. simpl.
  destruct (AC.halt m) eqn:Hh; [done|].
  destruct (AC.did_disconnect (AC.self m)); [done|]. simpl.
  destruct (AC._check_for_timeout env m) as [[[]|?|] m1]; [|done|done].
  destruct (AC.await env (asyncio_sleep 0.05) m1) as [[?|?|] m2]; [|done|done].
  apply IH.
Qed.

Lemma polling_returns_only_on_halt_witness :
  AC.halt (snd (AC.run_loop silent_env 1 (AC.with_halt true fresh_connection))) = true.
Proof. apply (polling_returns_only_on_halt silent_env 1). reflexivity. Defined.

(** *** ActiveConnection: the recorded times *)

#[global] Instance advances_preorder : PreOrder advances.
Proof.
  split.
  - intros m. split; [lia|]. intros H. split; [done|]. intros u t Hu. exists t. split; [done|lia].
  - intros m1 m2 m3 [Hc1 H1] [Hc2 H2]. split; [lia|]. intros Ht.
    destruct (H1 Ht) as [Ht2 Hm1]. destruct (H2 Ht2) as [Ht3 Hm2]. split; [done|].
    intros u t Hu. destruct (Hm1 u t Hu) as (t' & Hu' & ?).
    destruct (Hm2 u t' Hu') as (t'' & Hu'' & ?). exists t''. split; [done|lia].
Qed.

Lemma advances_same m m' :
  AC.clock m' = AC.clock m →
  AC.last_notif (AC.self m') = AC.last_notif (AC.self m) →
  advances m m'.
Proof.
  intros Hc Hl. split; [lia|]. intros Ht. split.
  - intros u t. rewrite Hl, Hc. apply Ht.
  - intros u t Hu. exists t. rewrite Hl. split; [done|lia].
Qed.

Lemma advances_emit ev : preserves advances (AC.emit ev).
Proof. apply (preserves_modify advances). intros m. by apply advances_same. Qed.

Ltac advances_modify :=
  apply (preserves_modify advances); intros ?; by apply advances_same.

Lemma _notif_callback_unfold data char m :
  AC._notif_callback data char m = decode_and_package data char (stamped char m).
Proof. reflexivity. Qed.

Lemma advances_stamp char m : advances m (stamped char m).
Proof.
  split; [simpl; lia|]. intros Ht. split.
  - intros u t. simpl. destruct (decide (u = uuid char)) as [->|Hne].
    + rewrite lookup_insert_eq. intros [= <-]. lia.
    + rewrite lookup_insert_ne by done. apply Ht.
  - intros u t Hu. simpl. destruct (decide (u = uuid char)) as [->|Hne].
    + rewrite lookup_insert_eq. exists (AC.clock m). split; [done|]. by apply (Ht (uuid char)).
    + rewrite lookup_insert_ne by done. exists t. split; [done|lia].
Qed.

Lemma advances__notif_callback data char : preserves advances (AC._notif_callback data char).
Proof.
  intros m. rewrite _notif_callback_unfold. etrans; [apply (advances_stamp char)|].
  generalize (stamped char m). change (preserves advances (decode_and_package data char)).
  unfold decode_and_package, AC.output_put_nowait, AC.log_error, AC.log_exception, AC.field.
  repeat (first [ preserves_step | apply advances_emit | advances_modify ]).
Qed.

Lemma advances_deliver m a : advances m (AC.deliver m a).
Proof.
  destruct a; simpl.
  - split; [simpl; lia|]. intros Ht. split.
    + intros u t Hu. simpl. specialize (Ht u t Hu). lia.
    + intros u t Hu. exists t. split; [done|lia].
  - apply advances__notif_callback.
  - by apply advances_same.
  - by apply advances_same.
Qed.

Lemma advances_foldl_deliver l m : advances m (foldl AC.deliver m l).
Proof.
  revert m. induction l as [|a l IH]; intros m; simpl; [done|].
  etrans; [apply advances_deliver | apply IH].
Qed.

Lemma advances_await env op : preserves advances (AC.await env op).
Proof.
  intros m. unfold AC.await.
  destruct (AC.outcome (env (AC.awaits m))); simpl;
    (etrans; [|apply advances_foldl_deliver]); by apply advances_same.
Qed.

Ltac advances_auto :=
  repeat (first [ preserves_step | apply advances_emit | apply advances_await | advances_modify ]).

Lemma advances__do_disconnect env : preserves advances (AC._do_disconnect env).
Proof. unfold AC._do_disconnect, AC.log_warning, AC.field. advances_auto. Qed.

Lemma advances__check_for_timeout env : preserves advances (AC._check_for_timeout env).
Proof.
  unfold AC._check_for_timeout, AC.check_characteristic, AC.last_notif_getitem, AC.log_warning,
    AC.monotonic_ns, AC.field.
  repeat (first [ preserves_step | apply advances_emit | apply advances__do_disconnect
                | advances_modify ]).
Qed.

Lemma advances_run_loop env fuel : preserves advances (AC.run_loop env fuel).
Proof.
  induction fuel as [|fuel IH]; simpl; [apply (preserves_unfinished advances)|].
  unfold AC.halt_is_set, AC.log_warning, AC.field.
  repeat (first [ preserves_step | apply advances_emit | apply advances_await
                | apply advances__check_for_timeout | apply IH ]).
Qed.

Lemma advances_run env fuel : preserves advances (AC.run env fuel).
Proof.
  unfold AC.run, AC.outer_try, AC.inner_try, AC.connect_and_poll, AC._connect, AC.set_state,
    AC.log_info, AC.log_warning, AC.log_error, AC.log_exception, AC.print, AC.halt_is_set,
    AC.monotonic_ns, AC.field.
  repeat (first [ preserves_step | apply advances_emit | apply advances_await
                | apply advances__do_disconnect | apply advances_run_loop | advances_modify ]).
Qed.

Lemma timely___init__ adr name config clock halt awaits output effects :
  timely (AC.mkMachine (AC.__init__ adr name config) clock halt awaits output effects).
Proof.
  intros u t. unfold AC.__init__. simpl. rewrite foldl_insert_None, lookup_empty.
  by case_bool_decide.
Qed.

(** X11. Whatever happens during [run], the clock read by the health check
    is never behind a recorded notification time (the elapsed time it
    computes is never negative), and a recorded time is never cleared nor
    moved back. *)
Theorem notification_times_advance env fuel m :
  timely m →
  timely (snd (AC.run env fuel m))
  ∧ ∀ u t, AC.last_notif (AC.self m) !! u = Some (Some t) →
           ∃ t', AC.last_notif (AC.self (snd (AC.run env fuel m))) !! u = Some (Some t')
                 ∧ t ≤ t'.
Proof. intros Ht. by apply (advances_run env fuel m). Qed.

Lemma timely_expired : timely expired.
Proof.
  intros u t. unfold expired, AC.__init__. cbn [AC.self AC.last_notif AC.clock].
  destruct (decide (u = uuid ppg_red)) as [->|Hne].
  - rewrite lookup_insert_eq. intros [= <-]. lia.
  - rewrite lookup_insert_ne by done. rewrite foldl_insert_None, lookup_empty.
    by case_bool_decide.
Qed.

Lemma notification_times_advance_witness :
  ∃ t', AC.last_notif (AC.self (snd (AC.run silent_env 5 expired))) !! uuid ppg_red
        = Some (Some t')
        ∧ 0 ≤ t'.
Proof.
  destruct (notification_times_advance silent_env 5 expired timely_expired) as [_ H].
  apply (H (uuid ppg_red) 0). reflexivity.
Defined.

(** *** ActiveConnection: the time a connection has been active *)

Lemma Qfloor_div_Z (x : Q) (k : Z) : 0 < k → Qfloor (x / inject_Z k) = Qfloor x / k.
Proof.
  intros Hk. destruct x as [a b]. destruct k as [|p|p]; try lia.
  unfold Qdiv, Qinv, Qmult, Qfloor, inject_Z. simpl.
  rewrite Z.mul_1_r, Pos2Z.inj_mul. symmetry. apply Z.div_div; lia.
Qed.

Lemma Qfloor_sub_Z (x : Q) (k : Z) : Qfloor (x - inject_Z k) = Qfloor x - k.
Proof.
  destruct x as [a b]. unfold Qminus, Qplus, Qopp, Qfloor, inject_Z. cbn [Qnum Qden].
  rewrite Z.mul_1_r, Pos.mul_1_r.
  rewrite Z.div_add by lia. lia.
Qed.

Lemma floordiv_Z (x : Q) (k : Z) :
  0 < k → floordiv x (inject_Z k) = inject_Z (Qfloor x / k).
Proof. intros Hk. unfold floordiv. by rewrite Qfloor_div_Z. Qed.

Lemma Qfloor_fmod (x : Q) (k : Z) :
  0 < k → Qfloor (fmod x (inject_Z k)) = Qfloor x mod k.
Proof.
  intros Hk. unfold fmod. rewrite floordiv_Z by done.
  rewrite (Qfloor_comp _ (x - inject_Z (k * (Qfloor x / k)))).
  - rewrite Qfloor_sub_Z, Z.mod_eq by lia. done.
  - by rewrite inject_Z_mult.
Qed.

Lemma round_half_even_ge (x : Q) (N : Z) : (inject_Z N <= x)%Q -> N <= round_half_even x.
Proof.
  intros H. assert (N <= Qfloor x) as Hf.
  { rewrite <- (Qfloor_Z N). apply Qfloor_resp_le, H. }
  unfold round_half_even. destruct (Qcompare _ _); [destruct (Z.even _)| |]; lia.
Qed.

Lemma round_half_even_lt (x c : Q) (N : Z) :
  (1 # 2 < c)%Q -> (x <= inject_Z N - c)%Q -> round_half_even x < N.
Proof.
  intros Hc H. pose proof (Qfloor_le x) as Hf.
  assert (Qfloor x < N) as Hlt by (rewrite Zlt_Qlt; lra).
  unfold round_half_even. destruct (Qcompare _ _) eqn:Hcmp.
  - apply Qeq_alt in Hcmp.
    assert (Qfloor x + 1 < N); [|destruct (Z.even _); lia].
    rewrite Zlt_Qlt, inject_Z_plus. change (inject_Z 1) with 1%Q. lra.
  - exact Hlt.
  - apply Qgt_alt in Hcmp.
    rewrite Zlt_Qlt, inject_Z_plus. change (inject_Z 1) with 1%Q. lra.
Qed.

Lemma round_half_even_Z (x : Q) (N : Z) : (x == inject_Z N)%Q -> round_half_even x = N.
Proof.
  intros H. unfold round_half_even.
  rewrite (Qfloor_comp _ _ H), Qfloor_Z.
  assert ((x - inject_Z N ?= 1 # 2)%Q = Lt) as ->; [|done].
  apply Qlt_alt. rewrite H. unfold Qminus. rewrite Qplus_opp_r. reflexivity.
Qed.

Lemma spacing_exponent_spec (q : Q) :
  (~ (q == 0)%Q) -> (ldexp 1 (spacing_exponent q + 52) <= Qabs q)%Q.
Proof.
  intros Hq. unfold spacing_exponent.
  destruct (Qle_bool _ _) eqn:Hc; [by apply Qle_bool_iff|]. clear Hc.
  destruct q as [n d]. cbn [Qnum Qden Qabs].
  assert (0 < Z.abs n) as Ha.
  { destruct n; [|lia|lia]. exfalso. apply Hq. reflexivity. }
  set (a := Z.abs n) in *. set (b := Z.pos d).
  pose proof (Z.log2_spec a Ha) as [Ha1 Ha2].
  pose proof (Z.log2_spec b eq_refl) as [Hb1 Hb2].
  pose proof (Z.log2_nonneg a) as Hla. pose proof (Z.log2_nonneg b) as Hlb.
  set (la := Z.log2 a) in *. set (lb := Z.log2 b) in *.
  replace (la - lb - 52 - 1 + 52) with (la - lb - 1) by lia.
  unfold ldexp. destruct (0 <=? la - lb - 1) eqn:Hs.
  - apply Z.leb_le in Hs. unfold Qle, Qmult, inject_Z. cbn [Qnum Qden].
    rewrite Z.mul_1_l, Z.mul_1_r. fold b.
    assert (2 ^ la = 2 ^ (la - lb - 1) * 2 ^ (Z.succ lb)) as E.
    { rewrite <- Z.pow_add_r by lia. f_equal. lia. }
    assert (0 < 2 ^ (la - lb - 1)) by (apply Z.pow_pos_nonneg; lia).
    nia.
  - apply Z.leb_gt in Hs.
    replace (- (la - lb - 1)) with (lb + 1 - la) by lia.
    assert (0 < 2 ^ (lb + 1 - la)) as Hp by (apply Z.pow_pos_nonneg; lia).
    assert (2 ^ Z.succ lb = 2 ^ la * 2 ^ (lb + 1 - la)) as E.
    { rewrite <- Z.pow_add_r by lia. f_equal. lia. }
    apply Qle_shift_div_r.
    + change 0%Q with (inject_Z 0). rewrite <- Zlt_Qlt. exact Hp.
    + unfold Qle, Qmult, inject_Z. cbn [Qnum Qden]. rewrite !Z.mul_1_l, Z.mul_1_r. fold a b.
      rewrite Pos.mul_1_r. fold b. nia.
Qed.

Lemma spacing_exponent_small (q : Q) (k : Z) :
  0 <= k -> (~ (q == 0)%Q) -> (Qabs q < inject_Z (2 ^ k))%Q -> spacing_exponent q + 52 < k.
Proof.
  intros Hk Hq Hlt. pose proof (spacing_exponent_spec q Hq) as H.
  destruct (Z.lt_ge_cases (spacing_exponent q + 52) k) as [|Hge]; [done|]. exfalso.
  unfold ldexp in H. assert ((0 <=? spacing_exponent q + 52) = true) as E by (apply Z.leb_le; lia).
  rewrite E in H.
  assert (inject_Z (2 ^ k) <= inject_Z (2 ^ (spacing_exponent q + 52)))%Q.
  { rewrite <- Zle_Qle. apply Z.pow_le_mono_r; lia. }
  lra.
Qed.

(** The whole part of a rounded [q] below [2^24] that is a nanosecond or
    more short of the next integer is the whole part of [q]. *)
Lemma Qfloor_binary64 (q : Q) (n : Z) :
  (inject_Z n <= q)%Q ->
  (q <= inject_Z (n + 1) - (1 # 1000000000))%Q ->
  0 <= n -> (q < inject_Z (2 ^ 24))%Q ->
  Qfloor (binary64 q) = n.
Proof.
  intros Hlo Hhi Hn Hlt. unfold binary64.
  assert (0 <= q)%Q as Hq0.
  { apply Qle_trans with (inject_Z n); [|done]. change 0%Q with (inject_Z 0).
    by rewrite <- Zle_Qle. }
  destruct (Qeq_bool q 0) eqn:Hz.
  - apply Qeq_bool_iff in Hz. change (Qfloor 0) with 0.
    assert (n <= 0); [|lia]. rewrite Zle_Qle. change (inject_Z 0) with 0%Q. by rewrite <- Hz.
  - apply Qeq_bool_neq in Hz.
    assert (spacing_exponent q + 52 < 24) as He.
    { apply spacing_exponent_small; [lia|done|]. by rewrite Qabs_pos. }
    set (e := spacing_exponent q) in *.
    set (K := - e). assert (29 <= K) as HK by lia.
    assert (2 ^ 29 <= 2 ^ K) as HP by (apply Z.pow_le_mono_r; lia).
    set (P := 2 ^ K) in *.
    unfold ldexp. fold K.
    assert ((0 <=? K) = true) as -> by (apply Z.leb_le; lia).
    assert ((0 <=? e) = false) as -> by (apply Z.leb_gt; lia).
    fold P. rewrite Qfloor_div_Z, Qfloor_Z by lia.
    assert (0 < inject_Z P)%Q as HPq.
    { change 0%Q with (inject_Z 0). rewrite <- Zlt_Qlt. lia. }
    assert (inject_Z 536870912 <= inject_Z P)%Q as HPq2 by (by rewrite <- Zle_Qle).
    set (m := round_half_even (q * inject_Z P)).
    assert (n * P <= m) as Hm1.
    { apply round_half_even_ge. rewrite inject_Z_mult. by apply Qmult_le_compat_r; [|lra]. }
    assert (m < (n + 1) * P) as Hm2.
    { apply (round_half_even_lt _ ((1 # 1000000000) * inject_Z P)).
      - change (inject_Z 536870912) with (536870912 # 1)%Q in HPq2. lra.
      - rewrite inject_Z_mult.
        assert (q * inject_Z P <= (inject_Z (n + 1) - (1 # 1000000000)) * inject_Z P)%Q
          by (apply Qmult_le_compat_r; [done|lra]).
        lra. }
    symmetry. apply Z.div_unique with (m - n * P); lia.
Qed.

(** An integer below [2^53] is a binary64 number. *)
Lemma float_of_int_exact (d : Z) : 0 <= d < 2 ^ 53 -> (float_of_int d == inject_Z d)%Q.
Proof.
  intros [Hd0 Hd]. unfold float_of_int, binary64.
  destruct (Qeq_bool (inject_Z d) 0) eqn:Hz.
  - apply Qeq_bool_iff in Hz. by rewrite Hz.
  - apply Qeq_bool_neq in Hz.
    assert (0 < d) as Hpos.
    { destruct (Z.eq_dec d 0) as [->|]; [|lia]. exfalso. by apply Hz. }
    pose proof (Z.log2_spec d Hpos) as [Hl1 Hl2].
    pose proof (Z.log2_nonneg d) as Hl0.
    assert (Z.log2 d < 53) as Hl53 by (apply Z.log2_lt_pow2; lia).
    assert (spacing_exponent (inject_Z d) = Z.log2 d - 52) as ->.
    { unfold spacing_exponent. cbn [inject_Z Qnum Qden].
      rewrite Z.abs_eq by lia. change (Z.log2 1) with 0.
      replace (Z.log2 d - 0 - 52 + 52) with (Z.log2 d) by lia.
      assert (Qle_bool (ldexp 1 (Z.log2 d)) (Qabs (inject_Z d)) = true) as ->; [|lia].
      apply Qle_bool_iff. unfold ldexp.
      assert ((0 <=? Z.log2 d) = true) as -> by (by apply Z.leb_le).
      rewrite Qabs_pos; [|by (change 0%Q with (inject_Z 0); rewrite <- (Zle_Qle 0 d); lia)].
      rewrite Qmult_1_l. by rewrite <- Zle_Qle. }
    set (K := 52 - Z.log2 d). replace (- (Z.log2 d - 52)) with K by lia.
    replace (Z.log2 d - 52) with (- K) by lia.
    assert (0 < 2 ^ K) as HP by (apply Z.pow_pos_nonneg; lia).
    unfold ldexp at 2. assert ((0 <=? K) = true) as -> by (apply Z.leb_le; lia).
    rewrite (round_half_even_Z _ (d * 2 ^ K)) by (by rewrite inject_Z_mult).
    unfold ldexp. destruct (0 <=? - K) eqn:Hs.
    + apply Z.leb_le in Hs. assert (K = 0) as HK0 by lia. rewrite HK0.
      change (- 0) with 0. change (2 ^ 0) with 1. rewrite Z.mul_1_r.
      change (inject_Z 1) with 1%Q. apply Qmult_1_r.
    + rewrite Z.opp_involutive, inject_Z_mult. field.
      intros H0. change 0%Q with (inject_Z 0) in H0. apply -> inject_Z_injective in H0. lia.
Qed.

(** The whole seconds of [d] nanoseconds, for [d] below [2^53]: those of the
    rounded quotient are those of the exact one. *)
Lemma whole_seconds (d : Z) :
  0 <= d < 2 ^ 53 ->
  Qfloor (truediv (float_of_int d) (inject_Z 1000000000)) = d / 1000000000.
Proof.
  intros Hd. unfold truediv.
  pose proof (float_of_int_exact d Hd) as E.
  set (x := float_of_int d) in *.
  pose proof (Z.div_mod d 1000000000 ltac:(lia)) as Hdm.
  pose proof (Z.mod_pos_bound d 1000000000 ltac:(lia)) as Hmod.
  set (n := d / 1000000000) in *.
  assert (0 <= n) by (apply Z.div_pos; lia).
  assert (x / inject_Z 1000000000 == inject_Z d / inject_Z 1000000000)%Q as Eq by (by rewrite E).
  assert (inject_Z d == inject_Z n * inject_Z 1000000000 + inject_Z (d mod 1000000000))%Q as Ed.
  { rewrite <- inject_Z_mult, <- inject_Z_plus. apply inject_Z_injective. lia. }
  assert (0 <= inject_Z (d mod 1000000000))%Q as Hm0.
  { change 0%Q with (inject_Z 0). rewrite <- Zle_Qle. lia. }
  assert (inject_Z (d mod 1000000000) <= inject_Z 999999999)%Q as Hm1.
  { rewrite <- Zle_Qle. lia. }
  assert (inject_Z d < inject_Z (2 ^ 53))%Q as Hd53 by (rewrite <- Zlt_Qlt; lia).
  change (inject_Z 999999999) with (999999999 # 1)%Q in Hm1.
  change (inject_Z (2 ^ 53)) with (9007199254740992 # 1)%Q in Hd53.
  apply Qfloor_binary64; [| |done|].
  - rewrite Eq. apply Qle_shift_div_l; [reflexivity|].
    change (inject_Z 1000000000) with (1000000000 # 1)%Q in *. lra.
  - rewrite Eq. apply Qle_shift_div_r; [reflexivity|].
    rewrite inject_Z_plus.
    change (inject_Z 1000000000) with (1000000000 # 1)%Q in *.
    change (inject_Z 1) with 1%Q. lra.
  - rewrite Eq. apply Qlt_shift_div_r; [reflexivity|].
    change (inject_Z 1000000000) with (1000000000 # 1)%Q in *.
    change (inject_Z (2 ^ 24)) with (16777216 # 1)%Q. lra.
Qed.

(** X12. [active_time_str] is ["xx:xx:xx"] for a connection that was never
    made; for a connection made less than [2^53] nanoseconds (104 days)
    before, it prints the whole seconds since the connection was made as
    hours, minutes below 60 and seconds below 60, the hours neither wrapped
    at a day nor limited to two digits: the rounding of the quotient by
    [1e9] does not reach the next whole second.  It changes nothing. *)
Theorem active_time_is_hours_minutes_seconds m :
  (∀ t0, AC.initial_connection_time (AC.self m) = Some t0 →
         0 ≤ AC.clock m - t0 < 2 ^ 53) →
  AC.active_time_str m
  = (Ret match AC.initial_connection_time (AC.self m) with
         | None => "xx:xx:xx"
         | Some t0 =>
             let n := (AC.clock m - t0) / 1000000000 in
             hms (n / 3600) (n mod 3600 / 60) (n mod 60)
         end, m).
Proof.
  intros Hd.
  unfold AC.active_time_str, AC.field, AC.monotonic_ns. unfold_monad. simpl.
  destruct (AC.initial_connection_time (AC.self m)) as [t0|]; [|done].
  specialize (Hd t0 eq_refl).
  f_equal. f_equal. unfold hms.
  change (1e9)%Q with (inject_Z 1000000000).
  change (3600)%Q with (inject_Z 3600).
  change (60)%Q with (inject_Z 60).
  change (1)%Q with (inject_Z 1).
  pose proof (whole_seconds (AC.clock m - t0) Hd) as Hx.
  set (x := truediv (float_of_int (AC.clock m - t0)) (inject_Z 1000000000)) in *.
  rewrite !floordiv_Z, !Qfloor_fmod, Hx by lia.
  rewrite Z.div_1_r.
  rewrite (Z.mod_mod_divide _ 3600 60); [done|]. by exists 60.
Qed.

Lemma active_time_is_hours_minutes_seconds_witness :
  AC.active_time_str after_an_hour = (Ret "01:02:05", after_an_hour).
Proof.
  apply (active_time_is_hours_minutes_seconds after_an_hour).
  intros t0 Ht0. injection Ht0 as <-. simpl. lia.
Defined.

(** *** Scanner: the table of seen devices *)

Lemma foldl_insert_not_yet_seen config (adrs : list string) (seen : gmap string SC.SeenDevice) k :
  foldl (fun seen adr =>
           <[adr := {| SC.adr := adr; SC.alias := device_aliases config !! adr;
                       SC.state := SC.NOT_SEEN; SC.name := None; SC.last_seen := None;
                       SC.rssi := None |}]> seen) seen adrs !! k
  = if bool_decide (k ∈ adrs) then Some (not_yet_seen config k) else seen !! k.
Proof.
  revert seen. induction adrs as [|a adrs IH]; intros seen.
  - by rewrite bool_decide_eq_false_2 by apply not_elem_of_nil.
  - simpl foldl. rewrite IH. repeat case_bool_decide; try done.
    + exfalso. rewrite elem_of_cons in *. tauto.
    + destruct (decide (k = a)) as [->|Hne].
      * by rewrite lookup_insert_eq.
      * exfalso. rewrite elem_of_cons in *. tauto.
    + rewrite lookup_insert_ne; [done|]. rewrite elem_of_cons in *. intros Heq. auto.
Qed.

(** X13. A new scanner knows exactly the addresses of the allow-list, each
    as NOT_SEEN, with the alias configured for that address if there is one
    and without name, time or signal strength. *)
Theorem scanner_starts_with_allow_list config k :
  SC.seen_devices (SC.__init__ config) !! k
  = if bool_decide (k ∈ connect_device_adrs config) then Some (not_yet_seen config k) else None.
Proof. unfold SC.__init__. simpl. by rewrite foldl_insert_not_yet_seen, lookup_empty. Qed.

Lemma foldl_regexes (re_match : string → string → bool) (n adr : string) (v : SC.SeenDevice)
    (regexes : list string) (seen : gmap string SC.SeenDevice) :
  foldl (fun seen r => if re_match r n then <[adr := v]> seen else seen) seen regexes
  = if existsb (fun r => re_match r n) regexes then <[adr := v]> seen else seen.
Proof.
  revert seen. induction regexes as [|r regexes IH]; intros seen; [done|].
  simpl. rewrite IH. destruct (re_match r n); simpl; [|done].
  rewrite insert_insert_eq. by destruct (existsb _ _).
Qed.

Lemma update_scanned_unknown normalise_adr re_match self t seen scanned_dev adv_data :
  seen !! normalise_adr (SC.address scanned_dev) = None →
  SC.update_scanned normalise_adr re_match self t seen (scanned_dev, adv_data)
  = match SC.device_name scanned_dev with
    | Some n =>
        if existsb (fun r => re_match r n) (SC.name_regexes self)
        then <[normalise_adr (SC.address scanned_dev) :=
                 newly_seen (SC.config self) (normalise_adr (SC.address scanned_dev)) n t
                   (SC.adv_rssi adv_data)]> seen
        else seen
    | None => seen
    end.
Proof.
  intros Hk. unfold SC.update_scanned. rewrite Hk.
  destruct (SC.device_name scanned_dev) as [n|].
  - apply foldl_regexes.
  - by induction (SC.name_regexes self).
Qed.

(** X14. A scanned device that is not in the table is added only if it
    advertises a name and one of the configured expressions matches it; it
    is then filed once under its normalised address as RECENTLY_SEEN, however
    many expressions match.  Without a name or without a match the table is
    left as it is. *)
Theorem unknown_device_needs_matching_name normalise_adr re_match self t seen scanned_dev adv_data :
  seen !! normalise_adr (SC.address scanned_dev) = None →
  SC.update_scanned normalise_adr re_match self t seen (scanned_dev, adv_data)
  = match SC.device_name scanned_dev with
    | Some n =>
        if existsb (fun r => re_match r n) (SC.name_regexes self)
        then <[normalise_adr (SC.address scanned_dev) :=
                 newly_seen (SC.config self) (normalise_adr (SC.address scanned_dev)) n t
                   (SC.adv_rssi adv_data)]> seen
        else seen
    | None => seen
    end.
Proof. apply update_scanned_unknown. Qed.

Lemma unknown_device_needs_matching_name_witness :
  SC.update_scanned upper prefix_match (SC.__init__ by_name_config) 1000000000 ∅
    (SC.mkBLEDevice "e3:11:20:62:5d:3f" (Some "SmartPatch 7"), SC.mkAdvertisementData (-48))
  = {[ "E3:11:20:62:5D:3F" :=
         newly_seen by_name_config "E3:11:20:62:5D:3F" "SmartPatch 7" 1000000000 (-48) ]}.
Proof.
  rewrite (unknown_device_needs_matching_name upper prefix_match (SC.__init__ by_name_config)
             1000000000 ∅); [reflexivity | reflexivity].
Defined.

Lemma update_scanned_kept normalise_adr re_match self t seen d k dev :
  seen !! k = Some dev →
  ∃ dev', SC.update_scanned normalise_adr re_match self t seen d !! k = Some dev'
          ∧ SC.adr dev' = SC.adr dev ∧ SC.alias dev' = SC.alias dev.
Proof.
  intros Hk. destruct d as [scanned_dev adv_data].
  destruct (seen !! normalise_adr (SC.address scanned_dev)) as [old|] eqn:Hold.
  - unfold SC.update_scanned. rewrite Hold.
    destruct (decide (k = normalise_adr (SC.address scanned_dev))) as [->|Hne].
    + rewrite lookup_insert_eq. eexists. split; [done|]. simpl. by simplify_eq.
    + rewrite lookup_insert_ne by done. by exists dev.
  - rewrite (update_scanned_unknown _ _ _ _ _ _ _ Hold).
    assert (k ≠ normalise_adr (SC.address scanned_dev)) as Hne by (intros ->; congruence).
    destruct (SC.device_name scanned_dev) as [n|]; [|by exists dev].
    destruct (existsb _ _); [|by exists dev].
    rewrite lookup_insert_ne by done. by exists dev.
Qed.

Lemma age_alias self now dev : SC.alias (SC.age self now dev) = SC.alias dev.
Proof.
  unfold SC.age. destruct (SC.state dev), (SC.last_seen dev); try done.
  by destruct (Qgtb _ _).
Qed.

Lemma _update_seen_devices_kept normalise_adr re_match self devices t now k dev :
  SC.seen_devices self !! k = Some dev →
  ∃ dev', SC.seen_devices (SC._update_seen_devices normalise_adr re_match self devices t now) !! k
          = Some dev'
          ∧ SC.adr dev' = SC.adr dev ∧ SC.alias dev' = SC.alias dev.
Proof.
  intros Hk. unfold SC._update_seen_devices. simpl. rewrite lookup_fmap.
  assert (∃ dev', foldl (SC.update_scanned normalise_adr re_match self t)
                    (SC.seen_devices self) devices !! k = Some dev'
                  ∧ SC.adr dev' = SC.adr dev ∧ SC.alias dev' = SC.alias dev) as (dev' & -> & ? & ?).
  { generalize dependent dev. generalize (SC.seen_devices self).
    induction devices as [|d devices IH]; intros seen dev Hk; simpl; [by exists dev|].
    destruct (update_scanned_kept normalise_adr re_match self t seen d k dev Hk)
      as (dev1 & H1 & Ha & Hal).
    destruct (IH _ _ H1) as (dev' & ? & ? & ?). exists dev'. split_and!; congruence. }
  simpl. eexists. split; [done|]. rewrite age_adr, age_alias. done.
Qed.

Lemma seen_devices_kept normalise_adr re_match self batches k dev :
  SC.seen_devices self !! k = Some dev →
  ∃ dev', SC.seen_devices (updates normalise_adr re_match self batches) !! k = Some dev'
          ∧ SC.adr dev' = SC.adr dev ∧ SC.alias dev' = SC.alias dev.
Proof.
  revert self dev. induction batches as [|[[devices t] now] batches IH]; intros self dev Hk.
  - by exists dev.
  - destruct (_update_seen_devices_kept normalise_adr re_match self devices t now k dev Hk)
      as (dev1 & H1 & Ha & Hal).
    destruct (IH _ _ H1) as (dev' & ? & ? & ?). exists dev'. split_and!; [done | congruence..].
Qed.

(** X15. The table never forgets a device: whatever is scanned afterwards,
    a record stays filed under its key, with the address and the alias it
    was created with. *)
Theorem seen_devices_are_kept normalise_adr re_match self batches k dev :
  SC.seen_devices self !! k = Some dev →
  ∃ dev', SC.seen_devices (updates normalise_adr re_match self batches) !! k = Some dev'
          ∧ SC.adr dev' = SC.adr dev ∧ SC.alias dev' = SC.alias dev.
Proof. apply seen_devices_kept. Qed.

Lemma seen_devices_are_kept_witness :
  ∃ dev', SC.seen_devices (updates upper (fun _ _ => false) (SC.__init__ example_config) one_scan)
            !! "EB:E5:31:BF:2E:B5" = Some dev'
          ∧ SC.alias dev' = Some "SP-Case".
Proof.
  destruct (seen_devices_are_kept upper (fun _ _ => false) (SC.__init__ example_config) one_scan
              "EB:E5:31:BF:2E:B5" (not_yet_seen example_config "EB:E5:31:BF:2E:B5"))
    as (dev' & H1 & _ & H2); [reflexivity|].
  exists dev'. split; [exact H1 | exact H2].
Defined.

(** *** Scanner: ageing *)

Lemma seen_has_time_update_scanned normalise_adr re_match self t seen d :
  seen_has_time seen →
  seen_has_time (SC.update_scanned normalise_adr re_match self t seen d).
Proof.
  intros Hs. destruct d as [scanned_dev adv_data].
  destruct (seen !! normalise_adr (SC.address scanned_dev)) as [old|] eqn:Hold.
  - unfold SC.update_scanned. rewrite Hold. intros k dev.
    destruct (decide (k = normalise_adr (SC.address scanned_dev))) as [->|Hne].
    + rewrite lookup_insert_eq. intros [= <-] _. by eexists.
    + rewrite lookup_insert_ne by done. apply Hs.
  - rewrite (update_scanned_unknown _ _ _ _ _ _ _ Hold).
    destruct (SC.device_name scanned_dev) as [n|]; [|done].
    destruct (existsb _ _); [|done]. intros k dev.
    destruct (decide (k = normalise_adr (SC.address scanned_dev))) as [->|Hne].
    + rewrite lookup_insert_eq. intros [= <-] _. by eexists.
    + rewrite lookup_insert_ne by done. apply Hs.
Qed.

Lemma age_spec self now dev :
  SC.last_seen (SC.age self now dev) = SC.last_seen dev
  ∧ (SC.state (SC.age self now dev) = SC.RECENTLY_SEEN →
     SC.state dev = SC.RECENTLY_SEEN
     ∧ ∀ ts, SC.last_seen dev = Some ts →
             (seconds_since now ts <= seen_timeout (SC.config self))%Q).
Proof.
  unfold SC.age. destruct (SC.state dev) eqn:Hst.
  { rewrite Hst. split; [done|]. discriminate. }
  destruct (SC.last_seen dev) as [seen_at|] eqn:Hls.
  2: { rewrite Hls. split; [done|]. intros _. split; [done|]. discriminate. }
  destruct (Qgtb _ _) eqn:Hgt; simpl.
  { split; [done|]. discriminate. }
  rewrite Hls. split; [done|]. intros _. split; [done|]. intros ts [= <-].
  apply Qle_bool_iff. unfold Qgtb in Hgt. by destruct (Qle_bool _ _).
Qed.

Lemma _update_seen_devices_config normalise_adr re_match self devices t now :
  SC.config (SC._update_seen_devices normalise_adr re_match self devices t now) = SC.config self.
Proof. reflexivity. Qed.

Lemma seen_has_time__update_seen_devices normalise_adr re_match self devices t now :
  seen_has_time (SC.seen_devices self) →
  seen_has_time
    (SC.seen_devices (SC._update_seen_devices normalise_adr re_match self devices t now)).
Proof.
  intros Hs. unfold SC._update_seen_devices. simpl.
  assert (seen_has_time (foldl (SC.update_scanned normalise_adr re_match self t)
                           (SC.seen_devices self) devices)) as Hf.
  { revert Hs. generalize (SC.seen_devices self).
    induction devices as [|d devices IH]; intros seen Hs; simpl; [done|].
    by apply IH, seen_has_time_update_scanned. }
  intros k dev. rewrite lookup_fmap.
  destruct (foldl _ _ _ !! k) as [dev0|] eqn:Hk; [|done]. simpl. intros [= <-] Hst.
  destruct (age_spec self now dev0) as [-> Hage].
  destruct (Hage Hst) as [Hst0 _]. by apply (Hf k).
Qed.

Lemma updates_invariant normalise_adr re_match config batches :
  SC.config (updates normalise_adr re_match (SC.__init__ config) batches) = config
  ∧ seen_has_time (SC.seen_devices (updates normalise_adr re_match (SC.__init__ config) batches)).
Proof.
  assert (∀ self, SC.config self = config → seen_has_time (SC.seen_devices self) →
            SC.config (updates normalise_adr re_match self batches) = config
            ∧ seen_has_time (SC.seen_devices (updates normalise_adr re_match self batches))) as H.
  { induction batches as [|[[devices t] now] batches IH]; intros self Hc Hs; [done|].
    apply IH; [done|]. by apply seen_has_time__update_seen_devices. }
  apply H; [done|].
  intros k dev. unfold SC.__init__. simpl. rewrite foldl_insert_not_yet_seen, lookup_empty.
  case_bool_decide; [|done]. by intros [= <-].
Qed.

Lemma updates_snoc normalise_adr re_match self batches devices t now :
  updates normalise_adr re_match self (batches ++ [(devices, t, now)])
  = SC._update_seen_devices normalise_adr re_match
      (updates normalise_adr re_match self batches) devices t now.
Proof. unfold updates. by rewrite foldl_snoc. Qed.

(** X16. After every update of the table a device is RECENTLY_SEEN only if
    it has been seen, and no longer ago than the configured [seen_timeout]
    at the time the table was aged; everything older has been set back to
    NOT_SEEN. *)
Theorem recently_seen_is_recent normalise_adr re_match config batches devices t now k dev :
  SC.seen_devices (updates normalise_adr re_match (SC.__init__ config)
                     (batches ++ [(devices, t, now)])) !! k = Some dev →
  SC.state dev = SC.RECENTLY_SEEN →
  ∃ ts, SC.last_seen dev = Some ts ∧ (seconds_since now ts <= seen_timeout config)%Q.
Proof.
  rewrite updates_snoc.
  destruct (updates_invariant normalise_adr re_match config batches) as [Hc Hs].
  set (self := updates normalise_adr re_match (SC.__init__ config) batches) in *.
  intros Hk Hst.
  destruct (seen_has_time__update_seen_devices normalise_adr re_match self devices t now Hs
              k dev Hk Hst) as [ts Hts].
  exists ts. split; [done|].
  unfold SC._update_seen_devices in Hk. simpl in Hk. rewrite lookup_fmap in Hk.
  destruct (foldl _ _ _ !! k) as [dev0|]; [|done]. simpl in Hk. injection Hk as <-.
  destruct (age_spec self now dev0) as [Hl Hage].
  destruct (Hage Hst) as [_ Hle]. rewrite <- Hc. apply Hle. by rewrite <- Hl.
Qed.

Lemma recently_seen_is_recent_witness :
  ∃ ts, SC.last_seen
          (SC.mkSeenDevice "EB:E5:31:BF:2E:B5" (Some "SP-Case") SC.RECENTLY_SEEN
             (Some "SmartPatch") (Some 1000000000) (Some (-60))) = Some ts
        ∧ (seconds_since 1000000000 ts <= seen_timeout example_config)%Q.
Proof.
  apply (recently_seen_is_recent upper (fun _ _ => false) example_config []
           [(SC.mkBLEDevice "EB:E5:31:BF:2E:B5" (Some "SmartPatch"), SC.mkAdvertisementData (-60))]
           1000000000 1000000000 "EB:E5:31:BF:2E:B5").
  - reflexivity.
  - reflexivity.
Defined.

(** *** Scanner: the scan loop *)

Lemma scanner_foldl_deliver l m :
  SC.self (foldl SC.deliver m l) = SC.self m
  ∧ SC.awaits (foldl SC.deliver m l) = SC.awaits m
  ∧ SC.effects (foldl SC.deliver m l) = SC.effects m
  ∧ (SC.halt m = true → SC.halt (foldl SC.deliver m l) = true).
Proof.
  revert m. induction l as [|a l IH]; intros m; simpl; [done|].
  destruct (IH (SC.deliver m a)) as (-> & -> & -> & Hh).
  destruct a; simpl in *; split_and!; auto.
Qed.

Lemma scanner_await_spec env op m :
  SC.self (snd (SC.await env op m)) = SC.self m
  ∧ SC.awaits (snd (SC.await env op m)) = S (SC.awaits m)
  ∧ SC.effects (snd (SC.await env op m)) = SC.effects m ++ [Await op]
  ∧ fst (SC.await env op m)
    = match SC.outcome (env (SC.awaits m)) with
      | SC.Returns devices => Ret devices
      | SC.Raises e => Raise e
      end.
Proof.
  unfold SC.await.
  match goal with |- context [foldl SC.deliver ?m1 ?l] =>
    destruct (scanner_foldl_deliver l m1) as (H1 & H2 & H3 & _) end.
  destruct (SC.outcome (env (SC.awaits m))); simpl; rewrite ?H1, ?H2, ?H3; done.
Qed.

(** X17. A scan that times out is not an error: the table is left as it
    is, a warning is logged, the cooldown is skipped and the loop goes on
    with the next scan. *)
Theorem scan_timeout_is_not_fatal env normalise_adr re_match fuel m :
  SC.halt m = false →
  SC.outcome (env (SC.awaits m)) = SC.Raises TimeoutError →
  ∃ m1, SC.run_loop normalise_adr re_match env (S fuel) m
        = SC.run_loop normalise_adr re_match env fuel m1
        ∧ SC.self m1 = SC.self m
        ∧ SC.awaits m1 = S (SC.awaits m)
        ∧ SC.effects m1
          = SC.effects m ++ [Await BleakScanner_discover; Log WARNING "Scanner time out..."].
Proof.
  intros Hh Ho.
  destruct (scanner_await_spec env BleakScanner_discover m)
    as (H1 & H2 & H3 & H4).
  rewrite Ho in H4.
  assert (SC.scan_cycle normalise_adr re_match env m
          = (Raise TimeoutError, snd (SC.await env BleakScanner_discover m)))
    as Hc.
  { unfold SC.scan_cycle. unfold_monad.
    destruct (SC.await env BleakScanner_discover m) as [r m1].
    simpl in H4. by subst r. }
  eexists. split; [by apply scanner_loop_timeout|].
  simpl. rewrite H1, H2, H3, <- app_assoc. done.
Qed.

Lemma scan_timeout_is_not_fatal_witness :
  ∃ m1, SC.run_loop upper prefix_match scan_timeout_env 3 scanner_start
        = SC.run_loop upper prefix_match scan_timeout_env 2 m1
        ∧ SC.self m1 = SC.self scanner_start.
Proof.
  destruct (scan_timeout_is_not_fatal scan_timeout_env upper prefix_match 2 scanner_start)
    as (m1 & H1 & H2 & _); [reflexivity | reflexivity |].
  exists m1. split; [exact H1 | exact H2].
Defined.

Lemma scanner_loop_returns normalise_adr re_match env fuel m :
  fst (SC.run_loop normalise_adr re_match env fuel m) = Ret tt →
  SC.halt (snd (SC.run_loop normalise_adr re_match env fuel m)) = true.
Proof.
  revert m. induction fuel as [|fuel IH]; intros m; [done|].
  cbn [SC.run_loop]. unfold SC.halt_is_set, SC.log_warning, SC.emit. unfold_monad. simpl.
  destruct (SC.halt m) eqn:Hh; [done|].
  destruct (SC.scan_cycle normalise_adr re_match env m) as [[[]|e|] m1]; [|destruct e|]; try done;
    apply IH.
Qed.

(** X18. The scanner never raises, and it never ends alone: when [run] has
    ended the halt Event is set, because the loop only returns once it is
    set and every exception that leaves the loop sets it; the last thing
    [run] does is print that the scanner shut down. *)
Theorem scanner_ends_halted env normalise_adr re_match fuel m :
  fst (SC.run normalise_adr re_match env fuel m) ≠ Unfinished →
  fst (SC.run normalise_adr re_match env fuel m) = Ret tt
  ∧ SC.halt (snd (SC.run normalise_adr re_match env fuel m)) = true
  ∧ last (SC.effects (snd (SC.run normalise_adr re_match env fuel m)))
    = Some (Print "Scanner shut down...").
Proof.
  pose proof (scanner_loop_returns normalise_adr re_match env fuel m) as Hl.
  unfold SC.run, SC.log_error, SC.log_exception, SC.halt_set, SC.print, SC.emit.
  unfold_monad.
  destruct (SC.run_loop normalise_adr re_match env fuel m) as [[[]|e|] m1]; simpl in *;
    [| |done]; intros _; rewrite !last_snoc; auto.
Qed.

Lemma scanner_ends_halted_witness :
  fst (SC.run upper prefix_match halting_scan_env 5 scanner_start) = Ret tt
  ∧ SC.halt (snd (SC.run upper prefix_match halting_scan_env 5 scanner_start)) = true.
Proof.
  destruct (scanner_ends_halted halting_scan_env upper prefix_match 5 scanner_start)
    as (H1 & H2 & _).
  - vm_compute. discriminate.
  - split; [exact H1 | exact H2].
Defined.

(** *** Scanner: the name a device is shown with *)

(** X26. A device of the allow-list that has an alias is shown with that
    alias from the start and after every scan, whatever name it advertises. *)
Theorem alias_is_the_display_name normalise_adr re_match config batches k alias :
  k ∈ connect_device_adrs config →
  device_aliases config !! k = Some alias →
  ∃ dev, SC.seen_devices (updates normalise_adr re_match (SC.__init__ config) batches) !! k
         = Some dev
         ∧ SC.get_name_repr dev = alias.
Proof.
  intros Hk Ha.
  destruct (seen_devices_kept normalise_adr re_match (SC.__init__ config) batches k
              (not_yet_seen config k)) as (dev & Hd & _ & Hal).
  { unfold SC.__init__. simpl. rewrite foldl_insert_not_yet_seen.
    by rewrite bool_decide_eq_true_2. }
  exists dev. split; [done|]. unfold SC.get_name_repr. rewrite Hal. simpl. by rewrite Ha.
Qed.

Lemma alias_is_the_display_name_witness :
  ∃ dev, SC.seen_devices (updates upper (fun _ _ => false) (SC.__init__ example_config) one_scan)
           !! "EB:E5:31:BF:2E:B5" = Some dev
         ∧ SC.get_name_repr dev = "SP-Case".
Proof.
  apply (alias_is_the_display_name upper (fun _ _ => false) example_config one_scan).
  - apply list_elem_of_singleton. reflexivity.
  - reflexivity.
Defined.

(** *** log2csv: how the loops end *)

Lemma writer_loop_drained env fuel m :
  fst (LG.run_loop env fuel m) = Ret tt →
  LG.halt (snd (LG.run_loop env fuel m)) = true
  ∧ Queue.items (LG.input_q (LG.self (snd (LG.run_loop env fuel m)))) = [].
Proof.
  revert m. induction fuel as [|fuel IH]; intros m; [done|].
  cbn [LG.run_loop]. unfold LG.halt_is_set. unfold_monad. simpl.
  destruct (LG.halt m) eqn:Hh; simpl.
  - unfold Queue.empty. destruct (Queue.items (LG.input_q (LG.self m))) eqn:Hq; simpl; [done|].
    destruct (LG.input_q_get_ env m) as [[next|e|] m1]; simpl.
    + destruct (LG.write_rows env (data next) m1) as [[[]|e|] m2]; simpl.
      * destruct (LG.f_flush_ env m2) as [[[]|e|] m3]; simpl; [apply IH | | done].
        destruct e; simpl; try done; apply IH.
      * destruct e; simpl; try done; apply IH.
      * done.
    + destruct e; simpl; try done; apply IH.
    + done.
  - destruct (LG.input_q_get_ env m) as [[next|e|] m1]; simpl.
    + destruct (LG.write_rows env (data next) m1) as [[[]|e|] m2]; simpl.
      * destruct (LG.f_flush_ env m2) as [[[]|e|] m3]; simpl; [apply IH | | done].
        destruct e; simpl; try done; apply IH.
      * destruct e; simpl; try done; apply IH.
      * done.
    + destruct e; simpl; try done; apply IH.
    + done.
Qed.

(** X19. The loop of a writer returns only when the halt Event is set and
    its queue is empty: records queued before the shutdown are still taken
    off the queue. *)
Theorem writer_returns_drained env fuel m :
  fst (LG.run_loop env fuel m) = Ret tt →
  LG.halt (snd (LG.run_loop env fuel m)) = true
  ∧ Queue.items (LG.input_q (LG.self (snd (LG.run_loop env fuel m)))) = [].
Proof. apply writer_loop_drained. Qed.

Lemma writer_returns_drained_witness :
  LG.halt (snd (LG.run_loop calm_env 5 draining_writer)) = true
  ∧ Queue.items (LG.input_q (LG.self (snd (LG.run_loop calm_env 5 draining_writer)))) = [].
Proof. apply (writer_returns_drained calm_env 5 draining_writer). reflexivity. Defined.

Lemma consumer_loop_drained env fuel m :
  fst (CS.run_loop env fuel m) = Ret tt →
  CS.halt (snd (CS.run_loop env fuel m)) = true
  ∧ Queue.items (CS.input_q (CS.self (snd (CS.run_loop env fuel m)))) = [].
Proof.
  revert m. induction fuel as [|fuel IH]; intros m; [done|].
  cbn [CS.run_loop]. unfold CS.halt_is_set. unfold_monad. simpl.
  destruct (CS.halt m) eqn:Hh; simpl.
  - unfold Queue.empty. destruct (Queue.items (CS.input_q (CS.self m))) eqn:Hq; simpl; [done|].
    destruct (CS.input_q_get_ env m) as [[next|e|] m1]; simpl.
    + destruct (CS._log_to_file next m1) as [[[]|e|] m2]; simpl; [apply IH | | done].
      destruct e; simpl; try done; apply IH.
    + destruct e; simpl; try done; apply IH.
    + done.
  - destruct (CS.input_q_get_ env m) as [[next|e|] m1]; simpl.
    + destruct (CS._log_to_file next m1) as [[[]|e|] m2]; simpl; [apply IH | | done].
      destruct e; simpl; try done; apply IH.
    + destruct e; simpl; try done; apply IH.
    + done.
Qed.

(** X20. The loop of the consumer returns only when the halt Event is set
    and its input queue is empty. *)
Theorem consumer_returns_drained env fuel m :
  fst (CS.run_loop env fuel m) = Ret tt →
  CS.halt (snd (CS.run_loop env fuel m)) = true
  ∧ Queue.items (CS.input_q (CS.self (snd (CS.run_loop env fuel m)))) = [].
Proof. apply consumer_loop_drained. Qed.

Lemma consumer_returns_drained_witness :
  CS.halt (snd (CS.run_loop calm_consumer_env 5 draining_consumer)) = true
  ∧ Queue.items (CS.input_q (CS.self (snd (CS.run_loop calm_consumer_env 5 draining_consumer))))
    = [].
Proof.
  apply (consumer_returns_drained calm_consumer_env 5 draining_consumer). reflexivity.
Defined.

Lemma writer_await_result env op m :
  fst (LG.await env op m)
  = match LG.outcome (env (LG.awaits m)) with
    | LG.Returns => Ret tt
    | LG.Raises e => Raise e
    end.
Proof. unfold LG.await. by destruct (LG.outcome _). Qed.

Lemma writer_finally_raises env m e :
  fst (writer_finally env m) = Raise e →
  ∃ path, LG.f m = Some path
          ∧ LG.effects (snd (writer_finally env m)) = LG.effects m ++ [Await (f_close path)]
          ∧ LG.awaits (snd (writer_finally env m)) = S (LG.awaits m)
          ∧ LG.outcome (env (LG.awaits m)) = LG.Raises e.
Proof.
  unfold writer_finally. unfold_monad. simpl.
  destruct (LG.f m) as [path|]; [|done].
  pose proof (writer_await_result env (f_close path) (LG.with_active false m)) as Hr.
  destruct (writer_await_spec env (f_close path) (LG.with_active false m))
    as (He & _ & _ & _ & Hn & _).
  destruct (LG.await env (f_close path) (LG.with_active false m)) as [r m1]. simpl in *.
  intros Hre. exists path. subst r.
  destruct (LG.outcome (env (LG.awaits m))); by simplify_eq.
Qed.

(** X21. A writer raises only what closing its file raises: every
    exception of opening, writing or flushing is handled inside [run], so an
    exception that leaves [run] comes from the [close()] of the [finally]
    clause, which is then the last call awaited. *)
Theorem writer_raises_only_from_close env fuel m e :
  fst (LG.run env fuel m) = Raise e →
  ∃ path, last (LG.effects (snd (LG.run env fuel m))) = Some (Await (f_close path))
          ∧ LG.outcome (env (pred (LG.awaits (snd (LG.run env fuel m))))) = LG.Raises e
          ∧ LG.active (LG.self (snd (LG.run env fuel m))) = false.
Proof.
  rewrite writer_run_unfold. unfold try_finally, try_except.
  destruct (writer_body env fuel (writer_start m)) as [[[]|e'|] m1]; simpl; [| |done].
  - pose proof (writer_finally_raises env m1 e) as Hf.
    destruct (writer_finally_spec env m1) as (_ & _ & Ha & _).
    destruct (writer_finally env m1) as [[[]|e2|] m2]; simpl in *; try done.
    intros [= ->]. destruct Hf as (path & _ & He & Hn & Ho); [done|].
    exists path. rewrite He, Hn, last_snoc. done.
  - rewrite writer_handler_spec. simpl.
    pose proof (writer_finally_raises env (writer_handled m e' m1) e) as Hf.
    destruct (writer_finally_spec env (writer_handled m e' m1)) as (_ & _ & Ha & _).
    destruct (writer_finally env (writer_handled m e' m1)) as [[[]|e2|] m2]; simpl in *; try done.
    intros [= ->]. destruct Hf as (path & _ & He & Hn & Ho); [done|].
    exists path. rewrite He, Hn, last_snoc. done.
Qed.

Lemma writer_raises_only_from_close_witness :
  ∃ path, last (LG.effects (snd (LG.run failing_close_env 5 ppg_writer)))
          = Some (Await (f_close path)).
Proof.
  destruct (writer_raises_only_from_close failing_close_env 5 ppg_writer
              (OSError "No space left on device")) as (path & H & _); [reflexivity|].
  exists path. exact H.
Defined.

(** *** log2csv: routing of records *)

(** X22. A record for a file whose writer is active is appended to the end
    of the queue of that writer; no writer and no task is created and the
    other writers are left as they are. *)
Theorem active_writer_gets_record next_data m l :
  CS.file_outputs (CS.self m)
    !! CS.file_path (CS.self m) (device_adr next_data) (characteristic next_data) = Some l →
  LG.active l = true →
  Queue.full (LG.input_q l) = false →
  CS._log_to_file next_data m
  = (Ret tt,
     CS.with_self
       (CS.with_file_outputs
          (<[CS.file_path (CS.self m) (device_adr next_data) (characteristic next_data) :=
               CS.with_logger_q
                 (Queue.mkQueue (Queue.maxsize (LG.input_q l))
                    (Queue.items (LG.input_q l) ++ [next_data])) l]>
             (CS.file_outputs (CS.self m)))
          (CS.self m)) m).
Proof.
  intros Hl Ha Hfull.
  unfold CS._log_to_file, CS.file_outputs_getitem, CS.logger_put, CS.file_outputs_getitem,
    Queue.put_nowait.
  unfold_monad. simpl. rewrite Hl.
  rewrite bool_decide_eq_false_2 by done. simpl.
  rewrite Hl. simpl. rewrite Ha, Hl. simpl. by rewrite Hfull.
Qed.

Lemma active_writer_gets_record_witness :
  fst (CS._log_to_file (mkNotifData "EB:E5:31:BF:2E:B5" "SP-Case" ppg_red [["3"; "4"]] [])
         (snd (CS._log_to_file (mkNotifData "EB:E5:31:BF:2E:B5" "SP-Case" ppg_red [["1"; "2"]] [])
                 (CS.mkMachine example_consumer false 0 []))))
  = Ret tt.
Proof.
  rewrite (active_writer_gets_record _ _
             (LG.mkCSVLogger "log/SP-Case_ppg_red.csv"
                (Queue.mkQueue 0 [mkNotifData "EB:E5:31:BF:2E:B5" "SP-Case" ppg_red [["1"; "2"]] []])
                ["index"; "ppg red"] true)); reflexivity.
Defined.

(** *** log2csv: file names *)

(** X23. The name of a log file never contains a space, whatever the
    alias, the address or the name of the characteristic; it is joined to
    the configured log folder. *)
Theorem file_name_has_no_space self device_adr char :
  ∃ n, CS.file_path self device_adr char
       = log2csv.os_path_join (log2csv_folder_name (CS.config self)) n
       ∧ contains " " n = false.
Proof.
  unfold CS.file_path. eexists. split; [done|]. by apply contains_replace.
Qed.

(** *** log2csv: from the queue of a writer to its file *)

Lemma rows_text_app a b : rows_text (a ++ b) = rows_text a +:+ rows_text b.
Proof.
  induction a as [|x a IH]; [done|].
  change (String.concat EmptyString (map log2csv.writerow (data x)) +:+ rows_text (a ++ b)
          = (String.concat EmptyString (map log2csv.writerow (data x)) +:+ rows_text a)
            +:+ rows_text b).
  by rewrite IH, append_assoc.
Qed.

Lemma arrived_app env k n1 n2 :
  arrived env k (n1 + n2) = arrived env k n1 ++ arrived env (k + n1) n2.
Proof.
  revert k. induction n1 as [|n1 IH]; intros k; simpl.
  - by rewrite Nat.add_0_r.
  - by rewrite IH, <- app_assoc, Nat.add_succ_r.
Qed.

Lemma logged_refl env path m : logged env path m m.
Proof.
  split_and!; [lia | done |]. exists []. rewrite Nat.sub_diag. simpl.
  by rewrite append_empty_r, app_nil_r.
Qed.

Lemma logged_trans env path m1 m2 m3 :
  logged env path m1 m2 → logged env path m2 m3 → logged env path m1 m3.
Proof.
  intros (Ha1 & Hf1 & t1 & Hc1 & Hq1) (Ha2 & Hf2 & t2 & Hc2 & Hq2).
  split_and!; [lia | congruence |]. exists (t1 ++ t2). split.
  - by rewrite Hc2, Hc1, rows_text_app, append_assoc.
  - replace (LG.awaits m3 - LG.awaits m1)%nat
      with ((LG.awaits m2 - LG.awaits m1) + (LG.awaits m3 - LG.awaits m2))%nat by lia.
    rewrite arrived_app, app_assoc, Hq1.
    replace (LG.awaits m1 + (LG.awaits m2 - LG.awaits m1))%nat with (LG.awaits m2) by lia.
    by rewrite <- !app_assoc, Hq2.
Qed.

Lemma writer_foldl_deliver_items l m :
  Queue.items (LG.input_q (LG.self (foldl LG.deliver m l)))
  = Queue.items (LG.input_q (LG.self m)) ++ puts l.
Proof.
  revert m. induction l as [|a l IH]; intros m; simpl; [by rewrite app_nil_r|].
  rewrite IH. destruct a; simpl; [|done]. by rewrite <- app_assoc.
Qed.

Lemma writer_await_calm env op m :
  LG.outcome (env (LG.awaits m)) = LG.Returns →
  fst (LG.await env op m) = Ret tt
  ∧ Queue.items (LG.input_q (LG.self (snd (LG.await env op m))))
    = Queue.items (LG.input_q (LG.self m)) ++ puts (LG.arrivals (env (LG.awaits m)))
  ∧ LG.fs (snd (LG.await env op m)) = LG.fs m
  ∧ LG.f (snd (LG.await env op m)) = LG.f m
  ∧ LG.awaits (snd (LG.await env op m)) = S (LG.awaits m).
Proof.
  intros Hc. destruct (writer_await_spec env op m) as (_ & _ & Hf & Hfs & Hn & _ & _ & Hr).
  split_and!; auto.
  unfold LG.await. rewrite Hc. simpl. by rewrite writer_foldl_deliver_items.
Qed.

Lemma writer_await_logged env path op m :
  LG.outcome (env (LG.awaits m)) = LG.Returns →
  logged env path m (snd (LG.await env op m)).
Proof.
  intros Hc. destruct (writer_await_calm env op m Hc) as (_ & Hq & Hfs & Hf & Hn).
  split_and!; [lia | done |]. exists [].
  rewrite Hn, Hq. replace (S (LG.awaits m) - LG.awaits m)%nat with 1%nat by lia.
  unfold content. rewrite Hfs. simpl. by rewrite append_empty_r, app_nil_r.
Qed.

Lemma writer_cycle_logged env path m :
  (∀ k, LG.outcome (env k) = LG.Returns) →
  LG.f m = Some path →
  (fst (writer_cycle env m) = Ret tt ∨ fst (writer_cycle env m) = Raise TimeoutError)
  ∧ logged env path m (snd (writer_cycle env m)).
Proof.
  intros Hcalm Hf.
  unfold writer_cycle, LG.input_q_get_, LG.write_rows, LG.f_write_, LG.f_flush_.
  unfold_monad.
  destruct (writer_await_calm env input_q_get m (Hcalm _)) as (Hr1 & Hq1 & Hfs1 & Hf1 & Hn1).
  pose proof (writer_await_logged env path input_q_get m (Hcalm _)) as Hl1.
  destruct (LG.await env input_q_get m) as [r1 m1]. simpl in *. subst r1. simpl.
  unfold Queue.get_nowait.
  destruct (Queue.items (LG.input_q (LG.self m1))) as [|x rest] eqn:Hitems; simpl.
  { split; [by right | done]. }
  rewrite Hf1, Hf. simpl.
  set (m2 := LG.with_input_q (Queue.mkQueue (Queue.maxsize (LG.input_q (LG.self m1))) rest) m1).
  set (text := String.concat EmptyString (map log2csv.writerow (data x))).
  destruct (writer_await_calm env (f_write path text) m2 (Hcalm _)) as (Hr3 & Hq3 & Hfs3 & Hf3 & Hn3).
  destruct (LG.await env (f_write path text) m2) as [r3 m3]. simpl in *. subst r3. simpl.
  rewrite Hf3, Hf1, Hf. simpl.
  set (m4 := LG.with_fs (log2csv.written path text (LG.fs m3)) m3).
  destruct (writer_await_calm env (f_flush path) m4 (Hcalm _)) as (Hr5 & Hq5 & Hfs5 & Hf5 & Hn5).
  destruct (LG.await env (f_flush path) m4) as [r5 m5]. simpl in *. subst r5. simpl.
  split; [by left|].
  destruct Hl1 as (_ & _ & t1 & Hc1 & Hqa).
  split_and!; [lia | congruence |]. exists (t1 ++ [x]). split.
  - assert (content path m5 = content path m1 +:+ text) as ->.
    { unfold content. rewrite Hfs5. unfold m4, log2csv.written. simpl.
      rewrite lookup_insert_eq, Hfs3. done. }
    rewrite Hc1, rows_text_app. simpl. fold text. by rewrite append_empty_r, append_assoc.
  - rewrite Hn5, Hn3, Hq5, Hq3. simpl.
    replace (S (S (LG.awaits m1)) - LG.awaits m)%nat with (1 + 2)%nat by lia.
    rewrite arrived_app. rewrite Hn1 in Hqa.
    replace (S (LG.awaits m) - LG.awaits m)%nat with 1%nat in Hqa by lia.
    rewrite app_assoc, Hqa, Hitems. simpl. rewrite app_nil_r.
    replace (LG.awaits m + 1)%nat with (LG.awaits m1) by lia.
    rewrite Hn3, <- !app_assoc. done.
Qed.

Lemma writer_run_loop_unfold env fuel m :
  LG.run_loop env (S fuel) m
  = if LG.halt m && Queue.empty (LG.input_q (LG.self m)) then (Ret tt, m)
    else match writer_cycle env m with
         | (Ret _, m1) | (Raise TimeoutError, m1) => LG.run_loop env fuel m1
         | (Raise e, m1) => (Raise e, m1)
         | (Unfinished, m1) => (Unfinished, m1)
         end.
Proof.
  cbn [LG.run_loop]. unfold writer_cycle, LG.halt_is_set. unfold_monad. simpl.
  destruct (LG.halt m && Queue.empty (LG.input_q (LG.self m))); [done|].
  destruct (LG.input_q_get_ env m) as [[next|e|] m1]; simpl; [| by destruct e | done].
  destruct (LG.write_rows env (data next) m1) as [[[]|e|] m2]; simpl; [| by destruct e | done].
  destruct (LG.f_flush_ env m2) as [[[]|e|] m3]; simpl; [done | by destruct e | done].
Qed.

Lemma writer_loop_logged env path fuel m :
  (∀ k, LG.outcome (env k) = LG.Returns) →
  LG.f m = Some path →
  logged env path m (snd (LG.run_loop env fuel m)).
Proof.
  intros Hcalm. revert m. induction fuel as [|fuel IH]; intros m Hf; [apply logged_refl|].
  rewrite writer_run_loop_unfold.
  destruct (LG.halt m && Queue.empty (LG.input_q (LG.self m))); [apply logged_refl|].
  destruct (writer_cycle_logged env path m Hcalm Hf) as [Hr Hl].
  destruct (writer_cycle env m) as [r m1]. simpl in *.
  assert (LG.f m1 = Some path) as Hf1 by (destruct Hl as (_ & -> & _); done).
  destruct Hr as [-> | ->]; simpl; (eapply logged_trans; [exact Hl | by apply IH]).
Qed.

(** X24. When every call the writer awaits returns, its loop loses no
    record and invents none: once the loop has returned, the file holds
    what it held before followed by the rows of every record that was in
    the queue or arrived during the loop, each written once, in the order
    of arrival. *)
Theorem writer_logs_every_record env fuel m path :
  (∀ k, LG.outcome (env k) = LG.Returns) →
  LG.f m = Some path →
  fst (LG.run_loop env fuel m) = Ret tt →
  content path (snd (LG.run_loop env fuel m))
  = content path m
    +:+ rows_text (Queue.items (LG.input_q (LG.self m))
                   ++ arrived env (LG.awaits m)
                        (LG.awaits (snd (LG.run_loop env fuel m)) - LG.awaits m)).
Proof.
  intros Hcalm Hf Hr.
  destruct (writer_loop_logged env path fuel m Hcalm Hf) as (_ & _ & taken & Hc & Hq).
  destruct (writer_loop_drained env fuel m Hr) as [_ Hd].
  rewrite Hd, app_nil_r in Hq. by rewrite Hq.
Qed.

Lemma writer_logs_every_record_witness :
  content "log/SP-Case_ppg_red.csv" (snd (LG.run_loop two_records_env 5 idle_writer))
  = "index,ppg red"
    +:+ rows_text [mkNotifData "EB:E5:31:BF:2E:B5" "SP-Case" ppg_red [["1"; "2"]] [];
                   mkNotifData "EB:E5:31:BF:2E:B5" "SP-Case" ppg_red [["3"; "4"]; ["5"; "6"]] []].
Proof.
  rewrite (writer_logs_every_record two_records_env 5 idle_writer "log/SP-Case_ppg_red.csv").
  - reflexivity.
  - intros k. destruct k as [|[|[|k]]]; reflexivity.
  - reflexivity.
  - reflexivity.
Defined.

(** *** log2csv: one writer per file *)

#[global] Instance keeps_writers_preorder : PreOrder keeps_writers.
Proof. split; [intros m H; exact H | intros m1 m2 m3 H1 H2 H; apply H2, H1, H]. Qed.

Lemma keeps_writers_same m m' :
  CS.tasks (CS.self m') = CS.tasks (CS.self m) →
  CS.file_outputs (CS.self m') = CS.file_outputs (CS.self m) →
  keeps_writers m m'.
Proof. intros Ht Hf. unfold keeps_writers, one_writer_per_file. by rewrite Ht, Hf. Qed.

Lemma keeps_writers_alter (f : LG.CSVLogger → LG.CSVLogger) p m :
  (∀ l, LG.file_path (f l) = LG.file_path l) →
  keeps_writers m
    (CS.with_self (CS.with_file_outputs (alter f p (CS.file_outputs (CS.self m))) (CS.self m)) m).
Proof.
  intros Hp (Hnd & Hkeys & Hpaths). split_and!; simpl; [done | |].
  - intros q. rewrite Hkeys. destruct (decide (q = p)) as [->|Hne].
    + rewrite lookup_alter_eq. by rewrite fmap_is_Some.
    + by rewrite lookup_alter_ne.
  - intros q l. destruct (decide (q = p)) as [->|Hne].
    + rewrite lookup_alter_eq.
      destruct (CS.file_outputs (CS.self m) !! p) as [l0|] eqn:Hl0; [|done]. simpl.
      intros [= <-]. rewrite Hp. by apply Hpaths.
    + rewrite lookup_alter_ne by done. apply Hpaths.
Qed.

Lemma keeps_writers_deliver m a : keeps_writers m (CS.deliver m a).
Proof.
  destruct a; simpl.
  - by apply keeps_writers_same.
  - by apply keeps_writers_alter.
  - by apply keeps_writers_alter.
  - by apply keeps_writers_same.
Qed.

Lemma keeps_writers_await env op : preserves keeps_writers (CS.await env op).
Proof.
  intros m. unfold CS.await.
  assert (∀ l m0, keeps_writers m0 (foldl CS.deliver m0 l)) as Hfold.
  { intros l. induction l as [|a l IH]; intros m0; simpl; [done|].
    etrans; [apply keeps_writers_deliver | apply IH]. }
  destruct (CS.outcome (env (CS.awaits m))); simpl;
    (etrans; [|apply Hfold]); by apply keeps_writers_same.
Qed.

Lemma keeps_writers_emit ev : preserves keeps_writers (CS.emit ev).
Proof. apply (preserves_modify keeps_writers). intros m. by apply keeps_writers_same. Qed.

Lemma keeps_writers__log_to_file next_data : preserves keeps_writers (CS._log_to_file next_data).
Proof.
  intros m (Hnd & Hkeys & Hpaths).
  unfold CS._log_to_file, CS.file_outputs_getitem, CS.logger_put, CS.file_outputs_getitem.
  unfold_monad. simpl.
  set (p := CS.file_path (CS.self m) (device_adr next_data) (characteristic next_data)).
  destruct (CS.file_outputs (CS.self m) !! p) as [l|] eqn:Hl.
  - rewrite bool_decide_eq_false_2 by done. simpl. rewrite Hl. simpl.
    destruct (LG.active l); simpl; [|done]. rewrite Hl. simpl.
    destruct (Queue.put_nowait next_data (LG.input_q l)) as [q'|]; simpl; [|done].
    split_and!; simpl; [done | |].
    + intros q. rewrite Hkeys. destruct (decide (q = p)) as [->|Hne].
      * rewrite lookup_insert_eq, Hl. split; by eexists.
      * by rewrite lookup_insert_ne.
    + intros q l0. destruct (decide (q = p)) as [->|Hne].
      * rewrite lookup_insert_eq. intros [= <-]. simpl. by apply Hpaths.
      * rewrite lookup_insert_ne by done. apply Hpaths.
  - rewrite bool_decide_eq_true_2 by done. simpl. rewrite lookup_insert_eq. simpl.
    rewrite lookup_insert_eq. simpl. rewrite insert_insert_eq.
    assert (p ∉ CS.tasks (CS.self m)) as Hnew.
    { rewrite Hkeys, Hl. by intros [? ?]. }
    split_and!; simpl.
    + apply NoDup_app. split_and!; [done | | apply NoDup_singleton].
      intros q Hq ->%list_elem_of_singleton. done.
    + intros q. rewrite elem_of_app, list_elem_of_singleton, Hkeys.
      destruct (decide (q = p)) as [->|Hne].
      * rewrite lookup_insert_eq. split; [by eexists | by right].
      * rewrite lookup_insert_ne by done. split; [by intros [?|?] | by left].
    + intros q l0. destruct (decide (q = p)) as [->|Hne].
      * rewrite lookup_insert_eq. by intros [= <-].
      * rewrite lookup_insert_ne by done. apply Hpaths.
Qed.

Lemma keeps_writers_input_q_get_ env : preserves keeps_writers (CS.input_q_get_ env).
Proof.
  unfold CS.input_q_get_.
  repeat (first [ preserves_step | apply keeps_writers_await
                | apply (preserves_modify keeps_writers); intros ?; by apply keeps_writers_same ]).
Qed.

Lemma keeps_writers_run_loop env fuel : preserves keeps_writers (CS.run_loop env fuel).
Proof.
  induction fuel as [|fuel IH]; simpl; [apply (preserves_unfinished keeps_writers)|].
  unfold CS.halt_is_set.
  repeat (first [ preserves_step | apply keeps_writers_input_q_get_
                | apply keeps_writers__log_to_file | apply IH ]).
Qed.

Lemma keeps_writers_run env fuel : preserves keeps_writers (CS.run env fuel).
Proof.
  unfold CS.run, CS.log_error, CS.log_exception, CS.print, CS.halt_set.
  repeat (first [ preserves_step | apply keeps_writers_run_loop | apply keeps_writers_emit
                | apply keeps_writers_await
                | apply (preserves_modify keeps_writers); intros ?; by apply keeps_writers_same ]).
Qed.

Lemma one_writer_per_file___init__ config input_q halt awaits effects :
  one_writer_per_file (CS.mkMachine (CS.__init__ config input_q) halt awaits effects).
Proof.
  split_and!; simpl.
  - apply NoDup_nil_2.
  - intros p. rewrite lookup_empty. split; [by intros ?%elem_of_nil | by intros [? ?]].
  - intros p l. by rewrite lookup_empty.
Qed.

(** X25. A file never gets a second writer: as long as the consumer runs,
    the writer tasks are exactly the files of the table of writers, each of
    them once, and every writer writes the file it is filed under. *)
Theorem one_writer_per_file_is_kept env fuel m :
  one_writer_per_file m → one_writer_per_file (snd (CS.run env fuel m)).
Proof. apply (keeps_writers_run env fuel m). Qed.

Lemma one_writer_per_file_is_kept_witness :
  one_writer_per_file (snd (CS.run calm_consumer_env 5 draining_consumer)).
Proof.
  apply (one_writer_per_file_is_kept calm_consumer_env 5 draining_consumer).
  apply one_writer_per_file___init__.
Defined.

(** *** log2csv: how the consumer ends *)

Lemma consumer_finally_returns env m :
  fst (consumer_finally env m) = Ret tt →
  last (CS.effects (snd (consumer_finally env m))) = Some (Print "Consumer log2csv shut down...").
Proof.
  unfold consumer_finally, CS.print, CS.emit. unfold_monad. simpl.
  destruct (bool_decide _); simpl;
    destruct (CS.await env asyncio_gather _) as [[[]|?|] m1]; simpl; try done;
    intros _; by rewrite last_snoc.
Qed.

(** X27. The consumer never ends alone: when [run] has ended, normally or
    with an exception of [gather], the halt Event is set, because its loop
    only returns once it is set and every exception that leaves the loop
    sets it; when [run] returns, the last thing it does is print that the
    consumer shut down. *)
Theorem consumer_ends_halted env fuel m :
  fst (CS.run env fuel m) ≠ Unfinished →
  CS.halt (snd (CS.run env fuel m)) = true
  ∧ (fst (CS.run env fuel m) = Ret tt →
     last (CS.effects (snd (CS.run env fuel m))) = Some (Print "Consumer log2csv shut down...")).
Proof.
  pose proof (consumer_loop_drained env fuel m) as Hd.
  unfold CS.run. fold (consumer_finally env).
  unfold try_finally, try_except.
  destruct (CS.run_loop env fuel m) as [[[]|e|] m1]; simpl in *; [| |done].
  - destruct Hd as [Hh _]; [done|].
    pose proof (consumer_stable_finally env m1) as Hs.
    pose proof (consumer_finally_returns env m1) as Hl.
    destruct (consumer_finally env m1) as [[[]|?|] m2]; simpl in *; [| |done];
      intros _; (split; [by apply Hs | done]).
  - unfold CS.log_error, CS.log_exception, CS.halt_set, CS.emit. unfold_monad. simpl.
    set (m2 := CS.mkMachine _ _ _ _).
    pose proof (consumer_stable_finally env m2) as Hs.
    pose proof (consumer_finally_returns env m2) as Hl.
    destruct (consumer_finally env m2) as [[[]|?|] m3]; simpl in *; [| |done];
      intros _; (split; [by apply Hs | done]).
Qed.

Lemma consumer_ends_halted_witness :
  CS.halt (snd (CS.run calm_consumer_env 5 draining_consumer)) = true.
Proof.
  destruct (consumer_ends_halted calm_consumer_env 5 draining_consumer) as [H _].
  - vm_compute. discriminate.
  - exact H.
Defined.
